(** * Smart Bus Scheduler: dispatch and animation engine

    A shallow embedding of the simulation core of the front end:
    - [src/utils/graph.ts]: breadth-first [findPath];
    - [src/utils/geometry.ts]: quadratic Bezier evaluation;
    - the map component: [generateDispatchSchedule], the spawner and
      [handleMultiBusAnimation] with its telemetry, and the single bus of
      the manual mode ([handleSingleBusAnimation]);
    - the application: the simulation timer, the manual planner's
      [activeRoute] and its wait count.

    JavaScript numbers are modelled exactly: counts, route ids and whole
    seconds (allocation, frequency, horizon) as [Z], fractional values
    (times in milliseconds, coordinates, random draws) as rationals [Q]; the
    results of a division by zero are the extended numbers of [JsNum]. The
    schedule generator is also given for an allocation, frequency and
    horizon that are not whole ([Num]), and the two agree on whole numbers.
    [Math.atan2], [Math.cos], [Math.sin] and [Math.PI] are parameters of the
    animation step ([MathLib]), [Math.random()] and [performance.now()] are
    read from given sequences. An uncaught [TypeError] is the result [None].
    React state that only feeds the renderer ([setSimulatedBuses],
    [setDispatchSchedule]) is the value the setter receives. *)

From Stdlib Require Import ZArith QArith Qround Qminmax Qcanon Lia Lqa.
From stdpp Require Import gmap strings list fin_maps.

#[global] Set Warnings "-clear-no-such-hyp,-level-tolerance".
#[global] Set Default Proof Using "Type".

(** * Part I: the program *)

(** ** [src/types.ts] *)

Record Point := { Point_x : Q; Point_y : Q }.

Record Edge := { from : string; to : string; controlPointOffset : Point }.

(** ** [src/utils/graph.ts] *)

(** A queue entry [{ id, path }]. *)
Definition QueueItem : Type := string * list string.

(** [edges.filter(e => e.from === current.id).map(e => e.to)] *)
Definition neighborsOf (edges : list Edge) (cur : string) : list string :=
  to <$> filter (λ e, from e = cur) edges.

(** The [for (const neighbor of neighbors)] loop: it threads the visited
    set and the queue. *)
Fixpoint visitNeighbors (currentPath : list string) (neighbors : list string)
    (visited : gset string) (queue : list QueueItem)
  : gset string * list QueueItem :=
  match neighbors with
  | [] => (visited, queue)
  | neighbor :: rest =>
      if decide (neighbor ∈ visited)
      then visitNeighbors currentPath rest visited queue
      else visitNeighbors currentPath rest ({[neighbor]} ∪ visited)
             (queue ++ [(neighbor, currentPath ++ [neighbor])])
  end.

Inductive LoopOutcome :=
  | Returned (result : option (list string))
  | Continue (queue : list QueueItem) (visited : gset string).

(** One evaluation of the [while (queue.length > 0)] test and body. An empty
    queue leaves the loop, and the function returns [null]. *)
Definition bfsIteration (endId : string) (edges : list Edge)
    (queue : list QueueItem) (visited : gset string) : LoopOutcome :=
  match queue with
  | [] => Returned None
  | current :: rest =>
      if decide (current.1 = endId) then Returned (Some current.2)
      else
        let '(visited', queue') :=
          visitNeighbors current.2 (neighborsOf edges current.1) visited rest in
        Continue queue' visited'
  end.

(** The [while] loop, iterated at most [fuel] times; [None] means that the
    fuel ran out before the loop left. *)
Fixpoint bfsLoop (fuel : nat) (endId : string) (edges : list Edge)
    (queue : list QueueItem) (visited : gset string)
  : option (option (list string)) :=
  match fuel with
  | O => None
  | S fuel' =>
      match bfsIteration endId edges queue visited with
      | Returned result => Some result
      | Continue queue' visited' => bfsLoop fuel' endId edges queue' visited'
      end
  end.

Definition findPath_fuel (fuel : nat) (startId endId : string) (edges : list Edge)
  : option (option (list string)) :=
  if decide (startId = endId) then Some (Some [startId])
  else bfsLoop fuel endId edges [(startId, [startId])] ∅.

(** [findPath]: the outer [option] is [Some] when the loop has left within
    [length edges + 2] iterations ([findPath_terminates] shows that it always
    has); the inner one is the [string[] | null] of the source. *)
Definition findPath (startId endId : string) (edges : list Edge)
  : option (option (list string)) :=
  findPath_fuel (length edges + 2) startId endId edges.

(** The ids handed to [queue.push], in order, over the iterations of the
    loop: what each iteration appended behind the rest of its queue. *)
Fixpoint enqueueLog (fuel : nat) (endId : string) (edges : list Edge)
    (queue : list QueueItem) (visited : gset string) : list string :=
  match fuel with
  | O => []
  | S fuel' =>
      match bfsIteration endId edges queue visited with
      | Returned _ => []
      | Continue queue' visited' =>
          ((drop (length queue - 1) queue').*1)
            ++ enqueueLog fuel' endId edges queue' visited'
      end
  end.

Definition findPath_enqueued (startId endId : string) (edges : list Edge)
  : list string :=
  if decide (startId = endId) then []
  else enqueueLog (length edges + 2) endId edges [(startId, [startId])] ∅.

(** *** Directed paths *)

Definition hasEdge (edges : list Edge) (a b : string) : Prop :=
  ∃ e, e ∈ edges ∧ from e = a ∧ to e = b.

Fixpoint isPathFrom (edges : list Edge) (a : string) (rest : list string)
    (b : string) : Prop :=
  match rest with
  | [] => a = b
  | c :: rest' => hasEdge edges a c ∧ isPathFrom edges c rest' b
  end.

(** [p] lists the stops of a directed path from [startId] to [endId]. *)
Definition isPath (edges : list Edge) (startId : string) (p : list string)
    (endId : string) : Prop :=
  ∃ rest, p = startId :: rest ∧ isPathFrom edges startId rest endId.

Definition edgeCount (p : list string) : nat := length p - 1.

(** [reach edges s n b]: [b] is the end of an [n]-edge walk from [s]. *)
Inductive reach (edges : list Edge) (s : string) : nat → string → Prop :=
  | reach_0 : reach edges s 0 s
  | reach_S n a b : reach edges s n a → hasEdge edges a b → reach edges s (S n) b.

Definition occurrences (n : string) (l : list string) : nat :=
  length (filter (λ m, m = n) l).

Definition incomingEdges (edges : list Edge) (n : string) : nat :=
  length (filter (λ e, to e = n) edges).

(** *** Loop invariant and measure of the search *)

Definition targets (edges : list Edge) : gset string := list_to_set (to <$> edges).

Definition bfsMeasure (edges : list Edge) (queue : list QueueItem)
    (visited : gset string) : nat :=
  length queue + size (targets edges ∖ visited).

(** A stop is processed once the loop has taken it from the queue: it is not
    the destination, and each of its successors has been seen. *)
Definition processed (edges : list Edge) (endId : string) (visited : gset string)
    (y : string) : Prop :=
  y ≠ endId ∧ ∀ z, hasEdge edges y z → z ∈ visited.

(** The queue is [A ++ B]: entries of [d] edges, then entries of [d + 1]. *)
Record bfsInv (edges : list Edge) (startId endId : string) (d : nat)
    (A B : list QueueItem) (visited : gset string) : Prop := {
  inv_A : ∀ n p, (n, p) ∈ A → isPath edges startId p n ∧ length p = S d;
  inv_B : ∀ n p, (n, p) ∈ B → isPath edges startId p n ∧ length p = S (S d);
  inv_below : ∀ k y, k < d → reach edges startId k y →
                     processed edges endId visited y;
  inv_level : ∀ y, reach edges startId d y →
                   processed edges endId visited y ∨ y ∈ (A.*1);
  inv_seen : ∀ y, y ∈ visited ∨ y = startId →
                  processed edges endId visited y ∨ y ∈ ((A ++ B).*1) }.

Definition bfsPost (edges : list Edge) (startId endId : string)
    (r : option (list string)) : Prop :=
  match r with
  | Some p => isPath edges startId p endId
              ∧ ∀ k, reach edges startId k endId → edgeCount p ≤ k
  | None => ∀ k, ¬ reach edges startId k endId
  end.

(** ** [src/utils/geometry.ts] *)

(** The functions of JavaScript's [Math] object that the geometry uses. *)
Record MathLib := {
  Math_atan2 : Q → Q → Q;
  Math_cos : Q → Q;
  Math_sin : Q → Q;
  Math_PI : Q }.

Open Scope Q_scope.

Definition getQuadraticBezierPoint (t : Q) (p0 p1 p2 : Point) : Point :=
  let oneMinusT := 1 - t in
  let x :=
    oneMinusT * oneMinusT * Point_x p0 +
    2 * oneMinusT * t * Point_x p1 +
    t * t * Point_x p2 in
  let y :=
    oneMinusT * oneMinusT * Point_y p0 +
    2 * oneMinusT * t * Point_y p1 +
    t * t * Point_y p2 in
  {| Point_x := x; Point_y := y |}.

Definition getQuadraticBezierAngle (M : MathLib) (t : Q) (p0 p1 p2 : Point) : Q :=
  let dx := 2 * (1 - t) * (Point_x p1 - Point_x p0) + 2 * t * (Point_x p2 - Point_x p1) in
  let dy := 2 * (1 - t) * (Point_y p1 - Point_y p0) + 2 * t * (Point_y p2 - Point_y p1) in
  (Math_atan2 M dy dx * 180) / Math_PI M.

Definition calculateControlPoint (start end_ offset : Point) : Point :=
  let midX := (Point_x start + Point_x end_) / 2 in
  let midY := (Point_y start + Point_y end_) / 2 in
  {| Point_x := midX + Point_x offset; Point_y := midY + Point_y offset |}.

(** The curve [B(t) = (1-t)^2 p0 + 2(1-t)t p1 + t^2 p2], one coordinate. *)
Definition bezier (t a0 a1 a2 : Q) : Q :=
  (1 - t) ^ 2 * a0 + 2 * (1 - t) * t * a1 + t ^ 2 * a2.

(** Two points with equal rational coordinates. *)
Definition Point_eq (p q : Point) : Prop :=
  Point_x p == Point_x q ∧ Point_y p == Point_y q.

Close Scope Q_scope.

(** ** The dispatch schedule ([generateDispatchSchedule]) *)

Record RouteAnalytics := {
  route_id : Z;
  route_name : string;
  total_people : Z;
  probability : Q;
  buses_allocated : Z;
  frequency_minutes : Z }.

(** What arithmetic on integers can produce in JavaScript: a division by
    zero gives an infinity or [NaN]. *)
Inductive JsNum := Fin (z : Z) | PosInf | NegInf | NaN.

(** [Math.floor(a / b)] for integers [a] and [b]. *)
Definition Math_floor_div (a b : Z) : JsNum :=
  if (b =? 0)%Z then
    if (0 <? a)%Z then PosInf else if (a <? 0)%Z then NegInf else NaN
  else Fin (a / b)%Z.

(** [Math.min(a, n)] for an integer [a]. *)
Definition Math_min (a : Z) (n : JsNum) : JsNum :=
  match n with
  | Fin b => Fin (Z.min a b)
  | PosInf => Fin a
  | NegInf => NegInf
  | NaN => NaN
  end.

(** How often [for (let i = 0; i < bound; i++)] runs its body: [i < NaN] and
    [i < -Infinity] are false at once. The bound of the source is a
    [Math.min] with the finite allocation, which is never [+Infinity]
    ([busesToSchedule_not_PosInf]). *)
Definition loopTrips (bound : JsNum) : nat :=
  match bound with
  | Fin n => Z.to_nat n
  | _ => 0
  end.

Definition busesToSchedule (totalCycles : Z) (route : RouteAnalytics) : JsNum :=
  let allocated := buses_allocated route in
  let freq := frequency_minutes route in
  let maxPossibleWindows := Math_floor_div totalCycles freq in
  Math_min allocated maxPossibleWindows.

(** The schedule under construction, and the number of [Math.random()]
    calls made so far; [random k] is the value of call number [k]. *)
Definition SchedState : Type := gmap Z (list Z) * nat.

(** The guard [maxTime > minTime] of window [i]. *)
Definition windowOpen (totalCycles freq i : Z) : bool :=
  let windowStart := (i * freq)%Z in
  let windowEnd := ((i + 1) * freq)%Z in
  let maxTime := Z.min windowEnd totalCycles in
  let minTime := windowStart in
  (maxTime >? minTime)%Z.

(** The body of the [for] loop for window [i]. *)
Definition scheduleWindow (random : nat → Q) (totalCycles : Z)
    (route : RouteAnalytics) (i : Z) (st : SchedState) : SchedState :=
  let freq := frequency_minutes route in
  let windowStart := (i * freq)%Z in
  let windowEnd := ((i + 1) * freq)%Z in
  let maxTime := Z.min windowEnd totalCycles in
  let minTime := windowStart in
  if (maxTime >? minTime)%Z then
    let dispatchTime :=
      (Qfloor (random st.2 * inject_Z (maxTime - minTime))%Q + minTime)%Z in
    (<[dispatchTime := default [] (st.1 !! dispatchTime) ++ [route_id route]]> (st.1),
     S st.2)
  else st.

Fixpoint scheduleWindows (random : nat → Q) (totalCycles : Z)
    (route : RouteAnalytics) (trips : nat) (i : Z) (st : SchedState) : SchedState :=
  match trips with
  | O => st
  | S trips' =>
      scheduleWindows random totalCycles route trips' (i + 1)%Z
        (scheduleWindow random totalCycles route i st)
  end.

(** The callback of [routesAnalytics.forEach]. *)
Definition scheduleRoute (random : nat → Q) (totalCycles : Z)
    (st : SchedState) (route : RouteAnalytics) : SchedState :=
  scheduleWindows random totalCycles route
    (loopTrips (busesToSchedule totalCycles route)) 0%Z st.

Definition generateDispatchSchedule (random : nat → Q) (totalCycles : Z)
    (routesAnalytics : list RouteAnalytics) : gmap Z (list Z) :=
  (foldl (scheduleRoute random totalCycles) (∅, O) routesAnalytics).1.

(** The spawns of route [rid] in a schedule. *)
Definition spawnCount (rid : Z) (schedule : gmap Z (list Z)) : nat :=
  map_fold (λ _ l acc, length (filter (λ r, r = rid) l) + acc) 0 schedule.

(** The loop trips of the entries of route [rid]. *)
Fixpoint tripsOf (totalCycles : Z) (rid : Z) (routes : list RouteAnalytics) : nat :=
  match routes with
  | [] => 0
  | route :: rest =>
      (if decide (route_id route = rid)
       then loopTrips (busesToSchedule totalCycles route) else 0)
      + tripsOf totalCycles rid rest
  end.

(** A [Math.random] source: every draw lies in [[0, 1)]. *)
Definition unitRandom (random : nat → Q) : Prop :=
  ∀ k, (0 <= random k)%Q ∧ (random k < 1)%Q.


Definition mkRouteAnalytics (rid allocated freq : Z) : RouteAnalytics :=
  {| route_id := rid; route_name := "route"; total_people := 0;
     probability := 0; buses_allocated := allocated; frequency_minutes := freq |}.

(** ** [src/types.ts], continued: the network and the fleet *)

Inductive NodeType := terminal | stop | hub.

Record Node := {
  node_id : string;
  label : string;
  node_x : Q;
  node_y : Q;
  type : option NodeType }.

Record Route := {
  Route_id : Z;
  Route_name : string;
  Route_path : list string;
  Route_color : string }.

Inductive BusStatus := MOVING | WAITING | WAITING_FINAL | FINISHED.

#[global] Instance BusStatus_eq_dec : EqDecision BusStatus.
Proof. solve_decision. Defined.

(** The id [`bus-${routeId}-${simulationTime}-${Math.random()}`], by its
    three parts. *)
Definition BusId : Type := Z * Z * Q.

Record SimulatedBus := {
  bus_id : BusId;
  routeId : Z;
  color : string;
  path : list string;
  currentSegment : nat;
  state : BusStatus;
  lastStateChangeTime : Q;
  bus_x : Q;
  bus_y : Q;
  rotation : Q }.

Record RouteStats := { active : nat; completed : nat }.

(** The constants module: [NODES], [EDGES] and [ROUTES]. *)
Record Network := {
  NODES : gmap string Node;
  EDGES : list Edge;
  ROUTES : list Route }.

Definition Node_point (n : Node) : Point :=
  {| Point_x := node_x n; Point_y := node_y n |}.

(** ** The map component: animation of the fleet *)

Definition STOP_DURATION : Q := 1000.
Definition DESTINATION_WAIT : Q := 2000.
Definition TRAVEL_DURATION : Q := 2000.

(** [laneWidth] in [handleMultiBusAnimation]. *)
Definition laneWidth : Q := 14.

Definition set_state (s : BusStatus) (bus : SimulatedBus) : SimulatedBus :=
  {| bus_id := bus_id bus; routeId := routeId bus; color := color bus;
     path := path bus; currentSegment := currentSegment bus; state := s;
     lastStateChangeTime := lastStateChangeTime bus;
     bus_x := bus_x bus; bus_y := bus_y bus; rotation := rotation bus |}.

Definition set_currentSegment (n : nat) (bus : SimulatedBus) : SimulatedBus :=
  {| bus_id := bus_id bus; routeId := routeId bus; color := color bus;
     path := path bus; currentSegment := n; state := state bus;
     lastStateChangeTime := lastStateChangeTime bus;
     bus_x := bus_x bus; bus_y := bus_y bus; rotation := rotation bus |}.

Definition set_lastStateChangeTime (t : Q) (bus : SimulatedBus) : SimulatedBus :=
  {| bus_id := bus_id bus; routeId := routeId bus; color := color bus;
     path := path bus; currentSegment := currentSegment bus; state := state bus;
     lastStateChangeTime := t;
     bus_x := bus_x bus; bus_y := bus_y bus; rotation := rotation bus |}.

Definition set_visual (x y rot : Q) (bus : SimulatedBus) : SimulatedBus :=
  {| bus_id := bus_id bus; routeId := routeId bus; color := color bus;
     path := path bus; currentSegment := currentSegment bus; state := state bus;
     lastStateChangeTime := lastStateChangeTime bus;
     bus_x := x; bus_y := y; rotation := rot |}.

Definition set_position (x y : Q) (bus : SimulatedBus) : SimulatedBus :=
  set_visual x y (rotation bus) bus.

(** [EDGES.find(e => e.from === fromId && e.to === toId)] *)
Definition findEdge (edges : list Edge) (fromId toId : string) : option Edge :=
  List.find (λ e, bool_decide (from e = fromId) && bool_decide (to e = toId)) edges.

(** [elapsed > duration] and [t >= 1] on rationals. *)
Definition Qgtb (a b : Q) : bool := negb (Qle_bool a b).
Definition Qgeb (a b : Q) : bool := Qle_bool b a.

Open Scope Q_scope.

(** The lane offset [(laneIndex - 1.5) * laneWidth] of a route; [%] is the
    truncating remainder. *)
Definition laneOffsetOf (width : Q) (rid : Z) : Q :=
  let laneIndex := Z.rem (rid - 1) 4 in
  (inject_Z laneIndex - (3 # 2)) * width.

(** The callback of [ongoingBuses.forEach] in [handleMultiBusAnimation], for
    a lane width [width]: the bus as the callback leaves it, and what it
    pushes on [busesFinishedThisFrame]. [None] is the [TypeError] of reading
    [.x] of an undefined node. The callback asks only whether the state is
    [WAITING] or [WAITING_FINAL]; every other state takes the moving branch. *)
Definition updateBus (M : MathLib) (net : Network) (width : Q) (time : Q)
    (bus : SimulatedBus) : option (SimulatedBus * list Z) :=
  match state bus with
  | WAITING | WAITING_FINAL =>
      let elapsedWait := time - lastStateChangeTime bus in
      let duration :=
        if decide (state bus = WAITING_FINAL) then DESTINATION_WAIT else STOP_DURATION in
      if Qgtb elapsedWait duration then
        if decide (state bus = WAITING_FINAL) then
          Some (set_state FINISHED bus, [routeId bus])
        else
          Some (set_lastStateChangeTime time
                  (set_currentSegment (currentSegment bus + 1)
                     (set_state MOVING bus)), [])
      else Some (bus, [])
  | _ =>
      let segmentIndex := currentSegment bus in
      if (Z.of_nat segmentIndex >=? Z.of_nat (length (path bus)) - 1)%Z then
        Some (set_state FINISHED bus, [routeId bus])
      else
        let edge :=
          match path bus !! segmentIndex, path bus !! (segmentIndex + 1)%nat with
          | Some fromId, Some toId =>
              match findEdge (EDGES net) fromId toId with
              | Some e => Some (fromId, toId, e)
              | None => None
              end
          | _, _ => None
          end in
        match edge with
        | None => Some (set_state FINISHED bus, [routeId bus])
        | Some (fromId, toId, e) =>
            match NODES net !! fromId, NODES net !! toId with
            | Some fromNode, Some toNode =>
                let cp := calculateControlPoint (Node_point fromNode) (Node_point toNode)
                            (controlPointOffset e) in
                let elapsed := time - lastStateChangeTime bus in
                let t := Qmin (elapsed / TRAVEL_DURATION) 1 in
                let pos := getQuadraticBezierPoint t (Node_point fromNode) cp
                             (Node_point toNode) in
                let rot := getQuadraticBezierAngle M t (Node_point fromNode) cp
                             (Node_point toNode) in
                let angleRad := (rot * Math_PI M) / 180 in
                let normalRad := angleRad + Math_PI M / 2 in
                let laneOffset := laneOffsetOf width (routeId bus) in
                let offsetX := laneOffset * Math_cos M normalRad in
                let offsetY := laneOffset * Math_sin M normalRad in
                let bus1 := set_visual (Point_x pos + offsetX) (Point_y pos + offsetY)
                              rot bus in
                if Qgeb t 1 then
                  let isFinal :=
                    bool_decide (Z.of_nat segmentIndex + 1
                                 = Z.of_nat (length (path bus)) - 1)%Z in
                  Some (set_position (node_x toNode + offsetX) (node_y toNode + offsetY)
                          (set_lastStateChangeTime time
                             (set_state (if isFinal then WAITING_FINAL else WAITING)
                                bus1)), [])
                else Some (bus1, [])
            | _, _ => None
            end
        end
  end.

Close Scope Q_scope.

(** [busesRef.current] and [completedCountsRef.current]. *)
Record SimState := {
  busesRef : list SimulatedBus;
  completedCountsRef : gmap Z nat }.

Definition notFinished (bus : SimulatedBus) : Prop := state bus ≠ FINISHED.

(** [ongoingBuses.forEach]: the callback on each bus in turn; an exception
    ends the loop. *)
Fixpoint updateFleet (M : MathLib) (net : Network) (width : Q) (time : Q)
    (buses : list SimulatedBus) : option (list SimulatedBus * list Z) :=
  match buses with
  | [] => Some ([], [])
  | bus :: rest =>
      match updateBus M net width time bus with
      | None => None
      | Some (bus', finishedNow) =>
          match updateFleet M net width time rest with
          | None => None
          | Some (rest', finishedLater) =>
              Some (bus' :: rest', finishedNow ++ finishedLater)
          end
      end
  end.

(** [counts[rId] = (counts[rId] || 0) + 1] *)
Definition increment (counts : gmap Z nat) (rId : Z) : gmap Z nat :=
  <[rId := default 0 (counts !! rId) + 1]> counts.

(** [counts[rId] || 0] *)
Definition countOf (counts : gmap Z nat) (rId : Z) : nat :=
  default 0 (counts !! rId).

(** The telemetry sent to [onSimulationUpdate]. *)
Definition telemetry (routesAnalytics : list RouteAnalytics)
    (remainingBuses : list SimulatedBus) (completedCounts : gmap Z nat)
  : gmap Z RouteStats :=
  let activeCounts := foldl increment ∅ (routeId <$> remainingBuses) in
  foldl (λ stats r,
           <[route_id r := {| active := countOf activeCounts (route_id r);
                              completed := countOf completedCounts (route_id r) |}]> stats)
        ∅ routesAnalytics.

(** [handleMultiBusAnimation] with lane width [width]: the new refs and the
    telemetry handed to [onSimulationUpdate], or [None] when the frame dies of
    a [TypeError]. [setSimulatedBuses] receives a copy of the new
    [busesRef.current]. *)
Definition handleMultiBusAnimation_lane (M : MathLib) (net : Network) (width : Q)
    (routesAnalytics : list RouteAnalytics) (time : Q) (st : SimState)
  : option (SimState * gmap Z RouteStats) :=
  let activeFleet := busesRef st in
  let ongoingBuses := filter notFinished activeFleet in
  match updateFleet M net width time ongoingBuses with
  | None => None
  | Some (updated, busesFinishedThisFrame) =>
      let completedCounts :=
        foldl increment (completedCountsRef st) busesFinishedThisFrame in
      let remainingBuses := filter notFinished updated in
      Some ({| busesRef := remainingBuses; completedCountsRef := completedCounts |},
            telemetry routesAnalytics remainingBuses completedCounts)
  end.

Definition handleMultiBusAnimation (M : MathLib) (net : Network)
    (routesAnalytics : list RouteAnalytics) (time : Q) (st : SimState)
  : option (SimState * gmap Z RouteStats) :=
  handleMultiBusAnimation_lane M net laneWidth routesAnalytics time st.

(** ** The map component: spawner and animation loop *)

(** One iteration of [routesToSpawn.forEach] in the spawner effect: the bus
    pushed on [newBuses], if any. [now] and [random] are the values of
    [performance.now()] and [Math.random()] for this bus. [None] is the
    [TypeError] of reading [.x] of an undefined start node. *)
Definition spawnBus (net : Network) (simulationTime : Z) (now random : Q)
    (rid : Z) : option (list SimulatedBus) :=
  match List.find (λ r, bool_decide (Route_id r = rid)) (ROUTES net) with
  | Some staticRoute =>
      match Route_path staticRoute with
      | [] => Some []
      | first :: _ =>
          match NODES net !! first with
          | Some startNode =>
              Some [ {| bus_id := (rid, simulationTime, random);
                        routeId := rid;
                        color := Route_color staticRoute;
                        path := Route_path staticRoute;
                        currentSegment := 0;
                        state := MOVING;
                        lastStateChangeTime := now;
                        bus_x := node_x startNode;
                        bus_y := node_y startNode;
                        rotation := 0 |} ]
          | None => None
          end
      end
  | None => Some []
  end.

(** [routesToSpawn.forEach], the [k]-th route id reading [clock k] and
    [random k]. *)
Fixpoint spawnAll (net : Network) (simulationTime : Z) (clock random : nat → Q)
    (k : nat) (routesToSpawn : list Z) : option (list SimulatedBus) :=
  match routesToSpawn with
  | [] => Some []
  | rid :: rest =>
      match spawnBus net simulationTime (clock k) (random k) rid with
      | None => None
      | Some new =>
          match spawnAll net simulationTime clock random (S k) rest with
          | None => None
          | Some newBuses => Some (new ++ newBuses)
          end
      end
  end.

(** The spawner effect for the current [simulationTime]. *)
Definition spawner (net : Network) (dispatchSchedule : gmap Z (list Z))
    (simulationTime : Z) (clock random : nat → Q) (st : SimState)
  : option SimState :=
  match dispatchSchedule !! simulationTime with
  | Some (rid :: rest) =>
      match spawnAll net simulationTime clock random 0 (rid :: rest) with
      | None => None
      | Some [] => Some st
      | Some newBuses =>
          Some {| busesRef := busesRef st ++ newBuses;
                  completedCountsRef := completedCountsRef st |}
      end
  | _ => Some st
  end.

(** The simulation branch of [animate]: nothing happens while the fleet is
    empty. The telemetry, when a frame sends one, is the second component. *)
Definition animate_lane (M : MathLib) (net : Network) (width : Q)
    (routesAnalytics : list RouteAnalytics) (time : Q) (st : SimState)
  : option (SimState * option (gmap Z RouteStats)) :=
  match busesRef st with
  | [] => Some (st, None)
  | _ =>
      match handleMultiBusAnimation_lane M net width routesAnalytics time st with
      | Some (st', stats) => Some (st', Some stats)
      | None => None
      end
  end.

(** What happens during a simulation run: the simulated second changes and
    the spawner effect runs, or an animation frame arrives. *)
Inductive Event :=
  | SpawnerRuns (simulationTime : Z) (clock random : nat → Q)
  | AnimationFrame (time : Q).

Record World := {
  world_math : MathLib;
  world_net : Network;
  world_routesAnalytics : list RouteAnalytics;
  world_schedule : gmap Z (list Z) }.

Definition step_lane (W : World) (width : Q) (st : SimState) (ev : Event)
  : option (SimState * option (gmap Z RouteStats)) :=
  match ev with
  | SpawnerRuns simulationTime clock random =>
      match spawner (world_net W) (world_schedule W) simulationTime clock random st with
      | Some st' => Some (st', None)
      | None => None
      end
  | AnimationFrame time =>
      animate_lane (world_math W) (world_net W) width (world_routesAnalytics W) time st
  end.

(** The run over a list of events: the last state and the telemetry sent,
    oldest first; [None] once an event has thrown. *)
Fixpoint run_lane (W : World) (width : Q) (events : list Event) (st : SimState)
  : option (SimState * list (gmap Z RouteStats)) :=
  match events with
  | [] => Some (st, [])
  | ev :: rest =>
      match step_lane W width st ev with
      | None => None
      | Some (st', out) =>
          match run_lane W width rest st' with
          | None => None
          | Some (st'', outs) => Some (st'', option_list out ++ outs)
          end
      end
  end.

Definition run (W : World) (events : list Event) (st : SimState)
  : option (SimState * list (gmap Z RouteStats)) :=
  run_lane W laneWidth events st.

(** The refs when a simulation starts. *)
Definition simulationStart : SimState :=
  {| busesRef := []; completedCountsRef := ∅ |}.

(** ** The constants module *)

Definition mkNode (i : string) (x y : Q) (ty : NodeType) : Node :=
  {| node_id := i; label := i; node_x := x; node_y := y; type := Some ty |}.

Definition mkEdge (a b : string) (ox oy : Q) : Edge :=
  {| from := a; to := b; controlPointOffset := {| Point_x := ox; Point_y := oy |} |}.

Definition constants_NODES : gmap string Node :=
  list_to_map
    [ ("B1", mkNode "B1" 100 350 terminal);
      ("B2", mkNode "B2" 250 350 stop);
      ("B3", mkNode "B3" 400 350 hub);
      ("B4", mkNode "B4" 550 200 stop);
      ("B5", mkNode "B5" 750 200 terminal);
      ("B6", mkNode "B6" 550 500 hub);
      ("B7", mkNode "B7" 750 350 terminal);
      ("B8", mkNode "B8" 750 500 stop);
      ("B10", mkNode "B10" 750 650 terminal);
      ("B9", mkNode "B9" 900 500 terminal) ].

Definition constants_EDGES : list Edge :=
  [ mkEdge "B1" "B2" 0 (-20);
    mkEdge "B2" "B3" 0 20;
    mkEdge "B3" "B4" (-20) 50;
    mkEdge "B3" "B6" (-20) (-50);
    mkEdge "B4" "B5" 0 (-30);
    mkEdge "B6" "B7" (-50) 50;
    mkEdge "B6" "B8" 0 20;
    mkEdge "B6" "B10" (-50) (-50);
    mkEdge "B8" "B9" 0 (-20) ].

Definition constants_ROUTES : list Route :=
  [ {| Route_id := 2; Route_name := "Route 2: Central Link";
       Route_path := ["B1"; "B2"; "B3"; "B6"; "B7"]; Route_color := "#3b82f6" |};
    {| Route_id := 1; Route_name := "Route 1: Northern Express";
       Route_path := ["B1"; "B2"; "B3"; "B4"; "B5"]; Route_color := "#10b981" |};
    {| Route_id := 3; Route_name := "Route 3: Long Haul South";
       Route_path := ["B1"; "B2"; "B3"; "B6"; "B8"; "B9"]; Route_color := "#f59e0b" |};
    {| Route_id := 4; Route_name := "Route 4: Southern Edge";
       Route_path := ["B1"; "B2"; "B3"; "B6"; "B10"]; Route_color := "#8b5cf6" |} ].

Definition constants : Network :=
  {| NODES := constants_NODES; EDGES := constants_EDGES; ROUTES := constants_ROUTES |}.

(** A stand-in for the [Math] functions, for running the model. *)
Definition sampleMath : MathLib :=
  {| Math_atan2 := λ _ _, 0%Q; Math_cos := λ _, 1%Q; Math_sin := λ _, 0%Q;
     Math_PI := (355 # 113)%Q |}.

(** ** Vocabulary of the properties of the fleet *)

(** A bus without its rendered position: identity, route, path, segment
    index, state, time of the last state change and heading stay. *)
Definition logical (bus : SimulatedBus) : SimulatedBus := set_position 0 0 bus.

(** The buses of route [rid] in a fleet. *)
Definition activeOf (rid : Z) (buses : list SimulatedBus) : nat :=
  length (filter (λ bus, routeId bus = rid) buses).

Definition occurrencesZ (rid : Z) (l : list Z) : nat :=
  length (filter (λ r, r = rid) l).

(** The buses the spawner effect adds at an event. *)
Definition spawnedBy (W : World) (ev : Event) : list SimulatedBus :=
  match ev with
  | SpawnerRuns simulationTime clock random =>
      match world_schedule W !! simulationTime with
      | Some routesToSpawn =>
          default [] (spawnAll (world_net W) simulationTime clock random 0 routesToSpawn)
      | None => []
      end
  | AnimationFrame _ => []
  end.

Definition spawnedDuring (W : World) (events : list Event) : list SimulatedBus :=
  concat (spawnedBy W <$> events).

(** *** Segment index *)

(** The invariant as the specification states it: while [MOVING] or
    [WAITING], the segment index is below [path.length - 1]. *)
Definition claimedSegmentInvariant (bus : SimulatedBus) : Prop :=
  state bus = MOVING ∨ state bus = WAITING →
  (Z.of_nat (currentSegment bus) < Z.of_nat (length (path bus)) - 1)%Z.

(** What the code keeps for a bus on a path of two stops or more. *)
Definition segmentInvariant (bus : SimulatedBus) : Prop :=
  match state bus with
  | MOVING => currentSegment bus + 1 < length (path bus)
  | WAITING => currentSegment bus + 2 < length (path bus)
  | WAITING_FINAL => currentSegment bus + 2 = length (path bus)
  | FINISHED => False
  end.

(** The transitions of one update. *)
Definition transition (bus bus' : SimulatedBus) : Prop :=
  match state bus with
  | MOVING =>
      (state bus' = MOVING ∧ currentSegment bus' = currentSegment bus)
      ∨ (state bus' = WAITING ∧ currentSegment bus' = currentSegment bus
         ∧ currentSegment bus + 2 < length (path bus))
      ∨ (state bus' = WAITING_FINAL ∧ currentSegment bus' = currentSegment bus
         ∧ currentSegment bus + 2 = length (path bus))
      ∨ state bus' = FINISHED
  | WAITING =>
      (state bus' = WAITING ∧ currentSegment bus' = currentSegment bus)
      ∨ (state bus' = MOVING ∧ currentSegment bus' = currentSegment bus + 1)
  | WAITING_FINAL =>
      (state bus' = WAITING_FINAL ∧ currentSegment bus' = currentSegment bus)
      ∨ state bus' = FINISHED
  | FINISHED => False
  end.

(** A network with a route of one stop, and a run that dispatches one bus
    on it at second [0]. *)
Definition oneStopNet : Network :=
  {| NODES := {[ "A" := mkNode "A" 0 0 terminal ]};
     EDGES := [];
     ROUTES := [ {| Route_id := 1; Route_name := "Route 1"; Route_path := ["A"];
                    Route_color := "#10b981" |} ] |}.

Definition oneStopWorld : World :=
  {| world_math := sampleMath;
     world_net := oneStopNet;
     world_routesAnalytics := [mkRouteAnalytics 1 1 10];
     world_schedule := generateDispatchSchedule (λ _, 0%Q) 10 [mkRouteAnalytics 1 1 10] |}.

(** The world of the constants module. *)
Definition constantsWorld : World :=
  {| world_math := sampleMath;
     world_net := constants;
     world_routesAnalytics := [mkRouteAnalytics 1 3 10; mkRouteAnalytics 2 2 15];
     world_schedule :=
       generateDispatchSchedule (λ _, (1 # 2)%Q) 60
         [mkRouteAnalytics 1 3 10; mkRouteAnalytics 2 2 15] |}.

(** *** The life of a bus on a path of three stops *)

Inductive Phase := Leg1 | Dwell | Leg2 | FinalDwell | Done.

#[global] Instance Phase_eq_dec : EqDecision Phase.
Proof. solve_decision. Defined.

Definition phaseIndex (p : Phase) : nat :=
  match p with Leg1 => 0 | Dwell => 1 | Leg2 => 2 | FinalDwell => 3 | Done => 4 end.

Definition phaseState (p : Phase) : BusStatus :=
  match p with
  | Leg1 | Leg2 => MOVING
  | Dwell => WAITING
  | FinalDwell => WAITING_FINAL
  | Done => FINISHED
  end.

Definition phaseSegment (p : Phase) : nat :=
  match p with Leg1 | Dwell => 0 | _ => 1 end.

(** The phase and the time it was entered, after a frame at [time]: a leg
    ends at the first frame at least [TRAVEL_DURATION] after its start, a
    dwell at the first frame more than its duration after its start. *)
Definition phaseStep (ph : Phase * Q) (time : Q) : Phase * Q :=
  match ph.1 with
  | Leg1 => if Qgeb (time - ph.2) TRAVEL_DURATION then (Dwell, time) else ph
  | Dwell => if Qgtb (time - ph.2) STOP_DURATION then (Leg2, time) else ph
  | Leg2 => if Qgeb (time - ph.2) TRAVEL_DURATION then (FinalDwell, time) else ph
  | FinalDwell => if Qgtb (time - ph.2) DESTINATION_WAIT then (Done, time) else ph
  | Done => ph
  end.

Definition phaseAfter (spawnTime : Q) (times : list Q) : Phase * Q :=
  foldl phaseStep (Leg1, spawnTime) times.

(** The least time after the spawn at which a phase can have been entered;
    the bound is strict from [Leg2] on. *)
Definition phaseEarliest (p : Phase) : Q :=
  match p with
  | Leg1 => 0 | Dwell => 2000 | Leg2 => 3000 | FinalDwell => 5000 | Done => 7000
  end.

(** Entry times: a phase entered at [since] was entered no earlier than
    [phaseEarliest] after the spawn, and strictly later from [Leg2] on. *)
Definition enteredLate (spawnTime : Q) (ph : Phase * Q) : Prop :=
  (spawnTime + phaseEarliest ph.1 <= ph.2)%Q
  ∧ (2 ≤ phaseIndex ph.1 → (spawnTime + phaseEarliest ph.1 < ph.2)%Q).

(** A fleet of one bus, seen as a phase: state and segment index of the
    bus, or [Done] once the fleet is empty. *)
Definition onPhase (bus0 : SimulatedBus) (counts0 : nat) (ph : Phase * Q)
    (st : SimState) : Prop :=
  countOf (completedCountsRef st) (routeId bus0)
  = counts0 + (if decide (ph.1 = Done) then 1 else 0)
  ∧ match ph.1 with
    | Done => busesRef st = []
    | p => ∃ bus, busesRef st = [bus]
                  ∧ path bus = path bus0 ∧ routeId bus = routeId bus0
                  ∧ state bus = phaseState p
                  ∧ currentSegment bus = phaseSegment p
                  ∧ lastStateChangeTime bus = ph.2
    end.

(** Stops [A], [B], [C] with edges [A -> B] and [B -> C], and the route
    [[A; B; C]], of which one bus is dispatched at second [0]. *)
Definition threeStopNet : Network :=
  {| NODES := list_to_map [ ("A", mkNode "A" 0 0 terminal);
                            ("B", mkNode "B" 100 0 stop);
                            ("C", mkNode "C" 200 0 terminal) ];
     EDGES := [ mkEdge "A" "B" 0 0; mkEdge "B" "C" 0 0 ];
     ROUTES := [ {| Route_id := 1; Route_name := "Route 1";
                    Route_path := ["A"; "B"; "C"]; Route_color := "#10b981" |} ] |}.

Definition threeStopWorld : World :=
  {| world_math := sampleMath;
     world_net := threeStopNet;
     world_routesAnalytics := [mkRouteAnalytics 1 1 10];
     world_schedule := generateDispatchSchedule (λ _, 0%Q) 10 [mkRouteAnalytics 1 1 10] |}.

(** The bus the spawner creates in [threeStopWorld] at time [0]. *)
Definition threeStopBus : SimulatedBus :=
  {| bus_id := (1%Z, 0%Z, 0%Q); routeId := 1; color := "#10b981";
     path := ["A"; "B"; "C"]; currentSegment := 0; state := MOVING;
     lastStateChangeTime := 0; bus_x := 0; bus_y := 0; rotation := 0 |}.

(** The events of a run of [threeStopWorld]: the spawner at second [0],
    read at clock time [0], then frames at the given times. *)
Definition threeStopEvents (times : list Q) : list Event :=
  SpawnerRuns 0 (λ _, 0%Q) (λ _, 0%Q) :: (AnimationFrame <$> times).

(** *** Networks on which no frame throws *)

(** Every edge joins two nodes of [NODES], and every route starts at one. *)
Definition wellFormed (net : Network) : Prop :=
  (∀ e, e ∈ EDGES net →
        is_Some (NODES net !! from e) ∧ is_Some (NODES net !! to e))
  ∧ (∀ route first rest, route ∈ ROUTES net →
        Route_path route = first :: rest → is_Some (NODES net !! first)).

(** ** The dispatch schedule on fractional numbers *)

(** [generateDispatchSchedule] once more, for the case that the backend
    sends numbers that are not whole: [buses_allocated], [frequency_minutes]
    and the horizon are rationals, and so are the keys of the schedule. On
    whole numbers this is the schedule above
    ([generateDispatchSchedule_whole]). *)
Module Num.

Record RouteAnalytics := {
  route_id : Z;
  route_name : string;
  total_people : Z;
  probability : Q;
  buses_allocated : Q;
  frequency_minutes : Q }.

(** A JavaScript number: a rational, an infinity or [NaN]. *)
Inductive JsNum := Fin (q : Q) | PosInf | NegInf | NaN.

Open Scope Q_scope.

(** [Math.floor(a / b)] *)
Definition Math_floor_div (a b : Q) : JsNum :=
  if Qeq_bool b 0 then
    if Qgtb a 0 then PosInf else if Qgtb 0 a then NegInf else NaN
  else Fin (inject_Z (Qfloor (a / b))).

(** [Math.min(a, n)] for a rational [a]. *)
Definition Math_min (a : Q) (n : JsNum) : JsNum :=
  match n with
  | Fin b => Fin (Qmin a b)
  | PosInf => Fin a
  | NegInf => NegInf
  | NaN => NaN
  end.

(** [k <= n], as JavaScript compares: nothing is below [NaN]. *)
Definition JsNum_le (k : Q) (n : JsNum) : Prop :=
  match n with
  | Fin b => k <= b
  | PosInf => True
  | NegInf => False
  | NaN => False
  end.

(** How often [for (let i = 0; i < bound; i++)] runs its body: once for
    each of [0, 1, ...] below the bound, so [3] times for the bound [2.5].
    The bound of the source is a [Math.min] with the finite allocation,
    which is never [+Infinity]. *)
Definition loopTrips (bound : JsNum) : nat :=
  match bound with
  | Fin q => Z.to_nat (Qceiling q)
  | _ => 0
  end.

Definition busesToSchedule (totalCycles : Q) (route : RouteAnalytics) : JsNum :=
  let allocated := buses_allocated route in
  let freq := frequency_minutes route in
  let maxPossibleWindows := Math_floor_div totalCycles freq in
  Math_min allocated maxPossibleWindows.

(** The schedule under construction, keyed by the dispatch time, and the
    number of [Math.random()] calls made so far. Two keys are the same
    property of the object when they are the same number. *)
Definition SchedState : Type := gmap Qc (list Z) * nat.

(** The guard [maxTime > minTime] of window [i]. *)
Definition windowOpen (totalCycles freq : Q) (i : Z) : bool :=
  let windowStart := inject_Z i * freq in
  let windowEnd := (inject_Z i + 1) * freq in
  let maxTime := Qmin windowEnd totalCycles in
  let minTime := windowStart in
  Qgtb maxTime minTime.

(** [Math.floor(Math.random() * (maxTime - minTime)) + minTime] of window
    [i], for the draw [r]. *)
Definition dispatchTime (totalCycles freq : Q) (i : Z) (r : Q) : Q :=
  let windowStart := inject_Z i * freq in
  let windowEnd := (inject_Z i + 1) * freq in
  let maxTime := Qmin windowEnd totalCycles in
  let minTime := windowStart in
  inject_Z (Qfloor (r * (maxTime - minTime))) + minTime.

(** The body of the [for] loop for window [i]. *)
Definition scheduleWindow (random : nat → Q) (totalCycles : Q)
    (route : RouteAnalytics) (i : Z) (st : SchedState) : SchedState :=
  let freq := frequency_minutes route in
  if windowOpen totalCycles freq i then
    let key := Q2Qc (dispatchTime totalCycles freq i (random st.2)) in
    (<[key := default [] (st.1 !! key) ++ [route_id route]]> (st.1), S st.2)
  else st.

Fixpoint scheduleWindows (random : nat → Q) (totalCycles : Q)
    (route : RouteAnalytics) (trips : nat) (i : Z) (st : SchedState) : SchedState :=
  match trips with
  | O => st
  | S trips' =>
      scheduleWindows random totalCycles route trips' (i + 1)%Z
        (scheduleWindow random totalCycles route i st)
  end.

(** The callback of [routesAnalytics.forEach]. *)
Definition scheduleRoute (random : nat → Q) (totalCycles : Q)
    (st : SchedState) (route : RouteAnalytics) : SchedState :=
  scheduleWindows random totalCycles route
    (loopTrips (busesToSchedule totalCycles route)) 0%Z st.

Definition generateDispatchSchedule (random : nat → Q) (totalCycles : Q)
    (routesAnalytics : list RouteAnalytics) : gmap Qc (list Z) :=
  (foldl (scheduleRoute random totalCycles) (∅, O) routesAnalytics).1.

Close Scope Q_scope.

(** The spawns of route [rid] in a schedule. *)
Definition spawnCount (rid : Z) (schedule : gmap Qc (list Z)) : nat :=
  map_fold (λ _ l acc, length (filter (λ r, r = rid) l) + acc) 0 schedule.

(** The loop trips of the entries of route [rid]. *)
Fixpoint tripsOf (totalCycles : Q) (rid : Z) (routes : list RouteAnalytics) : nat :=
  match routes with
  | [] => 0
  | route :: rest =>
      (if decide (route_id route = rid)
       then loopTrips (busesToSchedule totalCycles route) else 0)
      + tripsOf totalCycles rid rest
  end.

(** A whole number. *)
Definition isInteger (q : Q) : Prop := (inject_Z (Qfloor q) == q)%Q.

(** The specification read literally for one route entry: the spawns number
    at most [Math.min(allocated, Math.floor(totalCycles / freq))], and every
    dispatch second is an integer of [[0, totalCycles)]. *)
Definition asClaimed (random : nat → Q) (totalCycles : Q) (route : RouteAnalytics) : Prop :=
  let schedule := generateDispatchSchedule random totalCycles [route] in
  JsNum_le (inject_Z (Z.of_nat (spawnCount (route_id route) schedule)))
    (busesToSchedule totalCycles route)
  ∧ ∀ (t : Qc) l, schedule !! t = Some l →
      isInteger t ∧ (0 <= t)%Q ∧ (t < totalCycles)%Q.

Definition mkRouteAnalytics (rid : Z) (allocated freq : Q) : RouteAnalytics :=
  {| route_id := rid; route_name := "route"; total_people := 0;
     probability := 0; buses_allocated := allocated; frequency_minutes := freq |}.

End Num.

(** The key of the second [t]. *)
Definition secondKey (t : Z) : Qc := Q2Qc (inject_Z t).

(** An entry of whole numbers, as an entry of numbers. *)
Definition whole (route : RouteAnalytics) : Num.RouteAnalytics :=
  {| Num.route_id := route_id route; Num.route_name := route_name route;
     Num.total_people := total_people route; Num.probability := probability route;
     Num.buses_allocated := inject_Z (buses_allocated route);
     Num.frequency_minutes := inject_Z (frequency_minutes route) |}.

(** ** The map component: the single bus of the manual mode *)

Module Manual.

(** The three values of [stateRef]. *)
Inductive Status := MOVING | WAITING | WAITING_FINAL.

(** [startTimeRef], [pauseTimeRef], [currentSegmentRef] and [stateRef]. *)
Record Refs := {
  startTimeRef : option Q;
  pauseTimeRef : option Q;
  currentSegmentRef : nat;
  stateRef : Status }.

(** The refs as [useRef] creates them. *)
Definition initialRefs : Refs :=
  {| startTimeRef := None; pauseTimeRef := None; currentSegmentRef := 0;
     stateRef := MOVING |}.

(** [BusState] of [src/types.ts]. *)
Record BusState := {
  bs_x : Q;
  bs_y : Q;
  bs_rotation : Q;
  isVisible : bool;
  currentStopLabel : option string }.

(** The calls of the callbacks [onAnimationComplete] and [onStopReached]. *)
Inductive Signal := AnimationComplete | StopReached (stopName : string).

(** [!ref.current] for a [number | null]: [null] and [0] are falsy. *)
Definition falsy (r : option Q) : bool :=
  match r with
  | None => true
  | Some q => Qeq_bool q 0
  end.

(** [ref.current || time] *)
Definition orElse (r : option Q) (time : Q) : Q :=
  match r with
  | None => time
  | Some q => if Qeq_bool q 0 then time else q
  end.

Open Scope Q_scope.

(** [handleSingleBusAnimation]: the refs as the call leaves them, the
    argument of [setSingleBusState] when it is called, and the callbacks
    called, in order. [None] is the [TypeError] of reading [.x] of an
    undefined node. *)
Definition handleSingleBusAnimation (M : MathLib) (net : Network)
    (activeRoute : option Route) (time : Q) (r : Refs)
  : option (Refs * option BusState * list Signal) :=
  let waited : Refs + Refs * list Signal :=
    match stateRef r with
    | MOVING => inl r
    | _ =>
        let pause := orElse (pauseTimeRef r) time in
        let r0 := {| startTimeRef := startTimeRef r; pauseTimeRef := Some pause;
                     currentSegmentRef := currentSegmentRef r; stateRef := stateRef r |} in
        let elapsedPause := time - pause in
        let duration :=
          match stateRef r with
          | WAITING_FINAL => DESTINATION_WAIT
          | _ => STOP_DURATION
          end in
        if Qgeb elapsedPause duration then
          match stateRef r with
          | WAITING_FINAL => inr (r0, [AnimationComplete])
          | _ =>
              inl {| startTimeRef := Some time; pauseTimeRef := None;
                     currentSegmentRef := currentSegmentRef r + 1; stateRef := MOVING |}
          end
        else inr (r0, [])
    end in
  match waited with
  | inr (r', signals) => Some (r', None, signals)
  | inl r1 =>
      match activeRoute with
      | None => Some (r1, None, [])
      | Some route =>
          let segmentIndex := currentSegmentRef r1 in
          if (Z.of_nat segmentIndex >=? Z.of_nat (length (Route_path route)) - 1)%Z then
            Some (r1, None, [AnimationComplete])
          else
            match Route_path route !! segmentIndex,
                  Route_path route !! (segmentIndex + 1)%nat with
            | Some fromId, Some toId =>
                match findEdge (EDGES net) fromId toId with
                | None => Some (r1, None, [])
                | Some edge =>
                    match NODES net !! fromId, NODES net !! toId with
                    | Some fromNode, Some toNode =>
                        let controlPoint :=
                          calculateControlPoint (Node_point fromNode) (Node_point toNode)
                            (controlPointOffset edge) in
                        let elapsed := time - orElse (startTimeRef r1) time in
                        let t := Qmin (elapsed / TRAVEL_DURATION) 1 in
                        let pos := getQuadraticBezierPoint t (Node_point fromNode)
                                     controlPoint (Node_point toNode) in
                        let rot := getQuadraticBezierAngle M t (Node_point fromNode)
                                     controlPoint (Node_point toNode) in
                        let shown :=
                          {| bs_x := Point_x pos; bs_y := Point_y pos; bs_rotation := rot;
                             isVisible := true;
                             currentStopLabel :=
                               if Qgeb t 1 then Some (label toNode) else None |} in
                        if Qgeb t 1 then
                          let isFinal :=
                            bool_decide (Z.of_nat segmentIndex + 1
                                         = Z.of_nat (length (Route_path route)) - 1)%Z in
                          Some ({| startTimeRef := startTimeRef r1;
                                   pauseTimeRef := None;
                                   currentSegmentRef := currentSegmentRef r1;
                                   stateRef := if isFinal then WAITING_FINAL else WAITING |},
                                Some shown, [StopReached (label toNode)])
                        else Some (r1, Some shown, [])
                    | _, _ => None
                    end
                end
            | _, _ => Some (r1, None, [])
            end
      end
  end.

Close Scope Q_scope.

(** The manual branch of [animate]. *)
Definition animate (M : MathLib) (net : Network) (simulationMode isAnimating : bool)
    (activeRoute : option Route) (time : Q) (r : Refs)
  : option (Refs * option BusState * list Signal) :=
  match activeRoute with
  | Some _ =>
      if negb simulationMode && isAnimating then
        let r1 :=
          if falsy (startTimeRef r) then
            {| startTimeRef := Some time; pauseTimeRef := pauseTimeRef r;
               currentSegmentRef := currentSegmentRef r; stateRef := stateRef r |}
          else r in
        handleSingleBusAnimation M net activeRoute time r1
      else Some (r, None, [])
  | None => Some (r, None, [])
  end.

(** The frames at the given times while the route [route] is animated: the
    last refs, the bus states set and the callbacks called, oldest first;
    [None] once a frame has thrown. *)
Fixpoint frames (M : MathLib) (net : Network) (route : Route) (times : list Q) (r : Refs)
  : option (Refs * list BusState * list Signal) :=
  match times with
  | [] => Some (r, [], [])
  | time :: rest =>
      match animate M net false true (Some route) time r with
      | None => None
      | Some (r1, shown, signals) =>
          match frames M net route rest r1 with
          | None => None
          | Some (r2, shownLater, signalsLater) =>
              Some (r2, option_list shown ++ shownLater, signals ++ signalsLater)
          end
      end
  end.

End Manual.

(** ** The map component: the reset effect *)

(** The effect on [simulationMode], [routesAnalytics] and [totalCycles]: the
    refs as it leaves them, and the schedule that [setDispatchSchedule]
    receives. When a simulation starts it empties the completed counts and
    generates the schedule; the fleet is emptied only when the simulation
    mode ends. *)
Definition resetEffect (random : nat → Q) (simulationMode : bool) (totalCycles : Z)
    (routesAnalytics : list RouteAnalytics) (st : SimState)
  : SimState * gmap Z (list Z) :=
  if simulationMode then
    ({| busesRef := busesRef st; completedCountsRef := ∅ |},
     generateDispatchSchedule random totalCycles routesAnalytics)
  else
    ({| busesRef := []; completedCountsRef := completedCountsRef st |}, ∅).

(** ** The application: the simulation timer *)

(** [simulationTime] and [isSimulating] of the application. *)
Record Timer := {
  timer_simulationTime : Z;
  timer_isSimulating : bool }.

(** One tick of the interval of the timer effect. The interval exists only
    while [isSimulating] holds: the effect clears it when the updater has
    called [setIsSimulating(false)]. *)
Definition timerTick (totalCycles : Z) (c : Timer) : Timer :=
  if timer_isSimulating c then
    let prev := timer_simulationTime c in
    if (prev >=? totalCycles)%Z then
      {| timer_simulationTime := prev; timer_isSimulating := false |}
    else
      {| timer_simulationTime := prev + 1; timer_isSimulating := true |}
  else c.

(** [setSimulationTime(0); setIsSimulating(true)] of [handlePredict]. *)
Definition timerStart : Timer :=
  {| timer_simulationTime := 0; timer_isSimulating := true |}.

Definition timerAfter (totalCycles : Z) (ticks : nat) : Timer :=
  Nat.iter ticks (timerTick totalCycles) timerStart.

(** ** The application: the manual planner *)

(** [activeRoute]: the route of the manual planner, [null] when [findPath]
    finds none. [findPath] always returns ([findPath_total]), so the case
    of the search running out of fuel does not arise. *)
Definition activeRoute (edges : list Edge) (sourceId targetId : string) : option Route :=
  match findPath sourceId targetId edges with
  | Some (Some path) =>
      Some {| Route_id := 999;
              Route_name := "Express: " +:+ sourceId +:+ " to " +:+ targetId;
              Route_path := path;
              Route_color := "#3b82f6" |}
  | _ => None
  end.

(** [totalPassengers]: the sum of [Object.values(peopleCounts)]. *)
Definition totalPassengers (peopleCounts : gmap string Z) : Z :=
  map_fold (λ _ count acc, acc + count)%Z 0%Z peopleCounts.

(** [manualRoutePeopleCount]: the sum of [peopleCounts[nodeId] || 0] over
    the path of the active route. *)
Definition manualRoutePeopleCount (route : option Route) (peopleCounts : gmap string Z) : Z :=
  match route with
  | None => 0
  | Some r =>
      foldl (λ sum nodeId, sum + default 0 (peopleCounts !! nodeId))%Z 0%Z (Route_path r)
  end.

(** ** Vocabulary of the further properties *)

(** *** Geometry *)

Open Scope Q_scope.

(** The vector [(dx, dy)] that [getQuadraticBezierAngle] hands to
    [Math.atan2]: [2(1-t)(p1-p0) + 2t(p2-p1)]. *)
Definition bezierDerivative (t : Q) (p0 p1 p2 : Point) : Point :=
  {| Point_x := 2 * (1 - t) * (Point_x p1 - Point_x p0) + 2 * t * (Point_x p2 - Point_x p1);
     Point_y := 2 * (1 - t) * (Point_y p1 - Point_y p0) + 2 * t * (Point_y p2 - Point_y p1) |}.

(** The point at fraction [t] of the straight segment from [p0] to [p2]. *)
Definition lerp (t : Q) (p0 p2 : Point) : Point :=
  {| Point_x := (1 - t) * Point_x p0 + t * Point_x p2;
     Point_y := (1 - t) * Point_y p0 + t * Point_y p2 |}.

Definition origin : Point := {| Point_x := 0; Point_y := 0 |}.

Close Scope Q_scope.

(** *** Schedule *)

(** The spawns of route [rid] scheduled for a second of [[lo, hi)]. *)
Definition spawnsIn (rid : Z) (lo hi : Z) (schedule : gmap Z (list Z)) : nat :=
  map_fold (λ t l acc,
              (if bool_decide (lo <= t < hi)%Z
               then length (filter (λ r, r = rid) l) else 0) + acc)
           0 schedule.


(** *** Runs of the simulation *)

(** The simulated seconds for which the spawner effect runs. *)
Definition spawnerSeconds (events : list Event) : list Z :=
  flat_map (λ ev, match ev with
                  | SpawnerRuns simulationTime _ _ => [simulationTime]
                  | AnimationFrame _ => []
                  end) events.

(** What a bus keeps for life. *)
Definition identity (bus : SimulatedBus) : BusId * Z * string * list string :=
  (bus_id bus, routeId bus, color bus, path bus).

(** A bus as the spawner effect creates it from the route [r]. *)
Definition freshOn (net : Network) (r : Route) (bus : SimulatedBus) : Prop :=
  routeId bus = Route_id r ∧ color bus = Route_color r ∧ path bus = Route_path r
  ∧ currentSegment bus = 0 ∧ state bus = MOVING ∧ rotation bus = 0%Q
  ∧ ∃ first startNode,
      head (path bus) = Some first ∧ NODES net !! first = Some startNode
      ∧ bus_x bus = node_x startNode ∧ bus_y bus = node_y startNode.

(** *** The manual trip *)

(** The stop labels that [onStopReached] is called with on the way along
    the ids [ids]. *)
Definition labelsOf (net : Network) (ids : list string) : list (option string) :=
  (λ i, label <$> NODES net !! i) <$> ids.

(** How many stops have been reported when the refs are [r], on a path of
    [len] stops. *)
Definition reported (len : nat) (r : Manual.Refs) (k : nat) : Prop :=
  match Manual.stateRef r with
  | Manual.MOVING => Manual.currentSegmentRef r = k ∧ k ≤ len - 1
  | Manual.WAITING => Manual.currentSegmentRef r + 1 = k ∧ k < len - 1
  | Manual.WAITING_FINAL => Manual.currentSegmentRef r + 1 = k ∧ k = len - 1
  end.

(** Every leg of the path has an edge of [EDGES] whose two ends are nodes
    of [NODES]. *)
Definition drivable (net : Network) (path : list string) : Prop :=
  ∀ i fromId toId, path !! i = Some fromId → path !! S i = Some toId →
    ∃ e, findEdge (EDGES net) fromId toId = Some e
         ∧ is_Some (NODES net !! fromId) ∧ is_Some (NODES net !! toId).




(** The frames of a screen that keeps refreshing: the times are positive,
    never go back and pass every bound. *)
Definition refreshing (times : nat → Q) : Prop :=
  (0 < times O)%Q ∧ (∀ i, times i <= times (S i))%Q ∧ (∀ bound, ∃ i, bound <= times i)%Q.

(** The single bus is [MOVING] on segment [k] since [s]. *)
Definition movingSince (k : nat) (s : Q) (r : Manual.Refs) : Prop :=
  Manual.stateRef r = Manual.MOVING ∧ Manual.currentSegmentRef r = k
  ∧ Manual.startTimeRef r = Some s ∧ (0 < s)%Q.

(** The state in which the single bus waits at the end of segment [k] of a
    path of [len] stops. *)
Definition waitingState (len k : nat) : Manual.Status :=
  if decide (k + 2 = len) then Manual.WAITING_FINAL else Manual.WAITING.

(** The single bus has arrived at the end of segment [k], and no frame has
    come since. *)
Definition arrivedAt (len k : nat) (r : Manual.Refs) : Prop :=
  Manual.stateRef r = waitingState len k ∧ Manual.currentSegmentRef r = k
  ∧ Manual.pauseTimeRef r = None.

(** The single bus waits at the end of segment [k] since [p]. *)
Definition waitingSince (len k : nat) (p : Q) (r : Manual.Refs) : Prop :=
  Manual.stateRef r = waitingState len k ∧ Manual.currentSegmentRef r = k
  ∧ Manual.pauseTimeRef r = Some p ∧ (0 < p)%Q.

(** * Part II: properties *)

(** ** Graph search *)

Section GraphSearch.
Context (edges : list Edge) (startId endId : string).

Lemma elem_of_neighborsOf cur n :
  n ∈ neighborsOf edges cur ↔ hasEdge edges cur n.
Proof.
  unfold neighborsOf, hasEdge. rewrite list_elem_of_fmap. split.
  - intros (e & -> & He). apply list_elem_of_filter in He as [Hf He]. eauto.
  - intros (e & He & Hf & Ht). exists e. split; [done|].
    apply list_elem_of_filter. done.
Qed.

(** What one run of the [for] loop over the neighbours does. *)
Lemma visitNeighbors_spec p ns v q v' q' :
  visitNeighbors p ns v q = (v', q') →
  ∃ pushed,
    q' = q ++ pushed
    ∧ v ⊆ v'
    ∧ (∀ n, n ∈ ns → n ∈ v')
    ∧ (∀ n, n ∈ v' → n ∈ v ∨ n ∈ (pushed.*1))
    ∧ (∀ n pn, (n, pn) ∈ pushed → n ∈ ns ∧ n ∉ v ∧ n ∈ v' ∧ pn = p ++ [n])
    ∧ NoDup (pushed.*1).
Proof.
  revert v q. induction ns as [|n ns IH]; intros v q H; simpl in H.
  - inversion H; subst. exists []. rewrite app_nil_r.
    split_and!; try set_solver. constructor.
  - destruct (decide (n ∈ v)) as [Hin|Hnin].
    + destruct (IH _ _ H) as (pushed & -> & Hsub & Hall & Hnew & Hp & Hnd).
      exists pushed. split_and!; try done.
      * intros m Hm. apply elem_of_cons in Hm as [->|Hm]; [set_solver|auto].
      * intros m pm Hm. apply Hp in Hm. set_solver.
    + destruct (IH _ _ H) as (pushed & -> & Hsub & Hall & Hnew & Hp & Hnd).
      exists ((n, p ++ [n]) :: pushed). rewrite <- app_assoc. simpl.
      split_and!.
      * done.
      * set_solver.
      * intros m Hm. apply elem_of_cons in Hm as [->|Hm]; [set_solver|auto].
      * intros m Hm. destruct (Hnew _ Hm) as [Hm'|Hm']; [|set_solver].
        apply elem_of_union in Hm' as [Hm'|Hm']; [|by left].
        right. set_solver.
      * intros m pm Hm. apply elem_of_cons in Hm as [Heq|Hm].
        -- inversion Heq; subst. set_solver.
        -- apply Hp in Hm. set_solver.
      * constructor; [|done]. intros Hin.
        apply list_elem_of_fmap in Hin as ([m pm] & Hm & Hin). simpl in Hm. subst m.
        apply Hp in Hin. set_solver.
Qed.


Lemma neighborsOf_targets cur n : n ∈ neighborsOf edges cur → n ∈ targets edges.
Proof.
  intros Hn. apply elem_of_neighborsOf in Hn as (e & He & _ & <-).
  unfold targets. apply elem_of_list_to_set, list_elem_of_fmap. eauto.
Qed.

Lemma size_targets : size (targets edges) ≤ length edges.
Proof.
  unfold targets. generalize (to <$> edges) (length_fmap to edges).
  intros l <-. induction l as [|a l IH].
  - rewrite list_to_set_nil, size_empty. done.
  - rewrite list_to_set_cons. simpl.
    rewrite size_union_alt, size_singleton.
    assert (size (list_to_set l ∖ {[a]} : gset string) ≤ size (list_to_set l : gset string)).
    { apply subseteq_size. set_solver. }
    lia.
Qed.

Lemma size_difference_fresh (n : string) (t v : gset string) :
  n ∈ t → n ∉ v → size (t ∖ v) = S (size (t ∖ ({[n]} ∪ v))).
Proof.
  intros Ht Hv.
  assert (Hsplit : t ∖ v = {[n]} ∪ t ∖ ({[n]} ∪ v)).
  { apply set_eq. intros m.
    rewrite elem_of_union, !elem_of_difference, elem_of_union, elem_of_singleton.
    split.
    - intros [Hm Hv']. destruct (decide (m = n)); [by left|right]. naive_solver.
    - intros [->|[Hm Hv']]; [done|]. naive_solver. }
  rewrite Hsplit. rewrite size_union by set_solver. by rewrite size_singleton.
Qed.

Lemma visitNeighbors_measure p ns v q v' q' :
  (∀ n, n ∈ ns → n ∈ targets edges) →
  visitNeighbors p ns v q = (v', q') →
  bfsMeasure edges q' v' = bfsMeasure edges q v.
Proof.
  revert v q. induction ns as [|n ns IH]; intros v q Hns H; simpl in H.
  - by inversion H.
  - destruct (decide (n ∈ v)) as [Hin|Hnin].
    + apply IH in H; [done|]. intros m Hm. apply Hns. set_solver.
    + apply IH in H; [|intros m Hm; apply Hns; set_solver].
      rewrite H. unfold bfsMeasure. rewrite length_app. simpl.
      rewrite (size_difference_fresh n (targets edges) v); [lia| |done].
      apply Hns. set_solver.
Qed.

Lemma bfsIteration_measure q v q' v' :
  bfsIteration endId edges q v = Continue q' v' →
  S (bfsMeasure edges q' v') = bfsMeasure edges q v.
Proof.
  unfold bfsIteration. destruct q as [|cur rest]; [done|].
  destruct (decide (cur.1 = endId)); [done|].
  destruct (visitNeighbors _ _ _ _) as [v1 q1] eqn:Hvn. intros [= <- <-].
  apply visitNeighbors_measure in Hvn; [|apply neighborsOf_targets].
  rewrite Hvn. unfold bfsMeasure. simpl. lia.
Qed.

Lemma bfsLoop_terminates fuel q v :
  bfsMeasure edges q v < fuel → ∃ r, bfsLoop fuel endId edges q v = Some r.
Proof.
  revert q v. induction fuel as [|fuel IH]; intros q v Hlt; [lia|]. simpl.
  destruct (bfsIteration endId edges q v) as [r|q' v'] eqn:Hit; [eauto|].
  apply IH. apply bfsIteration_measure in Hit. lia.
Qed.

Lemma bfsLoop_fuel_mono fuel fuel' q v r :
  bfsLoop fuel endId edges q v = Some r → fuel ≤ fuel' →
  bfsLoop fuel' endId edges q v = Some r.
Proof.
  revert fuel' q v. induction fuel as [|fuel IH]; intros fuel' q v H Hle; [done|].
  destruct fuel' as [|fuel']; [lia|]. simpl in *.
  destruct (bfsIteration endId edges q v); [done|]. apply IH; [done|lia].
Qed.


Lemma isPathFrom_snoc a rest b c :
  isPathFrom edges a rest b → hasEdge edges b c → isPathFrom edges a (rest ++ [c]) c.
Proof.
  revert a. induction rest as [|x rest IH]; intros a H Hbc; simpl in *.
  - subst. done.
  - destruct H as [Hax H]. split; [done|]. by apply IH.
Qed.

Lemma isPath_snoc p b c :
  isPath edges startId p b → hasEdge edges b c → isPath edges startId (p ++ [c]) c.
Proof.
  intros (rest & -> & H) Hbc. exists (rest ++ [c]). split; [done|].
  by apply isPathFrom_snoc with b.
Qed.

Lemma isPathFrom_reach a rest b n :
  reach edges startId n a → isPathFrom edges a rest b →
  reach edges startId (n + length rest) b.
Proof.
  revert a n. induction rest as [|x rest IH]; intros a n Hr H; simpl in *.
  - subst. by rewrite Nat.add_0_r.
  - destruct H as [Hax H]. replace (n + S (length rest)) with (S n + length rest) by lia.
    apply IH with x; [|done]. by apply reach_S with a.
Qed.

Lemma isPath_reach p b :
  isPath edges startId p b → reach edges startId (edgeCount p) b.
Proof.
  intros (rest & -> & H). unfold edgeCount. simpl. rewrite Nat.sub_0_r.
  apply (isPathFrom_reach startId rest b 0); [constructor|done].
Qed.

Lemma processed_mono v v' y :
  v ⊆ v' → processed edges endId v y → processed edges endId v' y.
Proof. intros Hsub [Hne Hall]. split; [done|]. intros z Hz. apply Hsub. auto. Qed.

Lemma bfsInv_init : bfsInv edges startId endId 0 [(startId, [startId])] [] ∅.
Proof.
  split.
  - intros n p Hin. apply list_elem_of_singleton in Hin as [= -> ->].
    split; [|done]. exists []. done.
  - intros n p Hin. by apply elem_of_nil in Hin.
  - intros k y Hk. lia.
  - intros y Hr. inversion Hr; subst. right. simpl. set_solver.
  - intros y [Hy| ->]; [set_solver|]. right. simpl. set_solver.
Qed.

Lemma bfsInv_shift d B v :
  bfsInv edges startId endId d [] B v → bfsInv edges startId endId (S d) B [] v.
Proof.
  intros [HA HB Hbelow Hlevel Hseen]. split.
  - done.
  - intros n p Hin. by apply elem_of_nil in Hin.
  - intros k y Hk Hr. destruct (decide (k = d)) as [->|Hne].
    + destruct (Hlevel y Hr) as [Hp|Hin]; [done|]. by apply elem_of_nil in Hin.
    + apply Hbelow with k; [lia|done].
  - intros y Hr. inversion Hr as [|n a b Ha Hab]; subst.
    destruct (Hlevel a Ha) as [[_ Hp]|Hin]; [|by apply elem_of_nil in Hin].
    destruct (Hseen y) as [Hy|Hy]; [left; by apply Hp|by left|].
    right. by rewrite app_nil_l in Hy.
  - intros y Hy. rewrite app_nil_r. destruct (Hseen y Hy) as [?|Hin]; [by left|].
    right. by rewrite app_nil_l in Hin.
Qed.

Lemma bfsInv_step d cur A B v v' q' :
  bfsInv edges startId endId d (cur :: A) B v → cur.1 ≠ endId →
  visitNeighbors cur.2 (neighborsOf edges cur.1) v (A ++ B) = (v', q') →
  ∃ pushed, q' = A ++ (B ++ pushed) ∧ bfsInv edges startId endId d A (B ++ pushed) v'.
Proof.
  intros [HA HB Hbelow Hlevel Hseen] Hne Hvn.
  apply visitNeighbors_spec in Hvn as (pushed & -> & Hsub & Hall & Hnew & Hp & Hnd).
  exists pushed. split; [by rewrite app_assoc|].
  destruct cur as [c pc]. simpl in *.
  assert (Hc : processed edges endId v' c).
  { split; [done|]. intros z Hz. apply Hall. by apply elem_of_neighborsOf. }
  destruct (HA c pc) as [Hpc Hlen]; [set_solver|].
  split.
  - intros n p Hin. apply HA. set_solver.
  - intros n p Hin. apply elem_of_app in Hin as [Hin|Hin]; [by apply HB|].
    apply Hp in Hin as (Hn & _ & _ & ->). split.
    + apply isPath_snoc with c; [done|]. by apply elem_of_neighborsOf.
    + rewrite length_app. simpl. lia.
  - intros k y Hk Hr. apply processed_mono with v; [done|]. by apply Hbelow with k.
  - intros y Hr. destruct (Hlevel y Hr) as [Hy|Hy].
    + left. by apply processed_mono with v.
    + apply elem_of_cons in Hy as [->|Hy]; [by left|by right].
  - intros y Hy.
    assert (Hcase : (y ∈ v ∨ y = startId) ∨ y ∈ (pushed.*1)).
    { destruct Hy as [Hy|Hy]; [|by left; right].
      destruct (Hnew y Hy); [by left; left|by right]. }
    destruct Hcase as [Hold|Hpushed].
    + destruct (Hseen y Hold) as [Hpr|Hin].
      * left. by apply processed_mono with v.
      * simpl in Hin. apply elem_of_cons in Hin as [->|Hin]; [by left|].
        right. rewrite app_assoc, fmap_app. set_solver.
    + right. rewrite app_assoc, fmap_app. set_solver.
Qed.

Lemma bfsInv_closed d v :
  bfsInv edges startId endId d [] [] v → ∀ k y, reach edges startId k y → processed edges endId v y.
Proof.
  intros [_ _ _ _ Hseen] k y Hr.
  induction Hr as [|n a b Ha IH Hab].
  - destruct (Hseen startId) as [?|Hin]; [by right|done|]. by apply elem_of_nil in Hin.
  - destruct IH as [_ Hall]. destruct (Hseen b) as [?|Hin]; [left; by apply Hall|done|].
    by apply elem_of_nil in Hin.
Qed.

Lemma bfsLoop_correct fuel q v r :
  bfsLoop fuel endId edges q v = Some r →
  (∃ d A B, q = A ++ B ∧ bfsInv edges startId endId d A B v) →
  bfsPost edges startId endId r.
Proof.
  revert q v. induction fuel as [|fuel IH]; intros q v Hrun Hinv; [done|].
  simpl in Hrun. destruct q as [|cur rest].
  - simpl in Hrun. inversion Hrun; subst. simpl.
    destruct Hinv as (d & A & B & Hq & Hinv).
    symmetry in Hq. apply app_eq_nil in Hq as [-> ->].
    intros k Hr. apply (bfsInv_closed d v Hinv) in Hr as [Hne _]. done.
  - assert (∃ d A B, rest = A ++ B ∧ bfsInv edges startId endId d (cur :: A) B v) as (d & A & B & -> & Hinv').
    { destruct Hinv as (d & A & B & Hq & Hinv). destruct A as [|a A].
      - simpl in Hq. subst B. exists (S d), rest, []. rewrite app_nil_r.
        split; [done|]. by apply bfsInv_shift.
      - simpl in Hq. inversion Hq; subst. eauto. }
    clear Hinv. unfold bfsIteration in Hrun.
    destruct (decide (cur.1 = endId)) as [Heq|Hne].
    + inversion Hrun; subst r. simpl. destruct cur as [c pc]. simpl in *. subst c.
      destruct (inv_A _ _ _ _ _ _ _ Hinv' endId pc) as [Hpath Hlen]; [set_solver|].
      split; [done|]. intros k Hr. unfold edgeCount. rewrite Hlen.
      destruct (decide (k < d)) as [Hlt|Hge]; [|lia].
      destruct (inv_below _ _ _ _ _ _ _ Hinv' k endId Hlt Hr) as [Hbad _]. done.
    + destruct (visitNeighbors _ _ _ _) as [v1 q1] eqn:Hvn.
      destruct (bfsInv_step _ _ _ _ _ _ _ Hinv' Hne Hvn) as (pushed & -> & Hinv1).
      apply IH in Hrun; [done|]. eauto 6.
Qed.


(** Every id the loop pushes is new to the visited set and an edge target;
    no id is pushed twice. *)
Lemma enqueueLog_fresh fuel q v :
  NoDup (enqueueLog fuel endId edges q v)
  ∧ ∀ n, n ∈ enqueueLog fuel endId edges q v → n ∉ v ∧ n ∈ targets edges.
Proof.
  revert q v. induction fuel as [|fuel IH]; intros q v; simpl.
  { split; [constructor|]. intros n Hn. by apply elem_of_nil in Hn. }
  unfold bfsIteration. destruct q as [|cur rest].
  { split; [constructor|]. intros n Hn. by apply elem_of_nil in Hn. }
  destruct (decide (cur.1 = endId)) as [Hend|Hne].
  { split; [constructor|]. intros n Hn. by apply elem_of_nil in Hn. }
  destruct (visitNeighbors _ _ _ _) as [v1 q1] eqn:Hvn.
  apply visitNeighbors_spec in Hvn as (pushed & -> & Hsub & Hall & Hnew & Hp & Hnd).
  simpl. rewrite Nat.sub_0_r, drop_app_length.
  destruct (IH (rest ++ pushed) v1) as [IHnd IHin].
  assert (Hpushed : ∀ n, n ∈ (pushed.*1) → n ∉ v ∧ n ∈ v1 ∧ n ∈ targets edges).
  { intros n Hn. apply list_elem_of_fmap in Hn as ([m pm] & Heq & Hm).
    simpl in Heq. subst n.
    apply Hp in Hm as (Hm & ? & ? & _). split_and!; [done..|].
    by apply neighborsOf_targets in Hm. }
  split.
  - apply NoDup_app. split_and!; [done| |done].
    intros n Hn Hn'. apply Hpushed in Hn as (_ & Hn & _).
    apply IHin in Hn' as [Hn' _]. done.
  - intros n Hn. apply elem_of_app in Hn as [Hn|Hn].
    + apply Hpushed in Hn as (? & _ & ?). done.
    + apply IHin in Hn as [Hn ?]. split; [|done]. intros Hv. apply Hn. by apply Hsub.
Qed.

End GraphSearch.

Lemma occurrences_not_elem_of n l : n ∉ l → occurrences n l = 0.
Proof.
  unfold occurrences. induction l as [|a l IH]; intros Hn; [done|].
  rewrite filter_cons. destruct (decide (a = n)) as [->|Hne]; [set_solver|].
  apply IH. set_solver.
Qed.

Lemma occurrences_NoDup n l : NoDup l → occurrences n l ≤ 1.
Proof.
  induction 1 as [|a l Hnotin Hnd IH]; [unfold occurrences; simpl; lia|].
  unfold occurrences in *. rewrite filter_cons.
  destruct (decide (a = n)) as [->|Hne]; [|done].
  simpl. apply occurrences_not_elem_of in Hnotin. unfold occurrences in Hnotin. lia.
Qed.

Lemma incomingEdges_target edges n : n ∈ targets edges → 1 ≤ incomingEdges edges n.
Proof.
  unfold targets, incomingEdges. rewrite elem_of_list_to_set, list_elem_of_fmap.
  intros (e & -> & He).
  assert (Hin : e ∈ filter (λ e', to e' = to e) edges) by (by apply list_elem_of_filter).
  destruct (filter _ edges); [by apply elem_of_nil in Hin|simpl; lia].
Qed.

Example findPath_B1_B9 :
  findPath "B1" "B9" constants_EDGES = Some (Some ["B1"; "B2"; "B3"; "B6"; "B8"; "B9"]).
Proof. vm_compute. reflexivity. Qed.

Example findPath_B9_B1 : findPath "B9" "B1" constants_EDGES = Some None.
Proof. vm_compute. reflexivity. Qed.

(** On a cycle [a -> b -> a] with an exit [b -> c], the start is pushed
    once more and the search still ends. *)
Example findPath_cycle :
  findPath "a" "c" [mkEdge "a" "b" 0 0; mkEdge "b" "a" 0 0; mkEdge "b" "c" 0 0]
  = Some (Some ["a"; "b"; "c"])
  ∧ findPath_enqueued "a" "zz"
      [mkEdge "a" "b" 0 0; mkEdge "b" "a" 0 0; mkEdge "b" "c" 0 0]
    = ["b"; "a"; "c"].
Proof. split; vm_compute; reflexivity. Qed.

(** C1: [findPath] returns a path of the least edge count when a directed
    path from [startId] to [endId] exists, returns [null] exactly when none
    exists, and returns [[startId]] when the two ids are equal, whatever the
    edge list. *)
Theorem findPath_shortest (edges : list Edge) (startId endId : string) :
  (∀ p, findPath startId endId edges = Some (Some p) →
        isPath edges startId p endId
        ∧ ∀ p', isPath edges startId p' endId → edgeCount p ≤ edgeCount p')
  ∧ ((∃ p', isPath edges startId p' endId) →
     ∃ p, findPath startId endId edges = Some (Some p))
  ∧ (findPath startId endId edges = Some None ↔
     ¬ ∃ p', isPath edges startId p' endId)
  ∧ findPath startId startId edges = Some (Some [startId]).
Proof.
  assert (Hpost : ∀ r, findPath startId endId edges = Some r →
                       bfsPost edges startId endId r).
  { intros r. unfold findPath, findPath_fuel.
    destruct (decide (startId = endId)) as [->|Hne].
    - intros [= <-]. simpl. split; [by exists []|]. intros k _. unfold edgeCount. simpl. lia.
    - intros Hrun. apply (bfsLoop_correct edges startId endId) in Hrun; [done|].
      exists 0, [(startId, [startId])], []. split; [done|]. apply bfsInv_init. }
  assert (Hterm : ∃ r, findPath startId endId edges = Some r).
  { unfold findPath, findPath_fuel. destruct (decide (startId = endId)); [eauto|].
    apply bfsLoop_terminates. unfold bfsMeasure. simpl.
    pose proof (size_targets edges).
    assert (size (targets edges ∖ ∅) ≤ size (targets edges)) by (apply subseteq_size; set_solver).
    lia. }
  split_and!.
  - intros p Hp. apply Hpost in Hp as [Hpath Hmin]. split; [done|].
    intros p' Hp'. apply Hmin. by apply isPath_reach.
  - intros [p' Hp']. destruct Hterm as [[p|] Hr]; [eauto|].
    apply Hpost in Hr. simpl in Hr. apply isPath_reach in Hp'. by apply Hr in Hp'.
  - split.
    + intros Hr [p' Hp']. apply Hpost in Hr. simpl in Hr.
      apply isPath_reach in Hp'. by apply Hr in Hp'.
    + intros Hno. destruct Hterm as [[p|] Hr]; [|done].
      apply Hpost in Hr as [Hpath _]. destruct Hno. eauto.
  - unfold findPath, findPath_fuel. by rewrite decide_True.
Qed.

(** C9: [findPath] terminates on every edge list and every pair of ids: the
    loop leaves within [length edges + 2] iterations, more fuel never changes
    the result, no id is pushed on the queue twice, and the start id is pushed
    again at most once per edge that enters it. *)
Theorem findPath_terminates (edges : list Edge) (startId endId : string) :
  (∃ r, findPath startId endId edges = Some r)
  ∧ (∀ fuel r, findPath_fuel fuel startId endId edges = Some r →
               findPath startId endId edges = Some r)
  ∧ (∀ n, n ≠ startId → occurrences n (findPath_enqueued startId endId edges) ≤ 1)
  ∧ occurrences startId (findPath_enqueued startId endId edges)
      ≤ incomingEdges edges startId
  ∧ length (findPath_enqueued startId endId edges) ≤ length edges.
Proof.
  assert (Hterm : ∃ r, findPath startId endId edges = Some r).
  { unfold findPath, findPath_fuel. destruct (decide (startId = endId)); [eauto|].
    apply bfsLoop_terminates. unfold bfsMeasure. simpl.
    pose proof (size_targets edges).
    assert (size (targets edges ∖ ∅) ≤ size (targets edges)) by (apply subseteq_size; set_solver).
    lia. }
  assert (Hlog : NoDup (findPath_enqueued startId endId edges)
                 ∧ ∀ n, n ∈ findPath_enqueued startId endId edges → n ∈ targets edges).
  { unfold findPath_enqueued. destruct (decide (startId = endId)) as [Heq|Hne].
    - split; [constructor|]. intros n Hn. by apply elem_of_nil in Hn.
    - destruct (enqueueLog_fresh edges endId (length edges + 2) [(startId, [startId])] ∅)
        as [Hnd Hin].
      split; [done|]. intros n Hn. by apply Hin in Hn as [_ Hn]. }
  destruct Hlog as [Hnd Hin]. split_and!.
  - done.
  - intros fuel r Hrun. destruct Hterm as [r' Hr']. rewrite Hr'. f_equal.
    unfold findPath, findPath_fuel in *.
    destruct (decide (startId = endId)) as [Heq|Hne]; [congruence|].
    destruct (decide (fuel ≤ length edges + 2)) as [Hle|Hgt].
    + apply (bfsLoop_fuel_mono edges endId _ _ _ _ _ Hrun) in Hle. congruence.
    + assert (Hle : length edges + 2 ≤ fuel) by lia.
      apply (bfsLoop_fuel_mono edges endId _ _ _ _ _ Hr') in Hle. congruence.
  - intros n _. by apply occurrences_NoDup.
  - destruct (decide (startId ∈ findPath_enqueued startId endId edges)) as [Hs|Hs].
    + apply Hin, incomingEdges_target in Hs.
      pose proof (occurrences_NoDup startId _ Hnd). lia.
    + rewrite occurrences_not_elem_of by done. lia.
  - etrans; [|apply size_targets].
    rewrite <- (size_list_to_set (C := gset string)) by done.
    apply subseteq_size. intros n Hn. apply elem_of_list_to_set in Hn. by apply Hin.
Qed.
(** ** Geometry *)

(** C8: [getQuadraticBezierPoint] is the quadratic Bezier curve
    [(1-t)^2 p0 + 2(1-t)t p1 + t^2 p2] in each coordinate; at [t = 0] it is
    [p0] and at [t = 1] it is [p2]. *)
Theorem getQuadraticBezierPoint_bezier (t : Q) (p0 p1 p2 : Point) :
  (Point_x (getQuadraticBezierPoint t p0 p1 p2)
   == bezier t (Point_x p0) (Point_x p1) (Point_x p2))%Q
  ∧ (Point_y (getQuadraticBezierPoint t p0 p1 p2)
     == bezier t (Point_y p0) (Point_y p1) (Point_y p2))%Q
  ∧ (∀ t0, (t0 == 0)%Q → Point_eq (getQuadraticBezierPoint t0 p0 p1 p2) p0)
  ∧ (∀ t1, (t1 == 1)%Q → Point_eq (getQuadraticBezierPoint t1 p0 p1 p2) p2).
Proof.
  unfold getQuadraticBezierPoint, bezier, Point_eq. simpl. split_and!.
  - ring.
  - ring.
  - intros t0 H0. split; rewrite H0; ring.
  - intros t1 H1. split; rewrite H1; ring.
Qed.
(** ** Dispatch schedule *)

Lemma spawnCount_empty rid : spawnCount rid ∅ = 0.
Proof. unfold spawnCount. by rewrite map_fold_empty. Qed.

Lemma spawnCount_insert_fresh rid t l (s : gmap Z (list Z)) :
  s !! t = None →
  spawnCount rid (<[t:=l]> s) = length (filter (λ r, r = rid) l) + spawnCount rid s.
Proof.
  intros Hnone. unfold spawnCount.
  rewrite map_fold_insert_L; [done| |done]. intros. lia.
Qed.


Lemma busesToSchedule_not_PosInf totalCycles route :
  busesToSchedule totalCycles route ≠ PosInf.
Proof.
  unfold busesToSchedule, Math_min. by destruct (Math_floor_div _ _).
Qed.

Lemma loopTrips_busesToSchedule totalCycles route :
  frequency_minutes route ≠ 0%Z →
  Z.of_nat (loopTrips (busesToSchedule totalCycles route))
  = Z.max 0 (Z.min (buses_allocated route) (totalCycles / frequency_minutes route)).
Proof.
  intros Hf. unfold busesToSchedule, Math_floor_div.
  destruct (Z.eqb_spec (frequency_minutes route) 0); [done|]. simpl. lia.
Qed.

(** [Math.floor(Math.random() * w)] is one of [0 .. w - 1]. *)
Lemma random_offset_range (r : Q) (w : Z) :
  (0 <= r)%Q → (r < 1)%Q → (0 < w)%Z →
  (0 <= Qfloor (r * inject_Z w) < w)%Z.
Proof.
  intros H0 H1 Hw.
  assert (Hw' : (0 < inject_Z w)%Q).
  { change (inject_Z 0 < inject_Z w)%Q. by rewrite <- Zlt_Qlt. }
  split.
  - change 0%Z with (Qfloor 0). apply Qfloor_resp_le. nra.
  - rewrite Zlt_Qlt. eapply Qle_lt_trans; [apply Qfloor_le|]. nra.
Qed.

Section Scheduler.
Context (random : nat → Q) (totalCycles : Z).

Lemma scheduleWindow_closed route i st :
  windowOpen totalCycles (frequency_minutes route) i = false →
  scheduleWindow random totalCycles route i st = st.
Proof. unfold windowOpen, scheduleWindow. by intros ->. Qed.





Lemma scheduleWindows_closed route trips i st :
  (∀ j, (i <= j)%Z → windowOpen totalCycles (frequency_minutes route) j = false) →
  scheduleWindows random totalCycles route trips i st = st.
Proof.
  revert i st. induction trips as [|trips IH]; intros i st Hclosed; [done|].
  simpl. rewrite scheduleWindow_closed by (apply Hclosed; lia).
  apply IH. intros j Hj. apply Hclosed. lia.
Qed.




Lemma scheduleRoute_degenerate route st :
  frequency_minutes route = 0%Z ∨ (totalCycles < frequency_minutes route)%Z →
  scheduleRoute random totalCycles st route = st.
Proof.
  intros Hdeg. unfold scheduleRoute.
  destruct (decide (0 < frequency_minutes route)%Z) as [Hpos|Hneg].
  - assert (Hlt : (totalCycles < frequency_minutes route)%Z) by lia.
    assert (Htrips : loopTrips (busesToSchedule totalCycles route) = 0).
    { apply Nat2Z.inj. rewrite loopTrips_busesToSchedule by lia.
      assert (totalCycles / frequency_minutes route <= 0)%Z; [|lia].
      destruct (decide (0 <= totalCycles)%Z).
      - rewrite Z.div_small by lia. lia.
      - apply Z.div_le_upper_bound; lia. }
    by rewrite Htrips.
  - apply scheduleWindows_closed. intros j _. unfold windowOpen.
    rewrite Z.gtb_ltb. apply Z.ltb_ge.
    assert (((j + 1) * frequency_minutes route
             = j * frequency_minutes route + frequency_minutes route)%Z) by ring.
    lia.
Qed.

End Scheduler.

(** Allocation 3, frequency 10, horizon 25: two windows, so two spawns, one
    in [[0, 10)] and one in [[10, 20)]. *)
Example generateDispatchSchedule_example :
  generateDispatchSchedule (λ _, 1 # 2)%Q 25 [mkRouteAnalytics 1 3 10]
  = {[ 5%Z := [1%Z]; 15%Z := [1%Z] ]}
  ∧ busesToSchedule 25 (mkRouteAnalytics 1 3 10) = Fin 2
  ∧ busesToSchedule (-5) (mkRouteAnalytics 1 3 10) = Fin (-1)
  ∧ busesToSchedule 0 (mkRouteAnalytics 1 3 0) = NaN
  ∧ busesToSchedule 25 (mkRouteAnalytics 1 3 0) = Fin 3.
Proof. split_and!; reflexivity. Qed.

(** C10: a route entry whose frequency is [0] or exceeds the horizon
    contributes nothing: the schedule is the one built without the entry, and
    no [Math.random] draw is taken for it. The loop bound is never
    [+Infinity], and with frequency [0] the guard [maxTime > minTime] is
    false for every window. *)
Theorem generateDispatchSchedule_degenerate (random : nat → Q) (totalCycles : Z)
    (route : RouteAnalytics) :
  frequency_minutes route = 0%Z ∨ (totalCycles < frequency_minutes route)%Z →
  busesToSchedule totalCycles route ≠ PosInf
  ∧ (∀ st, scheduleRoute random totalCycles st route = st)
  ∧ (∀ before after,
       generateDispatchSchedule random totalCycles (before ++ route :: after)
       = generateDispatchSchedule random totalCycles (before ++ after))
  ∧ spawnCount (route_id route) (generateDispatchSchedule random totalCycles [route]) = 0
  ∧ (frequency_minutes route = 0%Z →
     ∀ i, windowOpen totalCycles (frequency_minutes route) i = false).
Proof.
  intros Hdeg. split_and!.
  - apply busesToSchedule_not_PosInf.
  - intros st. by apply scheduleRoute_degenerate.
  - intros before after. unfold generateDispatchSchedule.
    rewrite !foldl_app. simpl. by rewrite scheduleRoute_degenerate.
  - unfold generateDispatchSchedule. simpl.
    rewrite scheduleRoute_degenerate by done. apply spawnCount_empty.
  - intros Hzero i. unfold windowOpen. rewrite Hzero.
    rewrite Z.gtb_ltb. apply Z.ltb_ge. lia.
Qed.

Lemma generateDispatchSchedule_degenerate_witness :
  generateDispatchSchedule (λ _, 1 # 2)%Q 25
    ([mkRouteAnalytics 1 3 10] ++ mkRouteAnalytics 2 4 0 :: [mkRouteAnalytics 3 1 30])
  = generateDispatchSchedule (λ _, 1 # 2)%Q 25
      ([mkRouteAnalytics 1 3 10] ++ [mkRouteAnalytics 3 1 30]).
Proof.
  assert (Hdeg : frequency_minutes (mkRouteAnalytics 2 4 0) = 0%Z
                 ∨ (25 < frequency_minutes (mkRouteAnalytics 2 4 0))%Z).
  { left. reflexivity. }
  exact (proj1 (proj2 (proj2 (generateDispatchSchedule_degenerate (λ _, 1 # 2)%Q 25
                  (mkRouteAnalytics 2 4 0) Hdeg)))
           [mkRouteAnalytics 1 3 10] [mkRouteAnalytics 3 1 30]).
Defined.
(** ** The animation step *)

Lemma updateBus_logical M net w1 w2 time b1 b2 :
  logical b1 = logical b2 →
  match updateBus M net w1 time b1, updateBus M net w2 time b2 with
  | Some (b1', f1), Some (b2', f2) => logical b1' = logical b2' ∧ f1 = f2
  | None, None => True
  | _, _ => False
  end.
Proof.
  destruct b1, b2. unfold logical, set_position, set_visual. simpl.
  intros [= -> -> -> -> -> -> -> ->].
  unfold updateBus. simpl.
  repeat case_match; simplify_eq; simpl; try done.
Qed.

Lemma fmap_logical_cons_inv b1 b2 (l1 l2 : list SimulatedBus) :
  logical b1 :: (logical <$> l1) = logical b2 :: (logical <$> l2) →
  logical b1 = logical b2 ∧ logical <$> l1 = logical <$> l2.
Proof.
  intros H. split.
  - apply (inj Some). exact (f_equal head H).
  - exact (f_equal tail H).
Qed.

Lemma logical_state bus : state (logical bus) = state bus.
Proof. done. Qed.

Lemma logical_routeId bus : routeId (logical bus) = routeId bus.
Proof. done. Qed.

Lemma filter_notFinished_logical (l1 l2 : list SimulatedBus) :
  logical <$> l1 = logical <$> l2 →
  logical <$> filter notFinished l1 = logical <$> filter notFinished l2.
Proof.
  revert l2. induction l1 as [|b1 l1 IH]; intros [|b2 l2] H; simpl in H; try done.
  apply fmap_logical_cons_inv in H as [Hb Hl].
  rewrite !filter_cons.
  assert (Hst : state b1 = state b2).
  { rewrite <- (logical_state b1), <- (logical_state b2). by rewrite Hb. }
  specialize (IH l2 Hl).
  destruct (decide (notFinished b1)) as [H1|H1], (decide (notFinished b2)) as [H2|H2];
    unfold notFinished in H1, H2; simpl.
  - f_equal; [done|]. exact IH.
  - exfalso. apply H2. by rewrite <- Hst.
  - exfalso. apply H1. by rewrite Hst.
  - done.
Qed.

Lemma fmap_routeId_logical (l1 l2 : list SimulatedBus) :
  logical <$> l1 = logical <$> l2 → routeId <$> l1 = routeId <$> l2.
Proof.
  intros H. change routeId with (routeId ∘ logical).
  rewrite !list_fmap_compose. by rewrite H.
Qed.

Lemma updateFleet_logical M net w1 w2 time l1 l2 :
  logical <$> l1 = logical <$> l2 →
  match updateFleet M net w1 time l1, updateFleet M net w2 time l2 with
  | Some (u1, f1), Some (u2, f2) => logical <$> u1 = logical <$> u2 ∧ f1 = f2
  | None, None => True
  | _, _ => False
  end.
Proof.
  revert l2. induction l1 as [|b1 l1 IH]; intros [|b2 l2] H; simpl in H; try done.
  apply fmap_logical_cons_inv in H as [Hb Hl]. simpl.
  pose proof (updateBus_logical M net w1 w2 time b1 b2 Hb) as Hbus.
  specialize (IH l2 Hl).
  destruct (updateBus M net w1 time b1) as [[b1' f1]|],
           (updateBus M net w2 time b2) as [[b2' f2]|]; try done.
  destruct (updateFleet M net w1 time l1) as [[u1 g1]|],
           (updateFleet M net w2 time l2) as [[u2 g2]|]; try done.
  destruct Hbus as [Hb' ->], IH as [Hu ->]. split; [|done].
  rewrite !fmap_cons. by rewrite Hb', Hu.
Qed.

Lemma handleMultiBusAnimation_lane_logical M net w1 w2 routes time st1 st2 :
  logical <$> busesRef st1 = logical <$> busesRef st2 →
  completedCountsRef st1 = completedCountsRef st2 →
  match handleMultiBusAnimation_lane M net w1 routes time st1,
        handleMultiBusAnimation_lane M net w2 routes time st2 with
  | Some (s1, out1), Some (s2, out2) =>
      logical <$> busesRef s1 = logical <$> busesRef s2
      ∧ completedCountsRef s1 = completedCountsRef s2 ∧ out1 = out2
  | None, None => True
  | _, _ => False
  end.
Proof.
  intros Hfleet Hcounts. unfold handleMultiBusAnimation_lane.
  pose proof (updateFleet_logical M net w1 w2 time _ _
                (filter_notFinished_logical _ _ Hfleet)) as Hup.
  destruct (updateFleet M net w1 time _) as [[u1 f1]|],
           (updateFleet M net w2 time _) as [[u2 f2]|]; try done.
  destruct Hup as [Hu ->]. simpl. rewrite Hcounts.
  pose proof (filter_notFinished_logical _ _ Hu) as Hrem.
  split_and!; [done..|]. unfold telemetry.
  by rewrite (fmap_routeId_logical _ _ Hrem).
Qed.

Lemma step_lane_logical W w1 w2 st1 st2 ev :
  logical <$> busesRef st1 = logical <$> busesRef st2 →
  completedCountsRef st1 = completedCountsRef st2 →
  match step_lane W w1 st1 ev, step_lane W w2 st2 ev with
  | Some (s1, out1), Some (s2, out2) =>
      logical <$> busesRef s1 = logical <$> busesRef s2
      ∧ completedCountsRef s1 = completedCountsRef s2 ∧ out1 = out2
  | None, None => True
  | _, _ => False
  end.
Proof.
  intros Hfleet Hcounts. destruct ev as [simulationTime clock random|time]; simpl.
  - unfold spawner. destruct (world_schedule W !! simulationTime) as [[|rid rest]|]; [done| |done].
    destruct (spawnAll _ _ _ _ _ _) as [[|new newBuses]|]; [done| |done].
    simpl. rewrite !fmap_app, Hfleet. done.
  - unfold animate_lane.
    pose proof (handleMultiBusAnimation_lane_logical (world_math W) (world_net W) w1 w2
                  (world_routesAnalytics W) time st1 st2 Hfleet Hcounts) as Hframe.
    destruct (busesRef st1) as [|b1 l1] eqn:H1, (busesRef st2) as [|b2 l2] eqn:H2;
      try done.
    { simpl. by rewrite H1, H2. }
    destruct (handleMultiBusAnimation_lane _ _ w1 _ _ st1) as [[s1 o1]|],
             (handleMultiBusAnimation_lane _ _ w2 _ _ st2) as [[s2 o2]|]; try done.
    destruct Hframe as (? & ? & ->). done.
Qed.

Lemma run_lane_logical W w1 w2 events st1 st2 :
  logical <$> busesRef st1 = logical <$> busesRef st2 →
  completedCountsRef st1 = completedCountsRef st2 →
  match run_lane W w1 events st1, run_lane W w2 events st2 with
  | Some (s1, outs1), Some (s2, outs2) =>
      logical <$> busesRef s1 = logical <$> busesRef s2
      ∧ completedCountsRef s1 = completedCountsRef s2 ∧ outs1 = outs2
  | None, None => True
  | _, _ => False
  end.
Proof.
  revert st1 st2. induction events as [|ev events IH]; intros st1 st2 Hfleet Hcounts; simpl.
  { done. }
  pose proof (step_lane_logical W w1 w2 st1 st2 ev Hfleet Hcounts) as Hstep.
  destruct (step_lane W w1 st1 ev) as [[s1 o1]|],
           (step_lane W w2 st2 ev) as [[s2 o2]|]; try done.
  destruct Hstep as (Hf & Hc & ->). specialize (IH s1 s2 Hf Hc).
  destruct (run_lane W w1 events s1) as [[s1' outs1]|],
           (run_lane W w2 events s2) as [[s2' outs2]|]; try done.
  destruct IH as (? & ? & ->). done.
Qed.

Lemma logical_fields (l1 l2 : list SimulatedBus) :
  logical <$> l1 = logical <$> l2 →
  Forall2 (λ b1 b2, state b1 = state b2
                    ∧ currentSegment b1 = currentSegment b2
                    ∧ lastStateChangeTime b1 = lastStateChangeTime b2
                    ∧ routeId b1 = routeId b2
                    ∧ path b1 = path b2
                    ∧ rotation b1 = rotation b2) l1 l2.
Proof.
  revert l2. induction l1 as [|b1 l1 IH]; intros [|b2 l2] H; simpl in H;
    try discriminate; [constructor|].
  apply fmap_logical_cons_inv in H as [Hb Hl]. constructor; [|by apply IH].
  destruct b1, b2. unfold logical, set_position, set_visual in Hb. simpl in *.
  injection Hb as -> -> -> -> -> -> -> ->. done.
Qed.

(** C7: the lane offset changes the rendered position only. Whatever the
    events of a run, the fleet with the lane width of the source and the fleet
    with lane width [0] agree on every bus up to [bus_x] and [bus_y] (so on
    state, segment index and time of the last state change), on the completed
    counts, on the telemetry of every frame, and on whether a frame throws. *)
Theorem lane_offset_is_cosmetic (W : World) (events : list Event) (st : SimState) :
  match run W events st, run_lane W 0 events st with
  | Some (s, outs), Some (s0, outs0) =>
      logical <$> busesRef s = logical <$> busesRef s0
      ∧ Forall2 (λ b b0, state b = state b0
                         ∧ currentSegment b = currentSegment b0
                         ∧ lastStateChangeTime b = lastStateChangeTime b0
                         ∧ routeId b = routeId b0
                         ∧ path b = path b0
                         ∧ rotation b = rotation b0) (busesRef s) (busesRef s0)
      ∧ completedCountsRef s = completedCountsRef s0
      ∧ outs = outs0
  | None, None => True
  | _, _ => False
  end.
Proof.
  unfold run.
  pose proof (run_lane_logical W laneWidth 0 events st st eq_refl eq_refl) as H.
  destruct (run_lane W laneWidth events st) as [[s outs]|],
           (run_lane W 0 events st) as [[s0 outs0]|]; try done.
  destruct H as (Hf & Hc & Ho). split_and!; [done| |done..].
  by apply logical_fields.
Qed.
(** ** Frames that do not throw *)

Lemma findEdge_Some edges a b e :
  findEdge edges a b = Some e → e ∈ edges ∧ from e = a ∧ to e = b.
Proof.
  unfold findEdge. intros H. apply find_some in H as [Hin Hb].
  apply andb_prop in Hb as [Ha Hb].
  apply bool_decide_eq_true in Ha. apply bool_decide_eq_true in Hb.
  split; [by apply list_elem_of_In|done].
Qed.

Lemma updateBus_total M net w time bus :
  wellFormed net → ∃ r, updateBus M net w time bus = Some r.
Proof.
  intros [Hedges _]. unfold updateBus.
  destruct (state bus).
  - destruct (_ >=? _)%Z; [eauto|].
    destruct (path bus !! currentSegment bus) as [fromId|]; [|eauto].
    destruct (path bus !! (currentSegment bus + 1)) as [toId|]; [|eauto].
    destruct (findEdge (EDGES net) fromId toId) as [e|] eqn:He; [|eauto].
    apply findEdge_Some in He as (Hin & <- & <-).
    destruct (Hedges e Hin) as [[fromNode ->] [toNode ->]].
    destruct (Qgeb _ _); eauto.
  - destruct (Qgtb _ _); [destruct (decide _)|]; eauto.
  - destruct (Qgtb _ _); [destruct (decide _)|]; eauto.
  - destruct (_ >=? _)%Z; [eauto|].
    destruct (path bus !! currentSegment bus) as [fromId|]; [|eauto].
    destruct (path bus !! (currentSegment bus + 1)) as [toId|]; [|eauto].
    destruct (findEdge (EDGES net) fromId toId) as [e|] eqn:He; [|eauto].
    apply findEdge_Some in He as (Hin & <- & <-).
    destruct (Hedges e Hin) as [[fromNode ->] [toNode ->]].
    destruct (Qgeb _ _); eauto.
Qed.

Lemma updateFleet_total M net w time l :
  wellFormed net → ∃ r, updateFleet M net w time l = Some r.
Proof.
  intros Hwf. induction l as [|bus l [[u f] IH]]; simpl; [eauto|].
  destruct (updateBus_total M net w time bus Hwf) as [[bus' f1] ->].
  rewrite IH. eauto.
Qed.

Lemma spawnAll_total net simulationTime clock random k l :
  wellFormed net → ∃ newBuses, spawnAll net simulationTime clock random k l = Some newBuses.
Proof.
  intros [_ Hroutes]. revert k. induction l as [|rid l IH]; intros k; simpl; [eauto|].
  assert (Hbus : ∃ new, spawnBus net simulationTime (clock k) (random k) rid = Some new).
  { unfold spawnBus.
    destruct (List.find _ (ROUTES net)) as [staticRoute|] eqn:Hfind; [|eauto].
    apply find_some in Hfind as [Hin _]. apply list_elem_of_In in Hin.
    destruct (Route_path staticRoute) as [|first rest] eqn:Hpath; [eauto|].
    destruct (Hroutes staticRoute first rest Hin Hpath) as [startNode ->]. eauto. }
  destruct Hbus as [new ->]. destruct (IH (S k)) as [newBuses ->]. eauto.
Qed.

Lemma step_lane_total W w st ev :
  wellFormed (world_net W) → ∃ r, step_lane W w st ev = Some r.
Proof.
  intros Hwf. destruct ev as [simulationTime clock random|time]; simpl.
  - unfold spawner. destruct (world_schedule W !! simulationTime) as [[|rid rest]|]; [eauto| |eauto].
    destruct (spawnAll_total (world_net W) simulationTime clock random 0 (rid :: rest) Hwf)
      as [newBuses ->].
    destruct newBuses; eauto.
  - unfold animate_lane, handleMultiBusAnimation_lane.
    destruct (busesRef st) as [|bus l]; [eauto|].
    destruct (updateFleet_total (world_math W) (world_net W) w time
                (filter notFinished (bus :: l)) Hwf) as [[u f] ->]. eauto.
Qed.

Lemma run_lane_total W w events st :
  wellFormed (world_net W) → ∃ r, run_lane W w events st = Some r.
Proof.
  intros Hwf. revert st. induction events as [|ev events IH]; intros st; simpl; [eauto|].
  destruct (step_lane_total W w st ev Hwf) as [[st1 out] ->].
  destruct (IH st1) as [[st2 outs] ->]. eauto.
Qed.

Lemma constants_wellFormed : wellFormed constants.
Proof.
  split.
  - intros e He. simpl in He. unfold constants_EDGES in He.
    repeat (apply elem_of_cons in He as [->|He]; [split; by eexists|]).
    by apply elem_of_nil in He.
  - intros route first rest Hin Hpath. simpl in Hin. unfold constants_ROUTES in Hin.
    repeat (apply elem_of_cons in Hin as [->|Hin];
            [simpl in Hpath; injection Hpath as <- _; by eexists|]).
    by apply elem_of_nil in Hin.
Qed.
(** ** Completed counts and telemetry *)

Lemma countOf_increment counts r' r :
  countOf (increment counts r') r
  = countOf counts r + (if decide (r' = r) then 1 else 0).
Proof.
  unfold countOf, increment. destruct (decide (r' = r)) as [->|Hne].
  - by rewrite lookup_insert_eq.
  - rewrite lookup_insert_ne by done. lia.
Qed.

Lemma countOf_foldl_increment l counts r :
  countOf (foldl increment counts l) r = countOf counts r + occurrencesZ r l.
Proof.
  revert counts. induction l as [|a l IH]; intros counts; simpl.
  - unfold occurrencesZ. simpl. lia.
  - rewrite IH, countOf_increment. unfold occurrencesZ. rewrite filter_cons.
    destruct (decide (a = r)); simpl; lia.
Qed.

Lemma occurrencesZ_app r l1 l2 :
  occurrencesZ r (l1 ++ l2) = occurrencesZ r l1 + occurrencesZ r l2.
Proof. unfold occurrencesZ. by rewrite filter_app, length_app. Qed.

Lemma activeOf_app r (l1 l2 : list SimulatedBus) :
  activeOf r (l1 ++ l2) = activeOf r l1 + activeOf r l2.
Proof. unfold activeOf. by rewrite filter_app, length_app. Qed.

Lemma activeOf_cons r bus (l : list SimulatedBus) :
  activeOf r (bus :: l) = (if decide (routeId bus = r) then 1 else 0) + activeOf r l.
Proof. unfold activeOf. rewrite filter_cons. by destruct (decide _). Qed.

Lemma occurrencesZ_routeId r (l : list SimulatedBus) :
  occurrencesZ r (routeId <$> l) = activeOf r l.
Proof.
  induction l as [|bus l IH]; [done|].
  rewrite fmap_cons, activeOf_cons, <- IH. unfold occurrencesZ. rewrite filter_cons.
  by destruct (decide _).
Qed.

(** A bus that was not finished is finished after its update exactly when
    the update pushes its route id, once. *)
Lemma updateBus_finished M net w time bus bus' f :
  notFinished bus → updateBus M net w time bus = Some (bus', f) →
  routeId bus' = routeId bus
  ∧ ((state bus' = FINISHED ∧ f = [routeId bus]) ∨ (notFinished bus' ∧ f = [])).
Proof.
  unfold notFinished, updateBus. intros Hnf H.
  repeat case_match; simplify_eq/=; split; try done; try (by left); try (by right);
    right; split; try done; congruence.
Qed.

Lemma updateFleet_conservation M net w time l u f r :
  Forall notFinished l → updateFleet M net w time l = Some (u, f) →
  occurrencesZ r f + activeOf r (filter notFinished u) = activeOf r l.
Proof.
  revert u f. induction l as [|bus l IH]; intros u f Hall H; simpl in H.
  { by simplify_eq. }
  apply Forall_cons in Hall as [Hbus Hall].
  destruct (updateBus M net w time bus) as [[bus' f1]|] eqn:Hup; [|done].
  destruct (updateFleet M net w time l) as [[u' f2]|] eqn:Hfl; [|done].
  simplify_eq. specialize (IH _ _ Hall eq_refl).
  apply updateBus_finished in Hup as [Hrid Hcase]; [|done].
  rewrite occurrencesZ_app, filter_cons, activeOf_cons, <- Hrid.
  destruct Hcase as [[Hfin ->]|[Hnf ->]].
  - rewrite decide_False by (unfold notFinished; rewrite Hfin; auto).
    unfold occurrencesZ at 1. rewrite filter_cons, Hrid.
    destruct (decide (routeId bus = r)); simpl; lia.
  - rewrite decide_True by done. rewrite activeOf_cons.
    change (occurrencesZ r []) with 0. lia.
Qed.

Lemma Forall_filter_notFinished (l : list SimulatedBus) :
  Forall notFinished (filter notFinished l).
Proof. apply Forall_forall. intros bus Hin. by apply list_elem_of_filter in Hin as [? _]. Qed.

Lemma filter_notFinished_id (l : list SimulatedBus) :
  Forall notFinished l → filter notFinished l = l.
Proof.
  induction 1 as [|bus l Hbus Hall IH]; [done|].
  rewrite filter_cons, decide_True by done. by rewrite IH.
Qed.

Lemma handleMultiBusAnimation_lane_counts M net w routes time st st' stats :
  handleMultiBusAnimation_lane M net w routes time st = Some (st', stats) →
  Forall notFinished (busesRef st')
  ∧ ∀ r, countOf (completedCountsRef st') r + activeOf r (busesRef st')
         = countOf (completedCountsRef st) r
           + activeOf r (filter notFinished (busesRef st)).
Proof.
  unfold handleMultiBusAnimation_lane.
  destruct (updateFleet _ _ _ _ _) as [[u f]|] eqn:Hup; [|done].
  intros [= <- _]. simpl. split; [apply Forall_filter_notFinished|].
  intros r. rewrite countOf_foldl_increment.
  rewrite <- (updateFleet_conservation _ _ _ _ _ _ _ r (Forall_filter_notFinished _) Hup).
  lia.
Qed.

Lemma telemetry_lookup routes remaining counts ra :
  ra ∈ routes →
  telemetry routes remaining counts !! route_id ra
  = Some {| active := activeOf (route_id ra) remaining;
            completed := countOf counts (route_id ra) |}.
Proof.
  unfold telemetry. rewrite <- (occurrencesZ_routeId (route_id ra) remaining).
  replace (occurrencesZ (route_id ra) (routeId <$> remaining))
    with (countOf (foldl increment ∅ (routeId <$> remaining)) (route_id ra))
    by (rewrite countOf_foldl_increment; unfold countOf; by rewrite lookup_empty).
  generalize (foldl increment ∅ (routeId <$> remaining)). intros activeCounts.
  induction routes as [|r routes IH] using rev_ind; intros Hin.
  { by apply elem_of_nil in Hin. }
  rewrite foldl_app. simpl.
  destruct (decide (route_id r = route_id ra)) as [Heq|Hne].
  - by rewrite Heq, lookup_insert_eq.
  - rewrite lookup_insert_ne by done. apply IH.
    apply elem_of_app in Hin as [Hin|Hin]; [done|].
    apply list_elem_of_singleton in Hin. congruence.
Qed.

Lemma spawnBus_notFinished net simulationTime now random rid new :
  spawnBus net simulationTime now random rid = Some new → Forall notFinished new.
Proof.
  unfold spawnBus. intros H.
  repeat case_match; simplify_eq; try apply Forall_nil_2;
    apply Forall_singleton; by unfold notFinished.
Qed.

Lemma spawnAll_notFinished net simulationTime clock random k l newBuses :
  spawnAll net simulationTime clock random k l = Some newBuses →
  Forall notFinished newBuses.
Proof.
  revert k newBuses. induction l as [|rid l IH]; intros k newBuses H; simpl in H.
  { simplify_eq. constructor. }
  destruct (spawnBus _ _ _ _ _) as [new|] eqn:Hnew; [|done].
  destruct (spawnAll _ _ _ _ _ _) as [rest|] eqn:Hrest; [|done].
  simplify_eq. apply Forall_app. split; [by eapply spawnBus_notFinished|by eapply IH].
Qed.

Lemma spawner_spec W simulationTime clock random st st' :
  spawner (world_net W) (world_schedule W) simulationTime clock random st = Some st' →
  busesRef st' = busesRef st ++ spawnedBy W (SpawnerRuns simulationTime clock random)
  ∧ completedCountsRef st' = completedCountsRef st
  ∧ Forall notFinished (spawnedBy W (SpawnerRuns simulationTime clock random)).
Proof.
  unfold spawner, spawnedBy.
  destruct (world_schedule W !! simulationTime) as [[|rid rest]|] eqn:Hs.
  - intros [= <-]. simpl. rewrite app_nil_r. split_and!; [done..|constructor].
  - destruct (spawnAll _ _ _ _ _ _) as [[|new newBuses]|] eqn:Hall; [| |done].
    + intros [= <-]. simpl. rewrite app_nil_r. split_and!; [done..|constructor].
    + intros [= <-]. simpl. split_and!; [done..|]. by eapply spawnAll_notFinished.
  - intros [= <-]. rewrite app_nil_r. split_and!; [done..|constructor].
Qed.

Lemma step_lane_counts W w st ev st' out :
  Forall notFinished (busesRef st) →
  step_lane W w st ev = Some (st', out) →
  Forall notFinished (busesRef st')
  ∧ ∀ r, countOf (completedCountsRef st') r + activeOf r (busesRef st')
         = countOf (completedCountsRef st) r + activeOf r (busesRef st)
           + activeOf r (spawnedBy W ev).
Proof.
  intros Hnf. destruct ev as [simulationTime clock random|time]; unfold step_lane.
  - destruct (spawner _ _ _ _ _ _) as [st1|] eqn:Hsp; [|done]. intros [= <- _].
    apply spawner_spec in Hsp as (-> & -> & Hnew). split.
    + by apply Forall_app.
    + intros r. rewrite activeOf_app. lia.
  - change (spawnedBy W (AnimationFrame time)) with (@nil SimulatedBus).
    unfold animate_lane. destruct (busesRef st) as [|bus l] eqn:Hfleet.
    + intros [= <- _]. rewrite Hfleet. split; [constructor|]. intros r.
      change (activeOf r []) with 0. lia.
    + destruct (handleMultiBusAnimation_lane _ _ _ _ _ _) as [[st1 stats]|] eqn:Hframe; [|done].
      intros [= <- _]. apply handleMultiBusAnimation_lane_counts in Hframe as [Hnf' Hcons].
      split; [done|]. intros r. rewrite Hcons, Hfleet.
      rewrite filter_notFinished_id by done.
      change (activeOf r []) with 0. lia.
Qed.

Lemma step_lane_monotone W w st ev st' out r :
  step_lane W w st ev = Some (st', out) →
  countOf (completedCountsRef st) r ≤ countOf (completedCountsRef st') r.
Proof.
  destruct ev as [simulationTime clock random|time]; simpl.
  - destruct (spawner _ _ _ _ _ _) as [st1|] eqn:Hsp; [|done]. intros [= <- _].
    apply spawner_spec in Hsp as (_ & -> & _). done.
  - unfold animate_lane. destruct (busesRef st) as [|bus l].
    + by intros [= <- _].
    + unfold handleMultiBusAnimation_lane.
      destruct (updateFleet _ _ _ _ _) as [[u f]|]; [|done].
      intros [= <- _]. simpl. rewrite countOf_foldl_increment. lia.
Qed.

Lemma run_lane_counts W w events st st' outs :
  Forall notFinished (busesRef st) →
  run_lane W w events st = Some (st', outs) →
  Forall notFinished (busesRef st')
  ∧ ∀ r, countOf (completedCountsRef st) r ≤ countOf (completedCountsRef st') r
         ∧ countOf (completedCountsRef st') r + activeOf r (busesRef st')
           = countOf (completedCountsRef st) r + activeOf r (busesRef st)
             + activeOf r (spawnedDuring W events).
Proof.
  revert st st' outs. induction events as [|ev events IH]; intros st st' outs Hnf H; simpl in H.
  { simplify_eq. split; [done|]. intros r. change (activeOf r (spawnedDuring W [])) with 0. lia. }
  destruct (step_lane W w st ev) as [[st1 out]|] eqn:Hstep; [|done].
  destruct (run_lane W w events st1) as [[st2 outs2]|] eqn:Hrun; [|done].
  simplify_eq.
  pose proof (step_lane_counts _ _ _ _ _ _ Hnf Hstep) as [Hnf1 Hc1].
  destruct (IH _ _ _ Hnf1 Hrun) as [Hnf2 Hc2]. split; [done|]. intros r.
  pose proof (step_lane_monotone _ _ _ _ _ _ r Hstep).
  destruct (Hc2 r) as [Hm2 He2]. specialize (Hc1 r).
  unfold spawnedDuring. rewrite fmap_cons. simpl. rewrite activeOf_app.
  fold (spawnedDuring W events). lia.
Qed.

(** C5: the completed counter of every route never decreases; a bus that was
    not finished is, after its update, either still in the fleet or pushed
    once on the finished list and gone from the fleet, never both; so each
    frame keeps [completed + active] per route, and a run from the start of a
    simulation has [completed + active] equal to the number of buses spawned
    for the route. The telemetry of a frame reports these two counts. On a
    network whose edges and route starts are nodes no event throws, so every
    run has such a last state. *)
Theorem completed_counts_consistent (W : World) :
  (∀ st ev st' out r, step_lane W laneWidth st ev = Some (st', out) →
     countOf (completedCountsRef st) r ≤ countOf (completedCountsRef st') r)
  ∧ (∀ time bus bus' f, notFinished bus →
       updateBus (world_math W) (world_net W) laneWidth time bus = Some (bus', f) →
       (state bus' = FINISHED ∧ f = [routeId bus]) ∨ (notFinished bus' ∧ f = []))
  ∧ (∀ time st st' stats,
       handleMultiBusAnimation (world_math W) (world_net W) (world_routesAnalytics W)
         time st = Some (st', stats) →
       Forall notFinished (busesRef st')
       ∧ (∀ r, countOf (completedCountsRef st') r + activeOf r (busesRef st')
               = countOf (completedCountsRef st) r
                 + activeOf r (filter notFinished (busesRef st)))
       ∧ (∀ ra, ra ∈ world_routesAnalytics W →
            stats !! route_id ra
            = Some {| active := activeOf (route_id ra) (busesRef st');
                      completed := countOf (completedCountsRef st') (route_id ra) |}))
  ∧ (∀ events st outs, run W events simulationStart = Some (st, outs) →
       Forall notFinished (busesRef st)
       ∧ ∀ r, countOf (completedCountsRef st) r + activeOf r (busesRef st)
              = activeOf r (spawnedDuring W events))
  ∧ (wellFormed (world_net W) →
     ∀ events st, ∃ st' outs, run W events st = Some (st', outs)).
Proof.
  split_and!.
  - intros st ev st' out r. apply step_lane_monotone.
  - intros time bus bus' f Hnf Hup. by apply updateBus_finished in Hup as [_ Hup].
  - intros time st st' stats Hframe. unfold handleMultiBusAnimation in Hframe.
    pose proof (handleMultiBusAnimation_lane_counts _ _ _ _ _ _ _ _ Hframe) as [Hnf Hcons].
    split_and!; [done..|]. intros ra Hra.
    unfold handleMultiBusAnimation_lane in Hframe.
    destruct (updateFleet _ _ _ _ _) as [[u f]|]; [|done].
    injection Hframe as <- <-. simpl. by apply telemetry_lookup.
  - intros events st outs Hrun. unfold run in Hrun.
    apply run_lane_counts in Hrun as [Hnf Hc]; [|constructor]. split; [done|].
    intros r. destruct (Hc r) as [_ He]. rewrite He. simpl.
    unfold countOf. rewrite lookup_empty. change (activeOf r []) with 0. simpl. lia.
  - intros Hwf events st. unfold run.
    destruct (run_lane_total W laneWidth events st Hwf) as [[st' outs] Hrun]. eauto.
Qed.
(** ** A segment without an edge *)

Lemma updateFleet_app M net w time (l1 l2 : list SimulatedBus) :
  updateFleet M net w time (l1 ++ l2)
  = match updateFleet M net w time l1, updateFleet M net w time l2 with
    | Some (u1, f1), Some (u2, f2) => Some (u1 ++ u2, f1 ++ f2)
    | _, _ => None
    end.
Proof.
  induction l1 as [|bus l1 IH]; simpl.
  - by destruct (updateFleet M net w time l2) as [[u2 f2]|].
  - destruct (updateBus M net w time bus) as [[bus' f]|]; [|done].
    rewrite IH. destruct (updateFleet M net w time l1) as [[u1 f1]|]; [|done].
    destruct (updateFleet M net w time l2) as [[u2 f2]|]; [|done].
    by rewrite <- app_assoc.
Qed.

Lemma updateBus_missing_edge M net w time bus fromId toId :
  state bus = MOVING →
  path bus !! currentSegment bus = Some fromId →
  path bus !! (currentSegment bus + 1) = Some toId →
  findEdge (EDGES net) fromId toId = None →
  updateBus M net w time bus = Some (set_state FINISHED bus, [routeId bus]).
Proof.
  intros Hst Hfrom Hto Hedge. unfold updateBus. rewrite Hst, Hfrom, Hto, Hedge.
  apply lookup_lt_Some in Hto.
  destruct (Z.geb_spec (Z.of_nat (currentSegment bus)) (Z.of_nat (length (path bus)) - 1));
    [lia|done].
Qed.

(** C6: a moving bus whose segment has no edge in [EDGES] is set to
    [FINISHED] by the frame, and its route id is pushed once; nothing is
    thrown for it: the frame of a fleet that holds only this bus returns,
    with the fleet empty and the route counted, and the frame of any fleet
    with the bus returns whenever the frame of the fleet without it does.
    The rest of the fleet fares as it would without the bus: the remaining
    buses are the same, none of them is [FINISHED], the completed counts
    differ by the one of its route, and the frame throws with the bus
    exactly when it throws without it. *)
Theorem missing_edge_finishes_bus (M : MathLib) (net : Network)
    (routes : list RouteAnalytics) (time : Q) (bus : SimulatedBus)
    (fromId toId : string) :
  state bus = MOVING →
  path bus !! currentSegment bus = Some fromId →
  path bus !! (currentSegment bus + 1) = Some toId →
  findEdge (EDGES net) fromId toId = None →
  updateBus M net laneWidth time bus = Some (set_state FINISHED bus, [routeId bus])
  ∧ (∀ counts,
       handleMultiBusAnimation M net routes time
         {| busesRef := [bus]; completedCountsRef := counts |}
       = Some ({| busesRef := [];
                  completedCountsRef := increment counts (routeId bus) |},
               telemetry routes [] (increment counts (routeId bus))))
  ∧ (∀ before after counts st' stats',
       handleMultiBusAnimation M net routes time
         {| busesRef := before ++ after; completedCountsRef := counts |}
       = Some (st', stats') →
       ∃ st stats,
         handleMultiBusAnimation M net routes time
           {| busesRef := before ++ bus :: after; completedCountsRef := counts |}
         = Some (st, stats)
         ∧ busesRef st = busesRef st'
         ∧ Forall notFinished (busesRef st)
         ∧ (∀ r, countOf (completedCountsRef st) r
                 = countOf (completedCountsRef st') r
                   + (if decide (r = routeId bus) then 1 else 0))
         ∧ (∀ r, active <$> (stats !! r) = active <$> (stats' !! r)))
  ∧ (∀ before after counts,
       handleMultiBusAnimation M net routes time
         {| busesRef := before ++ bus :: after; completedCountsRef := counts |} = None
       ↔ handleMultiBusAnimation M net routes time
           {| busesRef := before ++ after; completedCountsRef := counts |} = None).
Proof.
  intros Hst Hfrom Hto Hedge.
  pose proof (updateBus_missing_edge M net laneWidth time bus fromId toId
                Hst Hfrom Hto Hedge) as Hup.
  assert (Hnf : notFinished bus) by (unfold notFinished; by rewrite Hst).
  split_and!.
  - done.
  - intros counts. unfold handleMultiBusAnimation, handleMultiBusAnimation_lane. simpl.
    rewrite filter_cons, decide_True, filter_nil by done. simpl. rewrite Hup. simpl.
    rewrite filter_cons, decide_False, filter_nil by (unfold notFinished; simpl; auto).
    done.
  - intros before after counts st' stats'.
    unfold handleMultiBusAnimation, handleMultiBusAnimation_lane. simpl.
    rewrite !filter_app, filter_cons, decide_True by done.
    rewrite !updateFleet_app. simpl. rewrite Hup.
    destruct (updateFleet M net laneWidth time (filter notFinished before))
      as [[u1 f1]|]; [|done].
    destruct (updateFleet M net laneWidth time (filter notFinished after))
      as [[u2 f2]|]; [|done].
    intros [= <- <-]. eexists _, _. split; [done|]. simpl.
    rewrite !filter_app, filter_cons.
    rewrite decide_False by (unfold notFinished; simpl; auto).
    split_and!.
    + done.
    + rewrite <- filter_app. apply Forall_filter_notFinished.
    + intros r. rewrite !countOf_foldl_increment, !occurrencesZ_app.
      unfold occurrencesZ. rewrite filter_cons.
      destruct (decide (routeId bus = r)) as [->|Hne].
      * rewrite decide_True by done. simpl. lia.
      * rewrite decide_False by done. simpl. lia.
    + intros r. unfold telemetry.
      generalize (foldl increment ∅ (routeId <$> filter notFinished u1
                                                 ++ filter notFinished u2)).
      intros activeCounts.
      generalize (foldl increment counts (f1 ++ routeId bus :: f2)).
      generalize (foldl increment counts (f1 ++ f2)). intros c1 c2.
      induction routes as [|ra routes IH] using rev_ind; [done|].
      rewrite !foldl_app. simpl. destruct (decide (route_id ra = r)) as [->|Hne].
      * by rewrite !lookup_insert_eq.
      * by rewrite !lookup_insert_ne.
  - intros before after counts.
    unfold handleMultiBusAnimation, handleMultiBusAnimation_lane. simpl.
    rewrite !filter_app, filter_cons, decide_True by done.
    rewrite !updateFleet_app. simpl. rewrite Hup.
    destruct (updateFleet M net laneWidth time (filter notFinished before))
      as [[u1 f1]|]; [|done].
    destruct (updateFleet M net laneWidth time (filter notFinished after))
      as [[u2 f2]|]; done.
Qed.

Lemma missing_edge_finishes_bus_witness :
  match handleMultiBusAnimation sampleMath constants [mkRouteAnalytics 1 3 10] 100
          {| busesRef :=
               [ {| bus_id := (2%Z, 0%Z, 0%Q); routeId := 2; color := "#3b82f6";
                    path := ["B1"; "B2"; "B3"; "B6"; "B7"]; currentSegment := 0;
                    state := MOVING; lastStateChangeTime := 0;
                    bus_x := 100; bus_y := 350; rotation := 0 |} ] ++ [];
             completedCountsRef := ∅ |} with
  | Some (st', stats') =>
      ∃ st stats,
        handleMultiBusAnimation sampleMath constants [mkRouteAnalytics 1 3 10] 100
          {| busesRef :=
               [ {| bus_id := (2%Z, 0%Z, 0%Q); routeId := 2; color := "#3b82f6";
                    path := ["B1"; "B2"; "B3"; "B6"; "B7"]; currentSegment := 0;
                    state := MOVING; lastStateChangeTime := 0;
                    bus_x := 100; bus_y := 350; rotation := 0 |} ]
               ++ {| bus_id := (1%Z, 0%Z, 0%Q); routeId := 1; color := "#10b981";
                     path := ["B1"; "B5"]; currentSegment := 0; state := MOVING;
                     lastStateChangeTime := 0; bus_x := 100; bus_y := 350;
                     rotation := 0 |} :: [];
             completedCountsRef := ∅ |}
        = Some (st, stats)
        ∧ busesRef st = busesRef st'
        ∧ Forall notFinished (busesRef st)
        ∧ (∀ r, countOf (completedCountsRef st) r
                = countOf (completedCountsRef st') r
                  + (if decide (r = 1%Z) then 1 else 0))
        ∧ (∀ r, active <$> (stats !! r) = active <$> (stats' !! r))
  | None => False
  end.
Proof.
  destruct (handleMultiBusAnimation sampleMath constants [mkRouteAnalytics 1 3 10] 100 _)
    as [[st' stats']|] eqn:Hrest.
  - exact (proj1 (proj2 (proj2 (missing_edge_finishes_bus sampleMath constants
             [mkRouteAnalytics 1 3 10] 100
             {| bus_id := (1%Z, 0%Z, 0%Q); routeId := 1; color := "#10b981";
                path := ["B1"; "B5"]; currentSegment := 0; state := MOVING;
                lastStateChangeTime := 0; bus_x := 100; bus_y := 350; rotation := 0 |}
             "B1" "B5" eq_refl eq_refl eq_refl eq_refl)))
           _ [] ∅ st' stats' Hrest).
  - vm_compute in Hrest. discriminate.
Defined.

(** The frame of the witness above: the bus of route 2 stays, the faulty
    bus of route 1 is gone and counted. *)
Example missing_edge_frame :
  (λ res, (routeId <$> busesRef res.1, countOf (completedCountsRef res.1) 1))
  <$> handleMultiBusAnimation sampleMath constants [mkRouteAnalytics 1 3 10] 100
        {| busesRef :=
             [ {| bus_id := (2%Z, 0%Z, 0%Q); routeId := 2; color := "#3b82f6";
                  path := ["B1"; "B2"; "B3"; "B6"; "B7"]; currentSegment := 0;
                  state := MOVING; lastStateChangeTime := 0;
                  bus_x := 100; bus_y := 350; rotation := 0 |};
               {| bus_id := (1%Z, 0%Z, 0%Q); routeId := 1; color := "#10b981";
                  path := ["B1"; "B5"]; currentSegment := 0; state := MOVING;
                  lastStateChangeTime := 0; bus_x := 100; bus_y := 350;
                  rotation := 0 |} ];
           completedCountsRef := ∅ |}
  = Some ([2%Z], 1).
Proof. vm_compute. reflexivity. Qed.

(** ** Segment index and the order of states *)

Lemma Qgeb_spec a b : Qgeb a b = true ↔ (b <= a)%Q.
Proof. unfold Qgeb. apply Qle_bool_iff. Qed.

Lemma Qgtb_spec a b : Qgtb a b = true ↔ (b < a)%Q.
Proof.
  unfold Qgtb. rewrite negb_true_iff. split.
  - intros H. apply Qnot_le_lt. intros Hle. apply Qle_bool_iff in Hle. congruence.
  - intros H. destruct (Qle_bool a b) eqn:E; [|done].
    apply Qle_bool_iff in E. lra.
Qed.

(** [t >= 1] for [t = Math.min(elapsed / TRAVEL_DURATION, 1)]. *)
Lemma arrival_test elapsed :
  Qgeb (Qmin (elapsed / TRAVEL_DURATION) 1) 1 = Qgeb elapsed TRAVEL_DURATION.
Proof.
  unfold TRAVEL_DURATION. apply eq_true_iff_eq. rewrite !Qgeb_spec, Q.min_glb_iff.
  assert (He : (elapsed == (elapsed / 2000) * 2000)%Q) by (field; discriminate).
  set (x := (elapsed / 2000)%Q) in *. split.
  - intros [H _]. lra.
  - intros H. split; lra.
Qed.

Lemma updateBus_transition M net w time bus bus' f :
  segmentInvariant bus → updateBus M net w time bus = Some (bus', f) →
  path bus' = path bus ∧ routeId bus' = routeId bus ∧ transition bus bus'
  ∧ (state bus' = FINISHED ∨ segmentInvariant bus').
Proof.
  unfold segmentInvariant, transition, updateBus. intros Hinv.
  assert (Hfin : Some (set_state FINISHED bus, [routeId bus]) = Some (bus', f) →
                 path bus' = path bus ∧ routeId bus' = routeId bus
                 ∧ ((state bus' = MOVING ∧ currentSegment bus' = currentSegment bus)
                    ∨ (state bus' = WAITING ∧ currentSegment bus' = currentSegment bus
                       ∧ currentSegment bus + 2 < length (path bus))
                    ∨ (state bus' = WAITING_FINAL ∧ currentSegment bus' = currentSegment bus
                       ∧ currentSegment bus + 2 = length (path bus))
                    ∨ state bus' = FINISHED)
                 ∧ (state bus' = FINISHED ∨ segmentInvariant bus')).
  { intros [= <- <-]. simpl. split_and!; [done..| |by left]. by right; right; right. }
  destruct (state bus) eqn:Hst; [| | |done].
  - (* MOVING *)
    destruct (Z.geb_spec (Z.of_nat (currentSegment bus))
                (Z.of_nat (length (path bus)) - 1)) as [Hge|Hlt]; [lia|].
    destruct (path bus !! currentSegment bus) as [fromId|]; [|done].
    destruct (path bus !! (currentSegment bus + 1)) as [toId|]; [|done].
    destruct (findEdge (EDGES net) fromId toId) as [e|]; [|done].
    destruct (NODES net !! fromId) as [fromNode|]; [|done].
    destruct (NODES net !! toId) as [toNode|]; [|done].
    destruct (Qgeb _ 1).
    + destruct (bool_decide _) eqn:Hfinal; intros [= <- <-]; simpl.
      * apply bool_decide_eq_true in Hfinal.
        split_and!; [done..| |right; unfold segmentInvariant; simpl; lia].
        right. right. left. split_and!; [done..|lia].
      * apply bool_decide_eq_false in Hfinal.
        split_and!; [done..| |right; unfold segmentInvariant; simpl; lia].
        right. left. split_and!; [done..|lia].
    + intros [= <- <-]. simpl. split_and!; [done..|by left|].
      right. unfold segmentInvariant. simpl. by rewrite Hst.
  - (* WAITING *)
    rewrite decide_False by done. destruct (Qgtb _ _); intros [= <- <-]; simpl.
    + split_and!; [done..|by right|]. right. unfold segmentInvariant. simpl. lia.
    + split_and!; [done..|by left|]. right. unfold segmentInvariant. by rewrite Hst.
  - (* WAITING_FINAL *)
    rewrite decide_True by done. destruct (Qgtb _ _); intros [= <- <-]; simpl.
    + split_and!; [done..|by right|by left].
    + split_and!; [done..|by left|]. right. unfold segmentInvariant. by rewrite Hst.
Qed.

Lemma segmentInvariant_claimed bus : segmentInvariant bus → claimedSegmentInvariant bus.
Proof.
  unfold segmentInvariant, claimedSegmentInvariant. intros Hinv [Hst|Hst];
    rewrite Hst in Hinv; lia.
Qed.

Lemma segmentInvariant_notFinished bus : segmentInvariant bus → notFinished bus.
Proof. unfold segmentInvariant, notFinished. intros Hinv Hst. by rewrite Hst in Hinv. Qed.

Lemma updateFleet_segmentInvariant M net w time l u f :
  Forall segmentInvariant l → updateFleet M net w time l = Some (u, f) →
  Forall segmentInvariant (filter notFinished u).
Proof.
  revert u f. induction l as [|bus l IH]; intros u f Hall H; simpl in H.
  { simplify_eq. constructor. }
  apply Forall_cons in Hall as [Hbus Hall].
  destruct (updateBus M net w time bus) as [[bus' f1]|] eqn:Hup; [|done].
  destruct (updateFleet M net w time l) as [[u' f2]|] eqn:Hfl; [|done].
  simplify_eq. specialize (IH _ _ Hall eq_refl).
  apply updateBus_transition in Hup as (_ & _ & _ & Hcase); [|done].
  rewrite filter_cons. destruct (decide (notFinished bus')) as [Hnf|Hnf]; [|done].
  constructor; [|done]. by destruct Hcase.
Qed.

Lemma spawnBus_segmentInvariant net simulationTime now random rid new :
  (∀ route, route ∈ ROUTES net → length (Route_path route) ≠ 1) →
  spawnBus net simulationTime now random rid = Some new →
  Forall segmentInvariant new.
Proof.
  intros Hroutes. unfold spawnBus.
  destruct (List.find _ (ROUTES net)) as [staticRoute|] eqn:Hfind.
  - apply find_some in Hfind as [Hin _]. apply list_elem_of_In, Hroutes in Hin.
    destruct (Route_path staticRoute) as [|first [|second rest]] eqn:Hpath;
      [intros [= <-]; constructor|done|].
    destruct (NODES net !! first); [|done]. intros [= <-].
    apply Forall_singleton. unfold segmentInvariant. simpl. lia.
  - intros [= <-]. constructor.
Qed.

Lemma spawnAll_segmentInvariant net simulationTime clock random k l newBuses :
  (∀ route, route ∈ ROUTES net → length (Route_path route) ≠ 1) →
  spawnAll net simulationTime clock random k l = Some newBuses →
  Forall segmentInvariant newBuses.
Proof.
  intros Hroutes. revert k newBuses.
  induction l as [|rid l IH]; intros k newBuses H; simpl in H.
  { simplify_eq. constructor. }
  destruct (spawnBus _ _ _ _ _) as [new|] eqn:Hnew; [|done].
  destruct (spawnAll _ _ _ _ _ _) as [rest|] eqn:Hrest; [|done].
  simplify_eq. apply Forall_app. split.
  - by eapply spawnBus_segmentInvariant.
  - by eapply IH.
Qed.

Lemma step_lane_segmentInvariant W w st ev st' out :
  (∀ route, route ∈ ROUTES (world_net W) → length (Route_path route) ≠ 1) →
  Forall segmentInvariant (busesRef st) →
  step_lane W w st ev = Some (st', out) →
  Forall segmentInvariant (busesRef st').
Proof.
  intros Hroutes Hinv. destruct ev as [simulationTime clock random|time]; unfold step_lane.
  - unfold spawner.
    destruct (world_schedule W !! simulationTime) as [[|rid rest]|];
      [by intros [= <- _]| |by intros [= <- _]].
    destruct (spawnAll _ _ _ _ _ _) as [[|new newBuses]|] eqn:Hall; [by intros [= <- _]| |done].
    intros [= <- _]. simpl. apply Forall_app. split; [done|].
    by eapply spawnAll_segmentInvariant.
  - unfold animate_lane. destruct (busesRef st) as [|bus l] eqn:Hfleet.
    + intros [= <- _]. by rewrite Hfleet.
    + unfold handleMultiBusAnimation_lane. rewrite Hfleet.
      destruct (updateFleet _ _ _ _ _) as [[u f]|] eqn:Hup; [|done].
      intros [= <- _]. simpl. eapply updateFleet_segmentInvariant; [|done].
      rewrite filter_notFinished_id; [done|].
      eapply Forall_impl; [done|]. apply segmentInvariant_notFinished.
Qed.

Lemma run_lane_segmentInvariant W w events st st' outs :
  (∀ route, route ∈ ROUTES (world_net W) → length (Route_path route) ≠ 1) →
  Forall segmentInvariant (busesRef st) →
  run_lane W w events st = Some (st', outs) →
  Forall segmentInvariant (busesRef st').
Proof.
  intros Hroutes. revert st st' outs.
  induction events as [|ev events IH]; intros st st' outs Hinv H; simpl in H.
  { by simplify_eq. }
  destruct (step_lane W w st ev) as [[st1 out]|] eqn:Hstep; [|done].
  destruct (run_lane W w events st1) as [[st2 outs2]|] eqn:Hrun; [|done].
  simplify_eq. eapply IH; [|done]. by eapply step_lane_segmentInvariant.
Qed.

(** C4, as amended: when no route has exactly one stop, every bus of a fleet
    reached from the start of a simulation has its segment index below
    [path.length - 1] while [MOVING] and below [path.length - 2] while
    [WAITING], and [path.length - 2] while [WAITING_FINAL]; the index itself
    never reaches [path.length - 1]. An update takes [MOVING] to [WAITING]
    or, at the end of the segment into the last stop, to [WAITING_FINAL];
    [WAITING] back to [MOVING] with the next index; [WAITING_FINAL] only to
    [FINISHED]. A [MOVING] bus whose index is at or above
    [path.length - 1], as one spawned on a route of one stop, is set to
    [FINISHED] at once. *)
Theorem segment_index_invariant (W : World) :
  (∀ route, route ∈ ROUTES (world_net W) → length (Route_path route) ≠ 1) →
  (∀ events st outs, run W events simulationStart = Some (st, outs) →
     Forall segmentInvariant (busesRef st)
     ∧ Forall claimedSegmentInvariant (busesRef st))
  ∧ (∀ time bus bus' f, segmentInvariant bus →
       updateBus (world_math W) (world_net W) laneWidth time bus = Some (bus', f) →
       path bus' = path bus ∧ transition bus bus'
       ∧ (state bus' = FINISHED ∨ segmentInvariant bus'))
  ∧ (∀ time bus, state bus = MOVING →
       length (path bus) ≤ currentSegment bus + 1 →
       updateBus (world_math W) (world_net W) laneWidth time bus
       = Some (set_state FINISHED bus, [routeId bus])).
Proof.
  intros Hroutes. split_and!.
  - intros events st outs Hrun. unfold run in Hrun.
    apply run_lane_segmentInvariant in Hrun; [|done|constructor].
    split; [done|]. eapply Forall_impl; [done|]. apply segmentInvariant_claimed.
  - intros time bus bus' f Hinv Hup.
    by apply updateBus_transition in Hup as (? & _ & ? & ?).
  - intros time bus Hst Hlen. unfold updateBus. rewrite Hst.
    destruct (Z.geb_spec (Z.of_nat (currentSegment bus))
                (Z.of_nat (length (path bus)) - 1)) as [Hge|Hlt]; [done|lia].
Qed.

Lemma segment_index_invariant_witness :
  match run constantsWorld
          [SpawnerRuns 5 (λ _, 5000%Q) (λ _, 0%Q); AnimationFrame 5016;
           AnimationFrame 7100] simulationStart with
  | Some (st, _) => Forall claimedSegmentInvariant (busesRef st)
  | None => True
  end.
Proof.
  assert (Hroutes : ∀ route, route ∈ ROUTES (world_net constantsWorld) →
                             length (Route_path route) ≠ 1).
  { intros route Hin. simpl in Hin. unfold constants_ROUTES in Hin.
    repeat (apply elem_of_cons in Hin as [->|Hin]; [simpl; lia|]).
    by apply elem_of_nil in Hin. }
  destruct (run constantsWorld _ simulationStart) as [[st outs]|] eqn:Hrun; [|exact I].
  exact (proj2 (proj1 (segment_index_invariant constantsWorld Hroutes) _ _ _ Hrun)).
Defined.

(** C4 as stated fails for a route of one stop: the spawner puts its bus in
    the fleet [MOVING] with segment index [0 = path.length - 1], and the
    next frame sets the bus to [FINISHED] without [WAITING_FINAL]. *)
Lemma one_stop_route_breaks_invariant :
  (∃ st outs,
     run oneStopWorld [SpawnerRuns 0 (λ _, 0%Q) (λ _, 0%Q)] simulationStart
     = Some (st, outs)
     ∧ (state <$> busesRef st) = [MOVING]
     ∧ ¬ Forall claimedSegmentInvariant (busesRef st))
  ∧ (∃ st outs,
       run oneStopWorld [SpawnerRuns 0 (λ _, 0%Q) (λ _, 0%Q); AnimationFrame 0]
         simulationStart = Some (st, outs)
       ∧ busesRef st = []
       ∧ countOf (completedCountsRef st) 1 = 1).
Proof.
  split.
  - eexists _, _. split; [vm_compute; reflexivity|]. split; [reflexivity|].
    intros Hall. apply Forall_cons in Hall as [Hbus _].
    unfold claimedSegmentInvariant in Hbus. simpl in Hbus.
    specialize (Hbus (or_introl eq_refl)). lia.
  - eexists _, _. split; [vm_compute; reflexivity|]. split; reflexivity.
Qed.

(** ** A bus on a path of three stops *)

Lemma phaseStep_index ph time :
  phaseIndex (phaseStep ph time).1 = phaseIndex ph.1
  ∨ phaseIndex (phaseStep ph time).1 = S (phaseIndex ph.1).
Proof.
  destruct ph as [[] since]; unfold phaseStep; simpl;
    try destruct (Qgeb _ _); try destruct (Qgtb _ _); simpl; auto.
Qed.

Lemma phaseStep_enteredLate spawnTime ph time :
  enteredLate spawnTime ph → enteredLate spawnTime (phaseStep ph time).
Proof.
  unfold enteredLate, phaseStep, TRAVEL_DURATION, STOP_DURATION, DESTINATION_WAIT.
  destruct ph as [[] since]; simpl; intros [Hle Hlt]; try done.
  - destruct (Qgeb _ _) eqn:E; [|done]. apply Qgeb_spec in E. simpl. split; [lra|lia].
  - destruct (Qgtb _ _) eqn:E; [|done]. apply Qgtb_spec in E. simpl. split; intros; lra.
  - destruct (Qgeb _ _) eqn:E; [|done]. apply Qgeb_spec in E. simpl.
    specialize (Hlt ltac:(lia)). split; intros; lra.
  - destruct (Qgtb _ _) eqn:E; [|done]. apply Qgtb_spec in E. simpl.
    specialize (Hlt ltac:(lia)). split; intros; lra.
Qed.

Lemma foldl_phaseStep_enteredLate spawnTime times ph :
  enteredLate spawnTime ph → enteredLate spawnTime (foldl phaseStep ph times).
Proof.
  revert ph. induction times as [|time times IH]; intros ph H; [done|].
  simpl. apply IH. by apply phaseStep_enteredLate.
Qed.

(** The entry time of the current phase is the spawn time or a frame time. *)
Lemma foldl_phaseStep_since times ph :
  (foldl phaseStep ph times).2 = ph.2 ∨ (foldl phaseStep ph times).2 ∈ times.
Proof.
  revert ph. induction times as [|time times IH]; intros ph; [by left|].
  simpl. destruct (IH (phaseStep ph time)) as [Heq|Hin]; [|right; set_solver].
  rewrite Heq. destruct ph as [[] since]; unfold phaseStep; simpl;
    try destruct (Qgeb _ _); try destruct (Qgtb _ _); simpl; auto;
    right; set_solver.
Qed.

Lemma phaseAfter_Done_late spawnTime times :
  (phaseAfter spawnTime times).1 = Done →
  ∃ time, time ∈ times ∧ (spawnTime + 7000 < time)%Q.
Proof.
  intros Hdone. unfold phaseAfter in *.
  assert (Hlate : enteredLate spawnTime (foldl phaseStep (Leg1, spawnTime) times)).
  { apply foldl_phaseStep_enteredLate. split; simpl; [lra|lia]. }
  destruct Hlate as [_ Hlt]. rewrite Hdone in Hlt. simpl in Hlt. specialize (Hlt ltac:(lia)).
  destruct (foldl_phaseStep_since times (Leg1, spawnTime)) as [Heq|Hin].
  - rewrite Heq in Hlt. simpl in Hlt. lra.
  - eauto.
Qed.

Section ThreeStops.
Context (M : MathLib) (net : Network) (routes : list RouteAnalytics) (width : Q).
Context (bus0 : SimulatedBus) (a b c : string) (e1 e2 : Edge) (na nb nc : Node).
Context (Hpath : path bus0 = [a; b; c]).
Context (Hedge1 : findEdge (EDGES net) a b = Some e1).
Context (Hedge2 : findEdge (EDGES net) b c = Some e2).
Context (Hna : NODES net !! a = Some na).
Context (Hnb : NODES net !! b = Some nb).
Context (Hnc : NODES net !! c = Some nc).

Lemma animate_lane_onPhase counts0 ph time st :
  onPhase bus0 counts0 ph st →
  ∃ st' out, animate_lane M net width routes time st = Some (st', out)
             ∧ onPhase bus0 counts0 (phaseStep ph time) st'.
Proof using Hpath Hedge1 Hedge2 Hna Hnb Hnc.
  destruct ph as [p since]. unfold onPhase. simpl. intros [Hcount Hfleet].
  destruct p.
  - (* Leg1 *)
    destruct Hfleet as (bus & Hb & Hp & Hr & Hs & Hseg & Hlast).
    unfold animate_lane, handleMultiBusAnimation_lane. rewrite Hb.
    rewrite filter_cons, decide_True by (unfold notFinished; by rewrite Hs).
    rewrite filter_nil. simpl. unfold updateBus.
    rewrite Hs, Hseg, Hp, Hpath. simpl. rewrite Hedge1, Hna, Hnb, Hlast, arrival_test.
    unfold phaseStep. simpl. destruct (Qgeb (time - since) TRAVEL_DURATION); simpl.
    + eexists _, _. split; [done|]. simpl. split; [done|].
      eexists. split; [done|]. simpl. by rewrite Hp, Hpath.
    + eexists _, _. split; [done|]. simpl. split; [done|].
      eexists. split; [rewrite filter_cons, decide_True; [done|]|].
      * unfold notFinished. simpl. by rewrite Hs.
      * simpl. by rewrite Hs, Hseg, Hp, Hpath.
  - (* Dwell *)
    destruct Hfleet as (bus & Hb & Hp & Hr & Hs & Hseg & Hlast).
    unfold animate_lane, handleMultiBusAnimation_lane. rewrite Hb.
    rewrite filter_cons, decide_True by (unfold notFinished; by rewrite Hs).
    rewrite filter_nil. simpl. unfold updateBus.
    rewrite Hs. simpl. rewrite Hlast.
    unfold phaseStep. simpl. destruct (Qgtb (time - since) STOP_DURATION); simpl.
    + eexists _, _. split; [done|]. simpl. split; [done|].
      eexists. split; [done|]. simpl. by rewrite Hp, Hpath, Hseg.
    + eexists _, _. split; [done|]. simpl. split; [done|].
      eexists. split; [rewrite filter_cons, decide_True; [done|]|].
      * unfold notFinished. by rewrite Hs.
      * by rewrite Hs, Hseg, Hp, Hpath.
  - (* Leg2 *)
    destruct Hfleet as (bus & Hb & Hp & Hr & Hs & Hseg & Hlast).
    unfold animate_lane, handleMultiBusAnimation_lane. rewrite Hb.
    rewrite filter_cons, decide_True by (unfold notFinished; by rewrite Hs).
    rewrite filter_nil. simpl. unfold updateBus.
    rewrite Hs, Hseg, Hp, Hpath. simpl. rewrite Hedge2, Hnb, Hnc, Hlast, arrival_test.
    unfold phaseStep. simpl. destruct (Qgeb (time - since) TRAVEL_DURATION); simpl.
    + eexists _, _. split; [done|]. simpl. split; [done|].
      eexists. split; [done|]. simpl. by rewrite Hp, Hpath.
    + eexists _, _. split; [done|]. simpl. split; [done|].
      eexists. split; [rewrite filter_cons, decide_True; [done|]|].
      * unfold notFinished. simpl. by rewrite Hs.
      * simpl. by rewrite Hs, Hseg, Hp, Hpath.
  - (* FinalDwell *)
    destruct Hfleet as (bus & Hb & Hp & Hr & Hs & Hseg & Hlast).
    unfold animate_lane, handleMultiBusAnimation_lane. rewrite Hb.
    rewrite filter_cons, decide_True by (unfold notFinished; by rewrite Hs).
    rewrite filter_nil. simpl. unfold updateBus.
    rewrite Hs. simpl. rewrite Hlast.
    unfold phaseStep. simpl. destruct (Qgtb (time - since) DESTINATION_WAIT); simpl.
    + eexists _, _. split; [done|]. simpl. split; [|done].
      rewrite countOf_increment, Hr, decide_True by done.
      rewrite decide_False in Hcount by done. lia.
    + eexists _, _. split; [done|]. simpl. split; [done|].
      eexists. split; [rewrite filter_cons, decide_True; [done|]|].
      * unfold notFinished. by rewrite Hs.
      * by rewrite Hs, Hseg, Hp, Hpath.
  - (* Done *)
    unfold animate_lane. rewrite Hfleet. eexists _, _. split; [done|].
    unfold phaseStep. simpl. done.
Qed.

Lemma run_lane_onPhase W counts0 ph times st :
  world_math W = M → world_net W = net → world_routesAnalytics W = routes →
  onPhase bus0 counts0 ph st →
  ∃ st' outs, run_lane W width (AnimationFrame <$> times) st = Some (st', outs)
              ∧ onPhase bus0 counts0 (foldl phaseStep ph times) st'.
Proof using Hpath Hedge1 Hedge2 Hna Hnb Hnc.
  intros HM Hnet Hroutes. revert ph st.
  induction times as [|time times IH]; intros ph st Hon.
  { simpl. eauto. }
  rewrite fmap_cons. cbn [run_lane step_lane foldl]. rewrite HM, Hnet, Hroutes.
  destruct (animate_lane_onPhase counts0 ph time st Hon) as (st1 & out & -> & Hon1).
  destruct (IH _ _ Hon1) as (st2 & outs & -> & Hon2). eauto.
Qed.

End ThreeStops.

(** C3, as amended: a bus at the start of a path of three stops whose two
    edges exist goes through [MOVING], [WAITING], [MOVING], [WAITING_FINAL],
    [FINISHED] in this order, each frame keeping the phase or moving to the
    next one, never back; the completed count of its route is one more once
    it is [FINISHED], and unchanged before. A leg ends at the first frame at
    least 2000 ms after its start and a dwell at the first frame more than
    1000 ms (2000 ms at the last stop) after its start: the phases begin no
    earlier than 0, 2000, 3000, 5000 and 7000 ms after the spawn, strictly
    later from the second leg on, and the frame that finishes the bus comes
    more than 7000 ms after the spawn. *)
Theorem three_stop_bus_lifecycle (W : World) (bus0 : SimulatedBus)
    (a b c : string) (e1 e2 : Edge) (na nb nc : Node) (counts : gmap Z nat)
    (times : list Q) :
  path bus0 = [a; b; c] → state bus0 = MOVING → currentSegment bus0 = 0 →
  findEdge (EDGES (world_net W)) a b = Some e1 →
  findEdge (EDGES (world_net W)) b c = Some e2 →
  NODES (world_net W) !! a = Some na →
  NODES (world_net W) !! b = Some nb →
  NODES (world_net W) !! c = Some nc →
  (∃ st outs,
     run W (AnimationFrame <$> times)
       {| busesRef := [bus0]; completedCountsRef := counts |} = Some (st, outs)
     ∧ onPhase bus0 (countOf counts (routeId bus0))
         (phaseAfter (lastStateChangeTime bus0) times) st)
  ∧ (∀ time,
       phaseIndex (phaseAfter (lastStateChangeTime bus0) (times ++ [time])).1
       = phaseIndex (phaseAfter (lastStateChangeTime bus0) times).1
       ∨ phaseIndex (phaseAfter (lastStateChangeTime bus0) (times ++ [time])).1
         = S (phaseIndex (phaseAfter (lastStateChangeTime bus0) times).1))
  ∧ enteredLate (lastStateChangeTime bus0)
      (phaseAfter (lastStateChangeTime bus0) times)
  ∧ ((phaseAfter (lastStateChangeTime bus0) times).1 = Done →
     ∃ time, time ∈ times ∧ (lastStateChangeTime bus0 + 7000 < time)%Q).
Proof.
  intros Hpath Hst Hseg Hedge1 Hedge2 Hna Hnb Hnc. split_and!.
  - unfold run, phaseAfter.
    apply (run_lane_onPhase (world_math W) (world_net W) (world_routesAnalytics W)
             laneWidth bus0 a b c e1 e2 na nb nc Hpath Hedge1 Hedge2 Hna Hnb Hnc W);
      [done..|].
    split; simpl; [lia|]. eexists. split_and!; done.
  - intros time. unfold phaseAfter. rewrite foldl_app. simpl. apply phaseStep_index.
  - unfold phaseAfter. apply foldl_phaseStep_enteredLate. split; simpl; [lra|lia].
  - apply phaseAfter_Done_late.
Qed.

Example phaseAfter_frames :
  phaseAfter 0 [0; 2000; 3001; 5001; 7002]%Q = (Done, 7002%Q)
  ∧ phaseAfter 0 [0; 2000; 3000; 5000; 7000]%Q = (FinalDwell, 7000%Q).
Proof. split; reflexivity. Qed.

Lemma three_stop_bus_lifecycle_witness :
  ∃ st outs,
    run threeStopWorld (AnimationFrame <$> [0; 2000; 3001; 5001; 7002]%Q)
      {| busesRef := [threeStopBus]; completedCountsRef := ∅ |} = Some (st, outs)
    ∧ onPhase threeStopBus (countOf ∅ (routeId threeStopBus))
        (phaseAfter (lastStateChangeTime threeStopBus) [0; 2000; 3001; 5001; 7002]%Q) st.
Proof.
  exact (proj1 (three_stop_bus_lifecycle threeStopWorld threeStopBus "A" "B" "C"
                  (mkEdge "A" "B" 0 0) (mkEdge "B" "C" 0 0)
                  (mkNode "A" 0 0 terminal) (mkNode "B" 100 0 stop)
                  (mkNode "C" 200 0 terminal) ∅ [0; 2000; 3001; 5001; 7002]%Q
                  eq_refl eq_refl eq_refl eq_refl eq_refl eq_refl eq_refl eq_refl)).
Defined.

(** C3 as stated fails on the times: with frames at 2000 and 3000 ms the bus
    still waits at 3000 ms; with frames at 2000, 3000, 5000 and 7000 ms it is
    in [WAITING_FINAL] at 7000 ms with nothing completed; and no frames at or
    before 7000 ms, however many, complete it. *)
Lemma finished_at_7000ms_unreachable :
  (∃ st outs,
     run threeStopWorld (threeStopEvents [2000; 3000]%Q) simulationStart
     = Some (st, outs)
     ∧ (state <$> busesRef st) = [WAITING])
  ∧ (∃ st outs,
       run threeStopWorld (threeStopEvents [2000; 3000; 5000; 7000]%Q) simulationStart
       = Some (st, outs)
       ∧ (state <$> busesRef st) = [WAITING_FINAL]
       ∧ countOf (completedCountsRef st) 1 = 0)
  ∧ ¬ ∃ times st outs,
        Forall (λ time, (time <= 7000)%Q) times
        ∧ run threeStopWorld (threeStopEvents times) simulationStart = Some (st, outs)
        ∧ countOf (completedCountsRef st) 1 = 1.
Proof.
  split_and!.
  - eexists _, _. split; [vm_compute; reflexivity|reflexivity].
  - eexists _, _. split; [vm_compute; reflexivity|]. split; reflexivity.
  - intros (times & st & outs & Hbefore & Hrun & Hcount).
    unfold run, threeStopEvents in Hrun. cbn [run_lane] in Hrun.
    assert (Hspawn : step_lane threeStopWorld laneWidth simulationStart
                       (SpawnerRuns 0 (λ _, 0%Q) (λ _, 0%Q))
                     = Some ({| busesRef := [threeStopBus]; completedCountsRef := ∅ |}, None))
      by (vm_compute; reflexivity).
    rewrite Hspawn in Hrun.
    destruct (run_lane_onPhase sampleMath threeStopNet [mkRouteAnalytics 1 1 10] laneWidth
                threeStopBus "A" "B" "C" (mkEdge "A" "B" 0 0) (mkEdge "B" "C" 0 0)
                (mkNode "A" 0 0 terminal) (mkNode "B" 100 0 stop) (mkNode "C" 200 0 terminal)
                eq_refl eq_refl eq_refl eq_refl eq_refl eq_refl
                threeStopWorld 0 (Leg1, 0%Q) times
                {| busesRef := [threeStopBus]; completedCountsRef := ∅ |}
                eq_refl eq_refl eq_refl)
      as (st' & outs' & Hrun' & Hcount' & _).
    { split; simpl; [done|]. eexists. split_and!; done. }
    rewrite Hrun' in Hrun. injection Hrun as <- _.
    simpl in Hcount'. rewrite Hcount in Hcount'.
    destruct (decide ((foldl phaseStep (Leg1, 0%Q) times).1 = Done)) as [Hdone|]; [|lia].
    destruct (phaseAfter_Done_late 0 times Hdone) as (time & Hin & Hlate).
    rewrite Forall_forall in Hbefore. specialize (Hbefore time Hin). simpl in Hbefore. lra.
Qed.
(** ** Dispatch schedule on fractional numbers *)

Lemma Num_spawnCount_empty rid : Num.spawnCount rid ∅ = 0.
Proof. unfold Num.spawnCount. by rewrite map_fold_empty. Qed.

Lemma Num_spawnCount_insert_fresh rid t l (s : gmap Qc (list Z)) :
  s !! t = None →
  Num.spawnCount rid (<[t:=l]> s)
  = length (filter (λ r, r = rid) l) + Num.spawnCount rid s.
Proof.
  intros Hnone. unfold Num.spawnCount.
  rewrite map_fold_insert_L; [done| |done]. intros. lia.
Qed.

Lemma Num_spawnCount_push rid r t (s : gmap Qc (list Z)) :
  Num.spawnCount rid (<[t := default [] (s !! t) ++ [r]]> s)
  = (if decide (r = rid) then 1 else 0) + Num.spawnCount rid s.
Proof.
  destruct (s !! t) as [l|] eqn:Hl; simpl.
  - rewrite <- (insert_delete_eq s t (l ++ [r])).
    rewrite <- (insert_delete_id s t l Hl) at 2.
    rewrite !Num_spawnCount_insert_fresh by apply lookup_delete_eq.
    rewrite filter_app, length_app, filter_cons, filter_nil.
    destruct (decide (r = rid)); simpl; lia.
  - rewrite Num_spawnCount_insert_fresh by done.
    rewrite filter_cons, filter_nil. destruct (decide (r = rid)); simpl; lia.
Qed.

(** [Math.floor(Math.random() * w)] for a width [w > 0]. *)
Lemma random_offset_width (r w : Q) :
  (0 <= r)%Q → (r < 1)%Q → (0 < w)%Q →
  (0 <= inject_Z (Qfloor (r * w)))%Q ∧ (inject_Z (Qfloor (r * w)) < w)%Q.
Proof.
  intros H0 H1 Hw. split.
  - change 0%Q with (inject_Z 0). rewrite <- Zle_Qle.
    change 0%Z with (Qfloor 0). apply Qfloor_resp_le. nra.
  - eapply Qle_lt_trans; [apply Qfloor_le|]. nra.
Qed.

Lemma isInteger_inject_Z (z : Z) : Num.isInteger (inject_Z z).
Proof. unfold Num.isInteger. by rewrite Qfloor_Z. Qed.

Lemma isInteger_iff (q : Q) : Num.isInteger q ↔ ∃ z, (q == inject_Z z)%Q.
Proof.
  split.
  - intros H. exists (Qfloor q). by symmetry.
  - intros [z Hz]. unfold Num.isInteger. rewrite (Qfloor_comp _ _ Hz), Qfloor_Z. by symmetry.
Qed.

Lemma Q2Qc_this (q : Q) : (this (Q2Qc q) == q)%Q.
Proof. simpl. apply Qred_correct. Qed.

Section NumScheduler.
Context (random : nat → Q) (totalCycles : Q).

Lemma Num_scheduleWindow_count route i st rid :
  Num.spawnCount rid (Num.scheduleWindow random totalCycles route i st).1
  ≤ (if decide (Num.route_id route = rid) then 1 else 0) + Num.spawnCount rid st.1.
Proof.
  unfold Num.scheduleWindow. destruct (Num.windowOpen _ _ _); simpl.
  - by rewrite Num_spawnCount_push.
  - lia.
Qed.

Lemma Num_scheduleWindows_count route trips i st rid :
  Num.spawnCount rid (Num.scheduleWindows random totalCycles route trips i st).1
  ≤ (if decide (Num.route_id route = rid) then trips else 0) + Num.spawnCount rid st.1.
Proof.
  revert i st. induction trips as [|trips IH]; intros i st; simpl.
  - destruct (decide _); lia.
  - etrans; [apply IH|].
    pose proof (Num_scheduleWindow_count route i st rid).
    destruct (decide (Num.route_id route = rid)); lia.
Qed.

Lemma Num_foldl_scheduleRoute_count routes st rid :
  Num.spawnCount rid (foldl (Num.scheduleRoute random totalCycles) st routes).1
  ≤ Num.tripsOf totalCycles rid routes + Num.spawnCount rid st.1.
Proof.
  revert st. induction routes as [|route routes IH]; intros st; simpl; [lia|].
  etrans; [apply IH|].
  pose proof (Num_scheduleWindows_count route
    (Num.loopTrips (Num.busesToSchedule totalCycles route)) 0 st rid) as Hroute.
  fold (Num.scheduleRoute random totalCycles st route) in Hroute.
  destruct (decide (Num.route_id route = rid)); lia.
Qed.

Lemma Num_tripsOf_unique routes route :
  NoDup (Num.route_id <$> routes) → route ∈ routes →
  Num.tripsOf totalCycles (Num.route_id route) routes
  = Num.loopTrips (Num.busesToSchedule totalCycles route).
Proof.
  induction routes as [|r routes IH]; intros Hnd Hin; [by apply elem_of_nil in Hin|].
  rewrite fmap_cons in Hnd. apply NoDup_cons in Hnd as [Hnotin Hnd].
  assert (Hzero : ∀ l, Num.route_id route ∉ (Num.route_id <$> l) →
                       Num.tripsOf totalCycles (Num.route_id route) l = 0).
  { induction l as [|a l IHl]; intros Hl; [done|]. simpl.
    rewrite fmap_cons in Hl. apply not_elem_of_cons in Hl as [Hne Hl].
    rewrite decide_False by done. by rewrite IHl. }
  simpl. apply elem_of_cons in Hin as [->|Hin].
  - rewrite decide_True by done. rewrite Hzero by done. lia.
  - rewrite decide_False.
    + by rewrite IH.
    + intros Heq. apply Hnotin. rewrite Heq. apply list_elem_of_fmap. eauto.
Qed.

(** Where the dispatch time of an open window lies. *)
Lemma dispatchTime_range freq i r :
  (0 <= r)%Q → (r < 1)%Q → (0 <= i)%Z →
  Num.windowOpen totalCycles freq i = true →
  (inject_Z i * freq <= Num.dispatchTime totalCycles freq i r)%Q
  ∧ (Num.dispatchTime totalCycles freq i r < (inject_Z i + 1) * freq)%Q
  ∧ (0 <= Num.dispatchTime totalCycles freq i r)%Q
  ∧ (Num.dispatchTime totalCycles freq i r < totalCycles)%Q
  ∧ ∃ k : Z, (Num.dispatchTime totalCycles freq i r == inject_Z k + inject_Z i * freq)%Q.
Proof.
  intros H0 H1 Hi Hopen.
  unfold Num.windowOpen in Hopen. apply Qgtb_spec in Hopen.
  unfold Num.dispatchTime.
  pose proof (Q.le_min_l ((inject_Z i + 1) * freq) totalCycles) as Hl.
  pose proof (Q.le_min_r ((inject_Z i + 1) * freq) totalCycles) as Hr.
  set (maxTime := Qmin ((inject_Z i + 1) * freq) totalCycles) in *.
  set (minTime := (inject_Z i * freq)%Q) in *.
  assert (Hw : (0 < maxTime - minTime)%Q) by lra.
  destruct (random_offset_width r (maxTime - minTime) H0 H1 Hw) as [Hlo Hhi].
  assert (Hipos : (0 <= inject_Z i)%Q).
  { change 0%Q with (inject_Z 0). by rewrite <- Zle_Qle. }
  assert (Hfreq : (0 < freq)%Q).
  { unfold minTime in *. nra. }
  assert (Hmin : (0 <= minTime)%Q) by (unfold minTime; nra).
  split_and!; try lra. by eexists.
Qed.

Lemma Num_scheduleWindow_keys (P : Q → Prop) route i st :
  (∀ x y, (x == y)%Q → P x → P y) →
  (Num.windowOpen totalCycles (Num.frequency_minutes route) i = true →
   P (Num.dispatchTime totalCycles (Num.frequency_minutes route) i (random st.2))) →
  (∀ (t : Qc) l, st.1 !! t = Some l → P t) →
  ∀ (t : Qc) l, (Num.scheduleWindow random totalCycles route i st).1 !! t = Some l → P t.
Proof.
  intros Hproper Hnew Hold t l. unfold Num.scheduleWindow.
  destruct (Num.windowOpen _ _ _) eqn:Hopen; [|apply Hold].
  simpl. intros Hl. apply lookup_insert_Some in Hl as [[<- _]|[_ Hl]]; [|by eapply Hold].
  eapply Hproper; [|by apply Hnew]. symmetry. apply Q2Qc_this.
Qed.

Lemma Num_scheduleWindows_keys (P : Q → Prop) route trips i st :
  (∀ x y, (x == y)%Q → P x → P y) →
  (∀ j r, (i <= j)%Z → (0 <= r)%Q → (r < 1)%Q →
     Num.windowOpen totalCycles (Num.frequency_minutes route) j = true →
     P (Num.dispatchTime totalCycles (Num.frequency_minutes route) j r)) →
  unitRandom random →
  (∀ (t : Qc) l, st.1 !! t = Some l → P t) →
  ∀ (t : Qc) l,
    (Num.scheduleWindows random totalCycles route trips i st).1 !! t = Some l → P t.
Proof.
  intros Hproper Hnew Hrand. revert i st Hnew.
  induction trips as [|trips IH]; intros i st Hnew Hold; [done|].
  simpl. apply IH.
  - intros j r Hj. apply Hnew. lia.
  - apply Num_scheduleWindow_keys; [done| |done].
    intros Hopen. destruct (Hrand st.2). by apply Hnew.
Qed.

Lemma Num_foldl_scheduleRoute_keys (P : Q → Prop) routes st :
  (∀ x y, (x == y)%Q → P x → P y) →
  Forall (λ route, ∀ j r, (0 <= j)%Z → (0 <= r)%Q → (r < 1)%Q →
            Num.windowOpen totalCycles (Num.frequency_minutes route) j = true →
            P (Num.dispatchTime totalCycles (Num.frequency_minutes route) j r)) routes →
  unitRandom random →
  (∀ (t : Qc) l, st.1 !! t = Some l → P t) →
  ∀ (t : Qc) l,
    (foldl (Num.scheduleRoute random totalCycles) st routes).1 !! t = Some l → P t.
Proof.
  intros Hproper Hall Hrand. revert st.
  induction Hall as [|route routes Hroute Hall IH]; intros st Hold; [done|].
  simpl. apply IH. unfold Num.scheduleRoute.
  by apply Num_scheduleWindows_keys.
Qed.

Lemma Num_loopTrips_busesToSchedule route :
  ¬ (Num.frequency_minutes route == 0)%Q →
  Z.of_nat (Num.loopTrips (Num.busesToSchedule totalCycles route))
  = Z.max 0 (Qceiling (Qmin (Num.buses_allocated route)
                         (inject_Z (Qfloor (totalCycles / Num.frequency_minutes route))))).
Proof.
  intros Hf. unfold Num.busesToSchedule, Num.Math_floor_div.
  destruct (Qeq_bool (Num.frequency_minutes route) 0) eqn:Hz.
  { by apply Qeq_bool_iff in Hz. }
  simpl. lia.
Qed.

End NumScheduler.

(** C2, as amended: for any numbers, each route entry adds at most as many
    spawns as its loop runs, the least whole number that is not below
    [min(allocated, floor(totalCycles / freq))] and not below [0] (none when
    that minimum is negative, [-Infinity] or [NaN]), so a route id that is
    listed once is scheduled at most that often; this is the claimed bound
    whenever the minimum is a whole number from [0] on. Every dispatch time
    lies in [[0, totalCycles)], and it is a whole number when the
    frequencies are. *)
Theorem generateDispatchSchedule_bounds (random : nat → Q) (totalCycles : Q)
    (routes : list Num.RouteAnalytics) :
  unitRandom random →
  (∀ rid, Num.spawnCount rid (Num.generateDispatchSchedule random totalCycles routes)
          ≤ Num.tripsOf totalCycles rid routes)
  ∧ (NoDup (Num.route_id <$> routes) → ∀ route, route ∈ routes →
       Num.spawnCount (Num.route_id route)
         (Num.generateDispatchSchedule random totalCycles routes)
       ≤ Num.loopTrips (Num.busesToSchedule totalCycles route))
  ∧ (∀ route, ¬ (Num.frequency_minutes route == 0)%Q →
       Z.of_nat (Num.loopTrips (Num.busesToSchedule totalCycles route))
       = Z.max 0 (Qceiling (Qmin (Num.buses_allocated route)
                              (inject_Z (Qfloor (totalCycles
                                                 / Num.frequency_minutes route))))))
  ∧ (∀ route q, Num.busesToSchedule totalCycles route = Num.Fin q →
       (0 <= q)%Q → Num.isInteger q → Num.isInteger (Num.frequency_minutes route) →
       Num.asClaimed random totalCycles route)
  ∧ (∀ (t : Qc) l,
       Num.generateDispatchSchedule random totalCycles routes !! t = Some l →
       (0 <= t)%Q ∧ (t < totalCycles)%Q)
  ∧ (Forall (λ route, Num.isInteger (Num.frequency_minutes route)) routes →
     ∀ (t : Qc) l,
       Num.generateDispatchSchedule random totalCycles routes !! t = Some l →
       Num.isInteger t).
Proof.
  intros Hrand.
  assert (Hcount : ∀ l rid,
            Num.spawnCount rid (Num.generateDispatchSchedule random totalCycles l)
            ≤ Num.tripsOf totalCycles rid l).
  { intros l rid. unfold Num.generateDispatchSchedule.
    pose proof (Num_foldl_scheduleRoute_count random totalCycles l (∅, 0) rid) as H.
    simpl in H. rewrite Num_spawnCount_empty in H. lia. }
  assert (Hrange : ∀ l (t : Qc) ids,
            Num.generateDispatchSchedule random totalCycles l !! t = Some ids →
            (0 <= t)%Q ∧ (t < totalCycles)%Q).
  { intros l. unfold Num.generateDispatchSchedule.
    apply (Num_foldl_scheduleRoute_keys random totalCycles
             (λ x, (0 <= x)%Q ∧ (x < totalCycles)%Q)); [| |done|].
    - intros x y Hxy [H0 H1]. rewrite <- Hxy. done.
    - apply Forall_forall. intros route _ j r Hj H0 H1 Hopen.
      destruct (dispatchTime_range totalCycles _ j r H0 H1 Hj Hopen)
        as (_ & _ & Hlo & Hhi & _). done.
    - intros t ids H. simpl in H. by rewrite lookup_empty in H. }
  assert (Hwhole : ∀ l, Forall (λ route, Num.isInteger (Num.frequency_minutes route)) l →
            ∀ (t : Qc) ids,
              Num.generateDispatchSchedule random totalCycles l !! t = Some ids →
              Num.isInteger t).
  { intros l Hall. unfold Num.generateDispatchSchedule.
    apply (Num_foldl_scheduleRoute_keys random totalCycles Num.isInteger); [| |done|].
    - intros x y Hxy Hx. apply isInteger_iff in Hx as [z Hz].
      apply isInteger_iff. exists z. by rewrite <- Hxy.
    - eapply Forall_impl; [exact Hall|]. intros route Hf j r Hj H0 H1 Hopen.
      destruct (dispatchTime_range totalCycles _ j r H0 H1 Hj Hopen)
        as (_ & _ & _ & _ & k & Hk).
      apply isInteger_iff in Hf as [f Hf]. apply isInteger_iff.
      exists (k + j * f)%Z. rewrite Hk, Hf, inject_Z_plus, inject_Z_mult. reflexivity.
    - intros t ids H. simpl in H. by rewrite lookup_empty in H. }
  split_and!.
  - apply Hcount.
  - intros Hnd route Hin. rewrite <- (Num_tripsOf_unique totalCycles routes route) by done.
    apply Hcount.
  - intros route. apply Num_loopTrips_busesToSchedule.
  - intros route q Hq Hpos Hint Hfreq. unfold Num.asClaimed. cbv zeta. split.
    + rewrite Hq. simpl.
      pose proof (Hcount [route] (Num.route_id route)) as H. simpl in H.
      rewrite decide_True in H by done. rewrite Hq in H. simpl in H.
      apply isInteger_iff in Hint as [z Hz].
      rewrite (Qceiling_comp _ _ Hz), Qceiling_Z in H. rewrite Hz.
      rewrite <- Zle_Qle.
      assert (0 <= z)%Z; [|lia].
      rewrite Hz in Hpos. change 0%Q with (inject_Z 0) in Hpos. by rewrite <- Zle_Qle in Hpos.
    + intros t l Hl. destruct (Hrange [route] t l Hl) as [H0 H1].
      split_and!; try done. apply (Hwhole [route]) with l; [|done].
      by apply Forall_singleton.
  - apply Hrange.
  - apply Hwhole.
Qed.

Lemma generateDispatchSchedule_bounds_witness :
  Num.spawnCount 1
    (Num.generateDispatchSchedule (λ _, 1 # 2)%Q 10 [Num.mkRouteAnalytics 1 3 (5 # 2)])
  ≤ Num.tripsOf 10 1 [Num.mkRouteAnalytics 1 3 (5 # 2)].
Proof.
  assert (Hrand : unitRandom (λ _, 1 # 2)%Q).
  { intros k. split; [discriminate|reflexivity]. }
  exact (proj1 (generateDispatchSchedule_bounds (λ _, 1 # 2)%Q 10
                  [Num.mkRouteAnalytics 1 3 (5 # 2)] Hrand) 1%Z).
Defined.

(** C2 as stated fails in three ways. For the horizon [-5] nothing is
    scheduled and the claimed bound [Math.min(3, Math.floor(-5 / 10))] is
    [-1]. For the frequency [2.5] and the horizon [10] the second window
    dispatches at [3.5], which is no integer. For the allocation [2.5] the
    loop runs for [i = 0, 1, 2] and schedules [3] buses. *)
Lemma generateDispatchSchedule_not_as_claimed :
  ¬ Num.asClaimed (λ _, 0)%Q (-5) (Num.mkRouteAnalytics 1 3 10)
  ∧ ¬ Num.asClaimed (λ _, 1 # 2)%Q 10 (Num.mkRouteAnalytics 1 3 (5 # 2))
  ∧ ¬ Num.asClaimed (λ _, 0)%Q 10 (Num.mkRouteAnalytics 1 (5 # 2) 1).
Proof.
  split_and!.
  - intros [H _]. vm_compute in H. by apply H.
  - intros [_ H].
    assert (Hl : Num.generateDispatchSchedule (λ _, 1 # 2)%Q 10
                   [Num.mkRouteAnalytics 1 3 (5 # 2)] !! Q2Qc (7 # 2) = Some [1%Z]).
    { vm_compute. reflexivity. }
    destruct (H _ _ Hl) as [Hint _]. vm_compute in Hint. discriminate.
  - intros [H _]. vm_compute in H. by apply H.
Qed.

(** The three schedules of the lemma above. *)
Example generateDispatchSchedule_fractions :
  Num.generateDispatchSchedule (λ _, 1 # 2)%Q 10 [Num.mkRouteAnalytics 1 3 (5 # 2)]
    !! Q2Qc (7 # 2) = Some [1%Z]
  ∧ Num.spawnCount 1
      (Num.generateDispatchSchedule (λ _, 0)%Q 10 [Num.mkRouteAnalytics 1 (5 # 2) 1]) = 3
  ∧ Num.spawnCount 1
      (Num.generateDispatchSchedule (λ _, 0)%Q (-5) [Num.mkRouteAnalytics 1 3 10]) = 0.
Proof. split_and!; vm_compute; reflexivity. Qed.

(** *** Whole numbers *)

#[global] Instance secondKey_inj : Inj (=) (=) secondKey.
Proof.
  intros a b H. unfold secondKey in H. apply Q2Qc_eq_iff in H.
  by apply inject_Z_injective.
Qed.

Lemma Qmin_inject_Z (a b : Z) : (Qmin (inject_Z a) (inject_Z b) == inject_Z (Z.min a b))%Q.
Proof.
  destruct (Z.le_ge_cases a b) as [Hle|Hge].
  - rewrite Z.min_l by done. apply Q.min_l. by rewrite <- Zle_Qle.
  - rewrite Z.min_r by lia. apply Q.min_r. rewrite <- Zle_Qle. lia.
Qed.

Lemma windowEnd_whole (i f : Z) :
  ((inject_Z i + 1) * inject_Z f == inject_Z ((i + 1) * f))%Q.
Proof. rewrite inject_Z_mult, inject_Z_plus. reflexivity. Qed.

Lemma windowOpen_whole (h f i : Z) :
  Num.windowOpen (inject_Z h) (inject_Z f) i = windowOpen h f i.
Proof.
  unfold Num.windowOpen, windowOpen. apply eq_true_iff_eq.
  rewrite Qgtb_spec, Z.gtb_ltb, Z.ltb_lt.
  rewrite windowEnd_whole, Qmin_inject_Z, <- inject_Z_mult. by rewrite <- Zlt_Qlt.
Qed.

Lemma dispatchTime_whole (h f i : Z) (r : Q) :
  Q2Qc (Num.dispatchTime (inject_Z h) (inject_Z f) i r)
  = secondKey (Qfloor (r * inject_Z (Z.min ((i + 1) * f) h - i * f)) + i * f).
Proof.
  unfold secondKey, Num.dispatchTime. apply Q2Qc_eq_iff.
  assert (Hw : (Qmin ((inject_Z i + 1) * inject_Z f) (inject_Z h) - inject_Z i * inject_Z f
                == inject_Z (Z.min ((i + 1) * f) h - i * f))%Q).
  { rewrite windowEnd_whole, Qmin_inject_Z, <- inject_Z_mult.
    unfold Z.sub. rewrite inject_Z_plus, inject_Z_opp. reflexivity. }
  rewrite (Qfloor_comp _ _ (Qmult_comp _ _ (Qeq_refl r) _ _ Hw)).
  rewrite inject_Z_plus, inject_Z_mult. reflexivity.
Qed.

Lemma loopTrips_whole (h : Z) (route : RouteAnalytics) :
  Num.loopTrips (Num.busesToSchedule (inject_Z h) (whole route))
  = loopTrips (busesToSchedule h route).
Proof.
  unfold Num.busesToSchedule, busesToSchedule, Num.Math_floor_div, Math_floor_div.
  cbn [whole Num.buses_allocated Num.frequency_minutes].
  assert (Hz : Qeq_bool (inject_Z (frequency_minutes route)) 0
               = (frequency_minutes route =? 0)%Z).
  { apply eq_true_iff_eq. rewrite Qeq_bool_iff, Z.eqb_eq.
    change 0%Q with (inject_Z 0). by rewrite inject_Z_injective. }
  assert (Hpos : Qgtb (inject_Z h) 0 = (0 <? h)%Z).
  { apply eq_true_iff_eq. rewrite Qgtb_spec, Z.ltb_lt.
    change 0%Q with (inject_Z 0). by rewrite <- Zlt_Qlt. }
  assert (Hneg : Qgtb 0 (inject_Z h) = (h <? 0)%Z).
  { apply eq_true_iff_eq. rewrite Qgtb_spec, Z.ltb_lt.
    change 0%Q with (inject_Z 0). by rewrite <- Zlt_Qlt. }
  rewrite Hz, Hpos, Hneg.
  destruct (frequency_minutes route =? 0)%Z.
  - destruct (0 <? h)%Z; [simpl; by rewrite Qceiling_Z|]. by destruct (h <? 0)%Z.
  - rewrite <- Zdiv_Qdiv. cbn [Num.Math_min Math_min Num.loopTrips loopTrips].
    by rewrite (Qceiling_comp _ _ (Qmin_inject_Z _ _)), Qceiling_Z.
Qed.

Section Whole.
Context (random : nat → Q) (h : Z).

Lemma scheduleWindow_whole route i (st : SchedState) :
  Num.scheduleWindow random (inject_Z h) (whole route) i (kmap secondKey st.1, st.2)
  = (kmap secondKey (scheduleWindow random h route i st).1,
     (scheduleWindow random h route i st).2).
Proof.
  unfold Num.scheduleWindow, scheduleWindow.
  cbn [fst snd whole Num.frequency_minutes Num.route_id].
  rewrite windowOpen_whole. unfold windowOpen. cbv zeta.
  destruct (_ >? _)%Z; [|done]. cbn [fst snd].
  rewrite dispatchTime_whole, lookup_kmap, kmap_insert; [done|apply _..].
Qed.

Lemma scheduleWindows_whole route trips i (st : SchedState) :
  Num.scheduleWindows random (inject_Z h) (whole route) trips i (kmap secondKey st.1, st.2)
  = (kmap secondKey (scheduleWindows random h route trips i st).1,
     (scheduleWindows random h route trips i st).2).
Proof.
  revert i st. induction trips as [|trips IH]; intros i st; [done|].
  simpl. rewrite scheduleWindow_whole. apply IH.
Qed.

Lemma foldl_scheduleRoute_whole routes (st : SchedState) :
  foldl (Num.scheduleRoute random (inject_Z h)) (kmap secondKey st.1, st.2) (whole <$> routes)
  = (kmap secondKey (foldl (scheduleRoute random h) st routes).1,
     (foldl (scheduleRoute random h) st routes).2).
Proof.
  revert st. induction routes as [|route routes IH]; intros st; [done|].
  rewrite fmap_cons. simpl. unfold Num.scheduleRoute at 2, scheduleRoute at 2 4.
  rewrite loopTrips_whole, scheduleWindows_whole. apply IH.
Qed.

End Whole.

(** For whole numbers the schedule is the one of [generateDispatchSchedule]
    above, under the keys of the seconds. *)
Lemma generateDispatchSchedule_whole (random : nat → Q) (h : Z)
    (routes : list RouteAnalytics) :
  Num.generateDispatchSchedule random (inject_Z h) (whole <$> routes)
  = kmap secondKey (generateDispatchSchedule random h routes).
Proof.
  unfold Num.generateDispatchSchedule, generateDispatchSchedule.
  pose proof (foldl_scheduleRoute_whole random h routes (∅, 0)) as H.
  simpl in H. rewrite kmap_empty in H. by rewrite H.
Qed.

(** * Part III: further properties *)

(** ** Graph search: the route as the animation reads it *)

Lemma findPath_post edges startId endId r :
  findPath startId endId edges = Some r → bfsPost edges startId endId r.
Proof.
  unfold findPath, findPath_fuel.
  destruct (decide (startId = endId)) as [->|Hne].
  - intros [= <-]. simpl. split; [by exists []|]. intros k _. unfold edgeCount. simpl. lia.
  - intros Hrun. apply (bfsLoop_correct edges startId endId) in Hrun; [done|].
    exists 0, [(startId, [startId])], []. split; [done|]. apply bfsInv_init.
Qed.

Lemma findPath_total edges startId endId :
  ∃ r, findPath startId endId edges = Some r.
Proof.
  unfold findPath, findPath_fuel. destruct (decide (startId = endId)); [eauto|].
  apply bfsLoop_terminates. unfold bfsMeasure. simpl.
  pose proof (size_targets edges).
  assert (size (targets edges ∖ ∅) ≤ size (targets edges)) by (apply subseteq_size; set_solver).
  lia.
Qed.

Lemma hasEdge_findEdge edges a b :
  hasEdge edges a b →
  ∃ e, findEdge edges a b = Some e ∧ e ∈ edges ∧ from e = a ∧ to e = b.
Proof.
  intros (e0 & Hin & Hf & Ht). destruct (findEdge edges a b) as [e|] eqn:Hfind.
  - exists e. split; [done|]. by apply findEdge_Some.
  - unfold findEdge in Hfind. apply list_elem_of_In in Hin.
    pose proof (find_none _ _ Hfind e0 Hin) as Hno. simpl in Hno.
    rewrite !bool_decide_eq_true_2 in Hno by done. done.
Qed.

Lemma isPathFrom_lookup edges a rest b i x y :
  isPathFrom edges a rest b →
  (a :: rest) !! i = Some x → (a :: rest) !! S i = Some y → hasEdge edges x y.
Proof.
  revert a i. induction rest as [|c rest IH]; intros a i Hp Hx Hy.
  - destruct i; simpl in Hy; done.
  - destruct Hp as [Hac Hp]. destruct i as [|i].
    + simpl in Hx, Hy. by simplify_eq.
    + simpl in Hx. by apply (IH c i).
Qed.

Lemma isPathFrom_last edges a rest b :
  isPathFrom edges a rest b → last (a :: rest) = Some b.
Proof.
  revert a. induction rest as [|c rest IH]; intros a Hp.
  - simpl in Hp. by subst.
  - destruct Hp as [_ Hp]. rewrite last_cons_cons. by apply IH.
Qed.

(** X1: a route found by [findPath] starts at the origin and ends at the
    destination, and for each pair of consecutive stops the lookup
    [EDGES.find(e => e.from === fromId && e.to === toId)] of the animation
    finds an edge with these two ends. *)
Theorem findPath_route_is_drivable (edges : list Edge) (startId endId : string)
    (p : list string) :
  findPath startId endId edges = Some (Some p) →
  head p = Some startId
  ∧ last p = Some endId
  ∧ ∀ i fromId toId, p !! i = Some fromId → p !! S i = Some toId →
      ∃ e, findEdge edges fromId toId = Some e ∧ e ∈ edges
           ∧ from e = fromId ∧ to e = toId.
Proof.
  intros Hfind. apply findPath_post in Hfind as [(rest & -> & Hpath) _].
  split_and!.
  - done.
  - by eapply isPathFrom_last.
  - intros i fromId toId Hi HSi. apply hasEdge_findEdge.
    by eapply isPathFrom_lookup.
Qed.

Lemma findPath_route_is_drivable_witness :
  ∃ e, findEdge constants_EDGES "B3" "B6" = Some e ∧ e ∈ constants_EDGES
       ∧ from e = "B3" ∧ to e = "B6".
Proof.
  assert (Hfind : findPath "B1" "B9" constants_EDGES
                  = Some (Some ["B1"; "B2"; "B3"; "B6"; "B8"; "B9"])).
  { vm_compute. reflexivity. }
  exact (proj2 (proj2 (findPath_route_is_drivable constants_EDGES "B1" "B9" _ Hfind))
           2 "B3" "B6" eq_refl eq_refl).
Defined.


Lemma isPathFrom_app edges a r1 x r2 b :
  isPathFrom edges a (r1 ++ x :: r2) b ↔
  isPathFrom edges a (r1 ++ [x]) x ∧ isPathFrom edges x r2 b.
Proof.
  revert a. induction r1 as [|c r1 IH]; intros a; simpl.
  - naive_solver.
  - rewrite IH. naive_solver.
Qed.

(** A walk that visits a stop twice has a shorter walk between its ends. *)
Lemma isPath_shortcut edges startId endId p :
  isPath edges startId p endId → ¬ NoDup p →
  ∃ p', isPath edges startId p' endId ∧ length p' < length p.
Proof.
  intros (rest & -> & Hp) Hdup.
  assert (Hcase : startId ∈ rest ∨ ¬ NoDup rest).
  { destruct (decide (startId ∈ rest)); [by left|right].
    intros Hnd. apply Hdup. by constructor. }
  destruct Hcase as [Hin|Hrest].
  - apply list_elem_of_split in Hin as (r1 & r2 & ->).
    apply isPathFrom_app in Hp as [_ Hp].
    exists (startId :: r2). split; [by exists r2|].
    simpl. rewrite length_app. simpl. lia.
  - assert (Hsplit : ∃ x r1 r2 r3, rest = r1 ++ x :: r2 ++ x :: r3).
    { clear Hp Hdup. induction rest as [|c rest IH]; [destruct Hrest; constructor|].
      destruct (decide (c ∈ rest)) as [Hc|Hc].
      - apply list_elem_of_split in Hc as (r2 & r3 & ->). by exists c, [], r2, r3.
      - destruct IH as (x & r1 & r2 & r3 & ->).
        { intros Hnd. apply Hrest. by constructor. }
        by exists x, (c :: r1), r2, r3. }
    destruct Hsplit as (x & r1 & r2 & r3 & ->).
    apply isPathFrom_app in Hp as [Hp1 Hp2].
    apply isPathFrom_app in Hp2 as [_ Hp3].
    exists (startId :: r1 ++ x :: r3). split.
    + exists (r1 ++ x :: r3). split; [done|]. by apply isPathFrom_app.
    + simpl. repeat (rewrite length_app; simpl). lia.
Qed.

Lemma findPath_NoDup edges startId endId p :
  findPath startId endId edges = Some (Some p) → NoDup p.
Proof.
  intros Hfind. apply findPath_post in Hfind as [Hpath Hmin].
  destruct (decide (NoDup p)) as [|Hdup]; [done|].
  destruct (isPath_shortcut edges startId endId p Hpath Hdup) as (p' & Hp' & Hlen).
  pose proof Hp' as (rest' & -> & _).
  apply isPath_reach, Hmin in Hp'. unfold edgeCount in Hp'.
  destruct Hpath as (rest & -> & _). simpl in *. lia.
Qed.

(** X2: a route found by [findPath] visits no stop twice. *)
Theorem findPath_route_is_simple (edges : list Edge) (startId endId : string)
    (p : list string) :
  findPath startId endId edges = Some (Some p) → NoDup p.
Proof. apply findPath_NoDup. Qed.

Lemma findPath_route_is_simple_witness :
  NoDup ["B1"; "B2"; "B3"; "B6"; "B8"; "B9"].
Proof.
  apply (findPath_route_is_simple constants_EDGES "B1" "B9").
  vm_compute. reflexivity.
Defined.

Lemma hasEdge_subseteq edges edges' a b :
  edges ⊆ edges' → hasEdge edges a b → hasEdge edges' a b.
Proof. intros Hsub (e & Hin & ?). exists e. split; [by apply Hsub|done]. Qed.

Lemma isPathFrom_subseteq edges edges' a rest b :
  edges ⊆ edges' → isPathFrom edges a rest b → isPathFrom edges' a rest b.
Proof.
  intros Hsub. revert a. induction rest as [|c rest IH]; intros a; simpl; [done|].
  intros [Hac Hp]. split; [by eapply hasEdge_subseteq|by apply IH].
Qed.

(** X3: more edges never hurt. When every edge of [edges] is among
    [edges'] and [findPath] finds a route over [edges], it finds one over
    [edges'] too, with no more edges than the first. *)
Theorem findPath_more_edges (edges edges' : list Edge) (startId endId : string)
    (p : list string) :
  edges ⊆ edges' →
  findPath startId endId edges = Some (Some p) →
  ∃ p', findPath startId endId edges' = Some (Some p')
        ∧ edgeCount p' ≤ edgeCount p.
Proof.
  intros Hsub Hfind. apply findPath_post in Hfind as [(rest & -> & Hpath) _].
  assert (Hpath' : isPath edges' startId (startId :: rest) endId).
  { exists rest. split; [done|]. by eapply isPathFrom_subseteq. }
  destruct (findPath_total edges' startId endId) as [[p'|] Hr].
  - exists p'. split; [done|]. apply findPath_post in Hr as [_ Hmin].
    apply Hmin. by apply isPath_reach.
  - apply findPath_post in Hr. simpl in Hr. apply isPath_reach in Hpath'.
    by apply Hr in Hpath'.
Qed.

Lemma findPath_more_edges_witness :
  ∃ p', findPath "B1" "B7" (mkEdge "B1" "B7" 0 0 :: constants_EDGES) = Some (Some p')
        ∧ edgeCount p' ≤ edgeCount ["B1"; "B2"; "B3"; "B6"; "B7"].
Proof.
  apply (findPath_more_edges constants_EDGES (mkEdge "B1" "B7" 0 0 :: constants_EDGES)).
  - intros e He. by apply elem_of_cons; right.
  - vm_compute. reflexivity.
Defined.

Lemma isPathFrom_enters edges a rest b :
  isPathFrom edges a rest b → rest ≠ [] → ∃ e, e ∈ edges ∧ to e = b.
Proof.
  revert a. induction rest as [|c rest IH]; intros a Hp Hne; [done|].
  destruct Hp as [(e & He & _ & Ht) Hp]. destruct rest as [|d rest].
  - simpl in Hp. subst. eauto.
  - by apply (IH c).
Qed.

(** X4: ids that the edge list does not connect. For distinct ids,
    [findPath] returns [null] when no edge leaves the origin, and when no
    edge enters the destination; so it does for an id that no edge mentions
    and for an empty edge list. *)
Theorem findPath_dead_end (edges : list Edge) (startId endId : string) :
  startId ≠ endId →
  (∀ e, e ∈ edges → from e ≠ startId) ∨ (∀ e, e ∈ edges → to e ≠ endId) →
  findPath startId endId edges = Some None.
Proof.
  intros Hne Hdead. destruct (findPath_total edges startId endId) as [[p|] Hr]; [|done].
  apply findPath_post in Hr as [(rest & -> & Hpath) _]. exfalso.
  destruct Hdead as [Hout|Hin].
  - destruct rest as [|c rest]; simpl in Hpath; [done|].
    destruct Hpath as [(e & He & Hf & _) _]. by apply (Hout e).
  - destruct rest as [|c rest]; simpl in Hpath; [done|].
    destruct (isPathFrom_enters edges startId (c :: rest) endId) as (e & He & Ht);
      [done..|]. by apply (Hin e).
Qed.

Lemma findPath_dead_end_witness :
  findPath "B9" "B1" constants_EDGES = Some None.
Proof.
  apply findPath_dead_end; [done|]. left. intros e He. unfold constants_EDGES in He.
  repeat (apply elem_of_cons in He as [->|He]; [done|]).
  by apply elem_of_nil in He.
Defined.

(** ** Geometry: control point, straight edges and heading *)

Open Scope Q_scope.

(** X5: an edge with [controlPointOffset] [{x: 0, y: 0}] is a straight line:
    with the control point of [calculateControlPoint] the curve point at [t]
    is the point at fraction [t] of the segment, and the tangent is the same
    vector [p2 - p0] for every [t]. *)
Theorem zero_offset_is_straight_line (t : Q) (p0 p2 : Point) :
  Point_eq (getQuadraticBezierPoint t p0 (calculateControlPoint p0 p2 origin) p2)
           (lerp t p0 p2)
  ∧ Point_eq (bezierDerivative t p0 (calculateControlPoint p0 p2 origin) p2)
             {| Point_x := Point_x p2 - Point_x p0; Point_y := Point_y p2 - Point_y p0 |}.
Proof.
  unfold Point_eq, getQuadraticBezierPoint, bezierDerivative, calculateControlPoint,
    lerp, origin. simpl. split_and!; field.
Qed.

(** X6: the curve is the same road in both directions: the control point
    does not depend on the order of the two ends, and the point at [t] from
    [p0] to [p2] is the point at [1 - t] from [p2] to [p0]. *)
Theorem bezier_reversal (t : Q) (p0 p2 offset : Point) :
  Point_eq (calculateControlPoint p0 p2 offset) (calculateControlPoint p2 p0 offset)
  ∧ Point_eq
      (getQuadraticBezierPoint t p0 (calculateControlPoint p0 p2 offset) p2)
      (getQuadraticBezierPoint (1 - t) p2 (calculateControlPoint p2 p0 offset) p0).
Proof.
  unfold Point_eq, getQuadraticBezierPoint, calculateControlPoint. simpl.
  split_and!; field.
Qed.

(** X7: halfway along an edge ([t = 0.5], where the direction arrow is
    drawn) the curve is at the midpoint of the two ends plus half the
    [controlPointOffset], and the tangent there is parallel to the chord. *)
Theorem bezier_halfway (p0 p2 offset : Point) :
  Point_eq (getQuadraticBezierPoint (1 # 2) p0 (calculateControlPoint p0 p2 offset) p2)
           {| Point_x := (Point_x p0 + Point_x p2) / 2 + Point_x offset / 2;
              Point_y := (Point_y p0 + Point_y p2) / 2 + Point_y offset / 2 |}
  ∧ Point_eq (bezierDerivative (1 # 2) p0 (calculateControlPoint p0 p2 offset) p2)
             {| Point_x := Point_x p2 - Point_x p0; Point_y := Point_y p2 - Point_y p0 |}.
Proof.
  unfold Point_eq, getQuadraticBezierPoint, bezierDerivative, calculateControlPoint.
  simpl. split_and!; field.
Qed.

(** X8: the heading is the direction of travel. [getQuadraticBezierAngle]
    applies [Math.atan2] to [bezierDerivative], and that vector is the
    derivative of [getQuadraticBezierPoint]: the displacement between the
    curve points at [s] and [t] is [t - s] times the vector at the middle
    parameter. At the two ends it points from [p0] to the control point and
    from the control point to [p2]. *)
Theorem heading_is_tangent (M : MathLib) (s t : Q) (p0 p1 p2 : Point) :
  getQuadraticBezierAngle M t p0 p1 p2
  = Math_atan2 M (Point_y (bezierDerivative t p0 p1 p2))
                 (Point_x (bezierDerivative t p0 p1 p2)) * 180 / Math_PI M
  ∧ Point_x (getQuadraticBezierPoint t p0 p1 p2) - Point_x (getQuadraticBezierPoint s p0 p1 p2)
    == (t - s) * Point_x (bezierDerivative ((s + t) / 2) p0 p1 p2)
  ∧ Point_y (getQuadraticBezierPoint t p0 p1 p2) - Point_y (getQuadraticBezierPoint s p0 p1 p2)
    == (t - s) * Point_y (bezierDerivative ((s + t) / 2) p0 p1 p2)
  ∧ Point_eq (bezierDerivative 0 p0 p1 p2)
             {| Point_x := 2 * (Point_x p1 - Point_x p0);
                Point_y := 2 * (Point_y p1 - Point_y p0) |}
  ∧ Point_eq (bezierDerivative 1 p0 p1 p2)
             {| Point_x := 2 * (Point_x p2 - Point_x p1);
                Point_y := 2 * (Point_y p2 - Point_y p1) |}.
Proof.
  split; [reflexivity|].
  unfold Point_eq, getQuadraticBezierPoint, bezierDerivative. simpl.
  split_and!; field.
Qed.

Close Scope Q_scope.

(** ** Dispatch schedule: exact counts and headway *)

Lemma spawnsIn_empty rid lo hi : spawnsIn rid lo hi ∅ = 0.
Proof. unfold spawnsIn. by rewrite map_fold_empty. Qed.

Lemma spawnsIn_insert_fresh rid lo hi t l (s : gmap Z (list Z)) :
  s !! t = None →
  spawnsIn rid lo hi (<[t:=l]> s)
  = (if bool_decide (lo <= t < hi)%Z then length (filter (λ r, r = rid) l) else 0)
    + spawnsIn rid lo hi s.
Proof.
  intros Hnone. unfold spawnsIn.
  rewrite map_fold_insert_L; [done| |done]. intros. lia.
Qed.

Lemma spawnsIn_push rid lo hi r t (s : gmap Z (list Z)) :
  spawnsIn rid lo hi (<[t := default [] (s !! t) ++ [r]]> s)
  = (if bool_decide (lo <= t < hi)%Z then if decide (r = rid) then 1 else 0 else 0)
    + spawnsIn rid lo hi s.
Proof.
  destruct (s !! t) as [l|] eqn:Hl; simpl.
  - rewrite <- (insert_delete_eq s t (l ++ [r])).
    rewrite <- (insert_delete_id s t l Hl) at 2.
    rewrite !spawnsIn_insert_fresh by apply lookup_delete_eq.
    rewrite filter_app, length_app, filter_cons, filter_nil.
    destruct (bool_decide _); destruct (decide (r = rid)); simpl; lia.
  - rewrite spawnsIn_insert_fresh by done.
    rewrite filter_cons, filter_nil.
    destruct (bool_decide _); destruct (decide (r = rid)); simpl; lia.
Qed.

Section SchedulerExact.
Context (random : nat → Q) (totalCycles : Z).

(** With a positive frequency every window the loop visits is open. *)
Lemma windowOpen_visited route i :
  (0 < frequency_minutes route)%Z → (0 <= i)%Z →
  (i < Z.of_nat (loopTrips (busesToSchedule totalCycles route)))%Z →
  windowOpen totalCycles (frequency_minutes route) i = true
  ∧ ((i + 1) * frequency_minutes route <= totalCycles)%Z.
Proof.
  intros Hf Hi Hlt. rewrite loopTrips_busesToSchedule in Hlt by lia.
  assert (Hdiv : (i + 1 <= totalCycles / frequency_minutes route)%Z) by lia.
  assert (Hend : ((i + 1) * frequency_minutes route <= totalCycles)%Z).
  { pose proof (Z.mul_div_le totalCycles (frequency_minutes route) Hf).
    assert ((i + 1) * frequency_minutes route
            <= frequency_minutes route * (totalCycles / frequency_minutes route))%Z by nia.
    lia. }
  split; [|done]. unfold windowOpen. rewrite Z.gtb_ltb. apply Z.ltb_lt.
  assert (((i + 1) * frequency_minutes route
           = i * frequency_minutes route + frequency_minutes route)%Z) by ring.
  lia.
Qed.





(** The spawn of window [i] falls in the window. *)
Lemma scheduleWindow_spawnsIn route i st rid lo hi :
  unitRandom random → (0 < frequency_minutes route)%Z →
  windowOpen totalCycles (frequency_minutes route) i = true →
  ((i + 1) * frequency_minutes route <= totalCycles)%Z →
  ∃ t, (i * frequency_minutes route <= t < (i + 1) * frequency_minutes route)%Z
       ∧ spawnsIn rid lo hi (scheduleWindow random totalCycles route i st).1
         = (if bool_decide (lo <= t < hi)%Z
            then if decide (route_id route = rid) then 1 else 0 else 0)
           + spawnsIn rid lo hi st.1.
Proof.
  intros Hrand Hf Hopen Hend. unfold windowOpen in Hopen. unfold scheduleWindow.
  rewrite Hopen. simpl. eexists. split; [|apply spawnsIn_push].
  apply Z.gtb_lt in Hopen.
  destruct (Hrand st.2) as [H0 H1].
  pose proof (random_offset_range (random st.2)
    (Z.min ((i + 1) * frequency_minutes route) totalCycles - i * frequency_minutes route)
    H0 H1 ltac:(lia)) as Hoff. simpl in Hoff.
  lia.
Qed.

Lemma scheduleWindows_spawnsIn route trips i st rid j :
  unitRandom random → (0 < frequency_minutes route)%Z → (0 <= i)%Z →
  (∀ k, (i <= k < i + Z.of_nat trips)%Z →
        windowOpen totalCycles (frequency_minutes route) k = true
        ∧ ((k + 1) * frequency_minutes route <= totalCycles)%Z) →
  spawnsIn rid (j * frequency_minutes route) ((j + 1) * frequency_minutes route)
    (scheduleWindows random totalCycles route trips i st).1
  = (if decide (route_id route = rid)
     then if bool_decide (i <= j < i + Z.of_nat trips)%Z then 1 else 0 else 0)
    + spawnsIn rid (j * frequency_minutes route) ((j + 1) * frequency_minutes route) st.1.
Proof.
  intros Hrand Hf. revert i st.
  induction trips as [|trips IH]; intros i st Hi Hopen; simpl.
  - rewrite bool_decide_eq_false_2 by lia. by destruct (decide _).
  - rewrite IH; [|lia|intros k Hk; apply Hopen; lia].
    destruct (Hopen i ltac:(lia)) as [Ho He].
    destruct (scheduleWindow_spawnsIn route i st rid
                (j * frequency_minutes route) ((j + 1) * frequency_minutes route)
                Hrand Hf Ho He) as (t & Ht & ->).
    assert (Hiff : (j * frequency_minutes route <= t < (j + 1) * frequency_minutes route)%Z
                   ↔ j = i).
    { split; [|intros ->; done]. intros Hj.
      destruct (Z.lt_trichotomy j i) as [Hlt|[Heq|Hgt]]; [|done|].
      - assert ((j + 1) * frequency_minutes route <= i * frequency_minutes route)%Z by nia.
        lia.
      - assert ((i + 1) * frequency_minutes route <= j * frequency_minutes route)%Z by nia.
        lia. }
    destruct (decide (route_id route = rid)).
    + repeat case_bool_decide; try lia; exfalso; try (apply Hiff in H0; lia);
        try (destruct (decide (j = i)) as [->|]; [apply H0; by apply Hiff|lia]).
    + repeat case_bool_decide; lia.
Qed.

Lemma scheduleWindows_spawnsIn_other route trips i st rid lo hi :
  route_id route ≠ rid →
  spawnsIn rid lo hi (scheduleWindows random totalCycles route trips i st).1
  = spawnsIn rid lo hi st.1.
Proof.
  intros Hne. revert i st. induction trips as [|trips IH]; intros i st; simpl; [done|].
  rewrite IH. unfold scheduleWindow. destruct (_ >? _)%Z; [|done]. simpl.
  rewrite spawnsIn_push. rewrite (decide_False _ _ Hne). by destruct (bool_decide _).
Qed.

Lemma foldl_scheduleRoute_spawnsIn_other routes st rid lo hi :
  rid ∉ (route_id <$> routes) →
  spawnsIn rid lo hi (foldl (scheduleRoute random totalCycles) st routes).1
  = spawnsIn rid lo hi st.1.
Proof.
  revert st. induction routes as [|route routes IH]; intros st Hnot; simpl; [done|].
  rewrite fmap_cons in Hnot. apply not_elem_of_cons in Hnot as [Hne Hnot].
  rewrite IH by done. unfold scheduleRoute.
  by apply scheduleWindows_spawnsIn_other.
Qed.




End SchedulerExact.



(** X10: one bus per frequency window. For a route listed once with a
    positive frequency, and draws of [Math.random] in [[0, 1)], the seconds
    [[j * freq, (j + 1) * freq)] of window [j] hold exactly one spawn of the
    route when [j] is below the number of scheduled buses, and none
    otherwise. *)
Theorem generateDispatchSchedule_one_per_window (random : nat → Q) (totalCycles : Z)
    (routes : list RouteAnalytics) (route : RouteAnalytics) (j : Z) :
  unitRandom random → NoDup (route_id <$> routes) → route ∈ routes →
  (0 < frequency_minutes route)%Z →
  spawnsIn (route_id route) (j * frequency_minutes route) ((j + 1) * frequency_minutes route)
    (generateDispatchSchedule random totalCycles routes)
  = if bool_decide (0 <= j < Z.of_nat (loopTrips (busesToSchedule totalCycles route)))%Z
    then 1 else 0.
Proof.
  intros Hrand Hnd Hin Hf. unfold generateDispatchSchedule.
  apply list_elem_of_split in Hin as (before & after & ->).
  rewrite fmap_app, fmap_cons in Hnd.
  apply NoDup_app in Hnd as (_ & Hbefore & Hafter).
  apply NoDup_cons in Hafter as [Hafter _].
  rewrite foldl_app. simpl.
  rewrite foldl_scheduleRoute_spawnsIn_other by done.
  unfold scheduleRoute at 1.
  rewrite scheduleWindows_spawnsIn; [|done|done|lia|].
  - rewrite decide_True by done.
    rewrite foldl_scheduleRoute_spawnsIn_other.
    + simpl. rewrite spawnsIn_empty. rewrite Z.add_0_l. lia.
    + intros Hel. apply (Hbefore (route_id route)); [done|by left].
  - intros k Hk. apply windowOpen_visited; [done|lia|lia].
Qed.

Lemma generateDispatchSchedule_one_per_window_witness :
  spawnsIn 1 (1 * 10) ((1 + 1) * 10)
    (generateDispatchSchedule (λ _, 1 # 2)%Q 25
       [mkRouteAnalytics 1 3 10; mkRouteAnalytics 2 1 5])
  = 1.
Proof.
  assert (Hrand : unitRandom (λ _, 1 # 2)%Q).
  { intros k. split; [discriminate|reflexivity]. }
  assert (Hnd : NoDup (route_id <$> [mkRouteAnalytics 1 3 10; mkRouteAnalytics 2 1 5])).
  { apply (bool_decide_unpack (NoDup _)). vm_compute. exact I. }
  assert (Hin : mkRouteAnalytics 1 3 10
                ∈ [mkRouteAnalytics 1 3 10; mkRouteAnalytics 2 1 5]) by left.
  assert (Hf : (0 < frequency_minutes (mkRouteAnalytics 1 3 10))%Z) by reflexivity.
  exact (generateDispatchSchedule_one_per_window (λ _, 1 # 2)%Q 25
           [mkRouteAnalytics 1 3 10; mkRouteAnalytics 2 1 5]
           (mkRouteAnalytics 1 3 10) 1 Hrand Hnd Hin Hf).
Defined.



(** ** The simulation timer *)

Lemma timerAfter_running totalCycles (k : nat) :
  (Z.of_nat k <= Z.max 0 totalCycles)%Z →
  timerAfter totalCycles k
  = {| timer_simulationTime := Z.of_nat k; timer_isSimulating := true |}.
Proof.
  unfold timerAfter. induction k as [|k IH]; intros Hk; [done|].
  simpl. rewrite IH by lia. unfold timerTick. simpl.
  destruct (Z.geb_spec (Z.of_nat k) totalCycles); [lia|].
  f_equal. lia.
Qed.

Lemma timerAfter_stopped totalCycles (k : nat) :
  (Z.max 0 totalCycles < Z.of_nat k)%Z →
  timerAfter totalCycles k
  = {| timer_simulationTime := Z.max 0 totalCycles; timer_isSimulating := false |}.
Proof.
  induction k as [|k IH]; intros Hk; [lia|].
  destruct (decide (Z.max 0 totalCycles < Z.of_nat k)%Z) as [Hlt|Hge].
  - unfold timerAfter in *. simpl. by rewrite IH.
  - pose proof (timerAfter_running totalCycles k ltac:(lia)) as Hrun.
    unfold timerAfter in *. simpl. rewrite Hrun. unfold timerTick. simpl.
    destruct (Z.geb_spec (Z.of_nat k) totalCycles); [|lia].
    f_equal. lia.
Qed.

(** X12: started at second [0], the timer shows the seconds
    [0, 1, ..., max(0, totalCycles)] one tick apart and stops on the tick
    after the last one; it never passes [totalCycles], and a horizon of [0]
    or less stops it on the first tick. *)
Theorem timer_counts_then_stops (totalCycles : Z) (k : nat) :
  timerAfter totalCycles k
  = if bool_decide (Z.of_nat k <= Z.max 0 totalCycles)%Z
    then {| timer_simulationTime := Z.of_nat k; timer_isSimulating := true |}
    else {| timer_simulationTime := Z.max 0 totalCycles; timer_isSimulating := false |}.
Proof.
  case_bool_decide.
  - by apply timerAfter_running.
  - apply timerAfter_stopped. lia.
Qed.



(** ** The fleet stays within the schedule *)

Lemma spawnCount_delete rid t l (s : gmap Z (list Z)) :
  s !! t = Some l →
  spawnCount rid s = occurrencesZ rid l + spawnCount rid (delete t s).
Proof.
  intros Hl. rewrite <- (insert_delete_id s t l Hl) at 1.
  rewrite spawnCount_insert_fresh by apply lookup_delete_eq. done.
Qed.

Lemma spawnBus_activeOf net simulationTime now random rid new r :
  spawnBus net simulationTime now random rid = Some new →
  activeOf r new ≤ (if decide (rid = r) then 1 else 0).
Proof.
  unfold spawnBus. intros H.
  assert (Hnil : activeOf r [] ≤ (if decide (rid = r) then 1 else 0)).
  { unfold activeOf. simpl. lia. }
  destruct (List.find _ _) as [staticRoute|]; [|by simplify_eq].
  destruct (Route_path staticRoute) as [|first rest]; [by simplify_eq|].
  destruct (NODES net !! first) as [startNode|]; [|done].
  injection H as <-. rewrite activeOf_cons. simpl.
  change (activeOf r []) with 0. destruct (decide (rid = r)); lia.
Qed.

Lemma spawnAll_activeOf net simulationTime clock random k l newBuses r :
  spawnAll net simulationTime clock random k l = Some newBuses →
  activeOf r newBuses ≤ occurrencesZ r l.
Proof.
  revert k newBuses. induction l as [|rid l IH]; intros k newBuses H; simpl in H.
  { by simplify_eq. }
  destruct (spawnBus _ _ _ _ _) as [new|] eqn:Hnew; [|done].
  destruct (spawnAll _ _ _ _ _ l) as [rest|] eqn:Hrest; [|done].
  simplify_eq. rewrite activeOf_app.
  pose proof (spawnBus_activeOf _ _ _ _ _ _ r Hnew).
  pose proof (IH _ _ Hrest).
  unfold occurrencesZ in *. rewrite filter_cons.
  destruct (decide (rid = r)); simpl; lia.
Qed.

Lemma spawnedBy_activeOf W simulationTime clock random r :
  activeOf r (spawnedBy W (SpawnerRuns simulationTime clock random))
  ≤ occurrencesZ r (default [] (world_schedule W !! simulationTime)).
Proof.
  unfold spawnedBy. destruct (world_schedule W !! simulationTime) as [l|]; simpl; [|done].
  destruct (spawnAll _ _ _ _ _ l) as [new|] eqn:Hnew; simpl.
  - by eapply spawnAll_activeOf.
  - unfold activeOf. simpl. lia.
Qed.

Lemma spawnedDuring_within net M ra (events : list Event) r (s : gmap Z (list Z)) :
  NoDup (spawnerSeconds events) →
  ∀ s0 : gmap Z (list Z),
    (∀ t, t ∈ spawnerSeconds events → s0 !! t = s !! t) →
    activeOf r (spawnedDuring {| world_math := M; world_net := net;
                                 world_routesAnalytics := ra; world_schedule := s |} events)
    ≤ spawnCount r s0.
Proof.
  intros Hnd. induction events as [|ev events IH]; intros s0 Hs0.
  { unfold spawnedDuring, activeOf. simpl. lia. }
  unfold spawnedDuring. rewrite fmap_cons. simpl. rewrite activeOf_app.
  fold (spawnedDuring {| world_math := M; world_net := net;
                         world_routesAnalytics := ra; world_schedule := s |} events).
  destruct ev as [t clock random|time].
  - simpl in Hnd. apply NoDup_cons in Hnd as [Hnot Hnd].
    pose proof (spawnedBy_activeOf
                  {| world_math := M; world_net := net;
                     world_routesAnalytics := ra; world_schedule := s |}
                  t clock random r) as Hnow. cbn [world_schedule] in Hnow.
    rewrite <- (Hs0 t) in Hnow by (simpl; left).
    destruct (s0 !! t) as [l|] eqn:Hl; cbn [default from_option id] in Hnow.
    + rewrite (spawnCount_delete r t l s0 Hl).
      assert (Hrest : ∀ t', t' ∈ spawnerSeconds events → delete t s0 !! t' = s !! t').
      { intros t' Ht'. rewrite lookup_delete_ne by (intros ->; done).
        apply Hs0. simpl. by right. }
      apply (IH Hnd) in Hrest. lia.
    + assert (Hrest : ∀ t', t' ∈ spawnerSeconds events → s0 !! t' = s !! t').
      { intros t' Ht'. apply Hs0. simpl. by right. }
      apply (IH Hnd) in Hrest.
      change (occurrencesZ r []) with 0 in Hnow. lia.
  - simpl in Hnd.
    assert (Hrest : ∀ t', t' ∈ spawnerSeconds events → s0 !! t' = s !! t').
    { intros t' Ht'. by apply Hs0. }
    apply (IH Hnd) in Hrest.
    unfold spawnedBy, activeOf at 1. simpl. lia.
Qed.

Lemma activeOf_filter_le r (l : list SimulatedBus) :
  activeOf r (filter notFinished l) ≤ activeOf r l.
Proof.
  induction l as [|bus l IH]; [done|].
  rewrite filter_cons. destruct (decide (notFinished bus)).
  - rewrite !activeOf_cons. lia.
  - rewrite activeOf_cons. lia.
Qed.

Lemma step_lane_growth W w st ev st' out r :
  step_lane W w st ev = Some (st', out) →
  countOf (completedCountsRef st') r + activeOf r (busesRef st')
  ≤ countOf (completedCountsRef st) r + activeOf r (busesRef st)
    + activeOf r (spawnedBy W ev).
Proof.
  destruct ev as [simulationTime clock random|time]; cbn [step_lane].
  - destruct (spawner _ _ _ _ _ _) as [st1|] eqn:Hsp; [|done]. intros [= <- _].
    apply spawner_spec in Hsp as (-> & -> & _). rewrite activeOf_app. lia.
  - change (activeOf r (spawnedBy W (AnimationFrame time))) with 0.
    unfold animate_lane. destruct (busesRef st) as [|bus rest] eqn:Hfleet.
    { intros [= <- _]. rewrite Hfleet. lia. }
    destruct (handleMultiBusAnimation_lane _ _ _ _ _ _) as [[st1 stats]|] eqn:Hframe; [|done].
    intros [= <- _].
    apply handleMultiBusAnimation_lane_counts in Hframe as [_ Hc].
    rewrite (Hc r), Hfleet. pose proof (activeOf_filter_le r (bus :: rest)). lia.
Qed.

Lemma run_lane_growth W w events st st' outs r :
  run_lane W w events st = Some (st', outs) →
  countOf (completedCountsRef st') r + activeOf r (busesRef st')
  ≤ countOf (completedCountsRef st) r + activeOf r (busesRef st)
    + activeOf r (spawnedDuring W events).
Proof.
  revert st st' outs. induction events as [|ev events IH]; intros st st' outs Hrun.
  { simpl in Hrun. simplify_eq. unfold spawnedDuring, activeOf. simpl. lia. }
  cbn [run_lane] in Hrun.
  destruct (step_lane W w st ev) as [[st1 out]|] eqn:Hstep; [|done].
  destruct (run_lane W w events st1) as [[st2 outs2]|] eqn:Hrest; [|done].
  simplify_eq.
  pose proof (step_lane_growth _ _ _ _ _ _ r Hstep).
  pose proof (IH _ _ _ Hrest).
  unfold spawnedDuring. rewrite fmap_cons. simpl. rewrite activeOf_app.
  fold (spawnedDuring W events). lia.
Qed.

Lemma run_within_schedule W events st st' outs rid :
  NoDup (spawnerSeconds events) →
  run W events st = Some (st', outs) →
  countOf (completedCountsRef st') rid + activeOf rid (busesRef st')
  ≤ countOf (completedCountsRef st) rid + activeOf rid (busesRef st)
    + spawnCount rid (world_schedule W).
Proof.
  intros Hnd Hrun. unfold run in Hrun.
  apply (run_lane_growth _ _ _ _ _ _ rid) in Hrun.
  assert (activeOf rid (spawnedDuring W events) ≤ spawnCount rid (world_schedule W));
    [|lia].
  destruct W as [M net ra s]. simpl. by apply spawnedDuring_within.
Qed.

(** X14: what a stretch of a simulation can add to a route. Whatever the
    refs hold when it begins, while the dispatch schedule stays the same
    and the spawner effect runs at most once for each second, the buses of
    a route on the road plus its completed count grow by at most the spawns
    of the route in the schedule. What the refs held before stays on top:
    the bound is the schedule alone only from an empty fleet and empty
    counts. *)
Theorem fleet_within_schedule (W : World) (events : list Event) (st st' : SimState)
    (outs : list (gmap Z RouteStats)) (rid : Z) :
  NoDup (spawnerSeconds events) →
  run W events st = Some (st', outs) →
  countOf (completedCountsRef st') rid + activeOf rid (busesRef st')
  ≤ countOf (completedCountsRef st) rid + activeOf rid (busesRef st)
    + spawnCount rid (world_schedule W)
  ∧ (st = simulationStart →
     countOf (completedCountsRef st') rid + activeOf rid (busesRef st')
     ≤ spawnCount rid (world_schedule W)).
Proof.
  intros Hnd Hrun. pose proof (run_within_schedule W events st st' outs rid Hnd Hrun) as H.
  split; [done|]. intros ->. simpl in H.
  unfold countOf in H at 2. rewrite lookup_empty in H.
  change (activeOf rid []) with 0 in H. simpl in H. lia.
Qed.

Lemma fleet_within_schedule_witness :
  match run constantsWorld
          [SpawnerRuns 5 (λ _, 0%Q) (λ _, 0%Q); AnimationFrame 100;
           SpawnerRuns 15 (λ _, 1000%Q) (λ _, 0%Q)]
          {| busesRef := [threeStopBus]; completedCountsRef := {[ 1%Z := 4 ]} |} with
  | Some (st', _) =>
      countOf (completedCountsRef st') 1 + activeOf 1 (busesRef st')
      ≤ countOf ({[ 1%Z := 4 ]} : gmap Z nat) 1 + activeOf 1 [threeStopBus]
        + spawnCount 1 (world_schedule constantsWorld)
  | None => False
  end.
Proof.
  assert (Hnd : NoDup (spawnerSeconds
                         [SpawnerRuns 5 (λ _, 0%Q) (λ _, 0%Q); AnimationFrame 100;
                          SpawnerRuns 15 (λ _, 1000%Q) (λ _, 0%Q)])).
  { apply (bool_decide_unpack (NoDup _)). vm_compute. exact I. }
  destruct (run constantsWorld
              [SpawnerRuns 5 (λ _, 0%Q) (λ _, 0%Q); AnimationFrame 100;
               SpawnerRuns 15 (λ _, 1000%Q) (λ _, 0%Q)]
              {| busesRef := [threeStopBus]; completedCountsRef := {[ 1%Z := 4 ]} |})
    as [[st' outs]|] eqn:Hrun.
  - exact (proj1 (fleet_within_schedule constantsWorld _ _ st' outs 1 Hnd Hrun)).
  - vm_compute in Hrun. discriminate.
Defined.



(** A simulation started again without Stop: the allocation of route 1 is
    [1], the fleet still holds a bus of the simulation before, and the new
    simulation ends with [2] completed buses. *)
Example restart_without_stop :
  buses_allocated <$> world_routesAnalytics threeStopWorld = [1%Z]
  ∧ (λ res, countOf (completedCountsRef res.1) 1)
    <$> run threeStopWorld (threeStopEvents [2001; 3002; 5002; 7003]%Q)
          (resetEffect (λ _, 0%Q) true 10 (world_routesAnalytics threeStopWorld)
             {| busesRef := [set_state WAITING_FINAL (set_currentSegment 1 threeStopBus)];
                completedCountsRef := {[ 1%Z := 1 ]} |}).1
    = Some 2.
Proof. split; vm_compute; reflexivity. Qed.

(** ** The spawner effect *)

Lemma spawnBus_fresh net simulationTime now random rid new :
  spawnBus net simulationTime now random rid = Some new →
  sublist (routeId <$> new) [rid]
  ∧ Forall (λ bus, ∃ r, List.find (λ r, bool_decide (Route_id r = rid)) (ROUTES net) = Some r
                        ∧ freshOn net r bus
                        ∧ bus_id bus = (rid, simulationTime, random)
                        ∧ lastStateChangeTime bus = now) new.
Proof.
  unfold spawnBus. intros H.
  destruct (List.find _ _) as [staticRoute|] eqn:Hfind.
  2:{ simplify_eq. split; [apply sublist_nil_l|apply Forall_nil_2]. }
  destruct (Route_path staticRoute) as [|first rest] eqn:Hpath.
  { simplify_eq. split; [apply sublist_nil_l|apply Forall_nil_2]. }
  destruct (NODES net !! first) as [startNode|] eqn:Hnode; [|done].
  injection H as <-. split; [done|].
  apply Forall_singleton. exists staticRoute. split; [done|].
  apply find_some in Hfind as [_ Hid]. apply bool_decide_eq_true in Hid.
  unfold freshOn. simpl. split_and!; try done.
  by exists first, startNode.
Qed.

Lemma spawnAll_fresh net simulationTime clock random k l newBuses :
  spawnAll net simulationTime clock random k l = Some newBuses →
  sublist (routeId <$> newBuses) l
  ∧ Forall (λ bus, ∃ r, List.find (λ r, bool_decide (Route_id r = routeId bus)) (ROUTES net)
                        = Some r ∧ freshOn net r bus) newBuses.
Proof.
  revert k newBuses. induction l as [|rid l IH]; intros k newBuses H; simpl in H.
  { simplify_eq. split; [done|apply Forall_nil_2]. }
  destruct (spawnBus _ _ _ _ _) as [new|] eqn:Hnew; [|done].
  destruct (spawnAll _ _ _ _ _ l) as [rest|] eqn:Hrest; [|done].
  simplify_eq. apply spawnBus_fresh in Hnew as [Hsub Hall].
  destruct (IH _ _ Hrest) as [Hsub' Hall']. split.
  - rewrite fmap_app. change (rid :: l) with ([rid] ++ l). by apply sublist_app.
  - apply Forall_app. split; [|done].
    eapply Forall_impl; [exact Hall|]. intros bus (r & Hfind & Hfresh & _).
    exists r. split; [|done]. destruct Hfresh as (Hrid & _).
    apply find_some in Hfind as Hf. destruct Hf as [_ Hid].
    apply bool_decide_eq_true in Hid. by rewrite Hrid, Hid.
Qed.

(** X16: what the spawner effect does to the fleet. When it does not throw,
    the old fleet is kept in place as a prefix and the completed counters are
    untouched; the new buses are appended in the order of the schedule's list
    for this second, at most one for each listed id (an id that is not in
    [ROUTES], or whose route has an empty path, is skipped); and each new bus
    is [MOVING] on segment [0] with rotation [0], carries the path and colour
    of the first route of [ROUTES] with its id, and sits on the first stop
    of that path. *)
Theorem spawner_appends_fresh_buses (net : Network) (dispatchSchedule : gmap Z (list Z))
    (simulationTime : Z) (clock random : nat → Q) (st st' : SimState) :
  spawner net dispatchSchedule simulationTime clock random st = Some st' →
  ∃ newBuses,
    busesRef st' = busesRef st ++ newBuses
    ∧ completedCountsRef st' = completedCountsRef st
    ∧ sublist (routeId <$> newBuses) (default [] (dispatchSchedule !! simulationTime))
    ∧ Forall (λ bus, ∃ r, List.find (λ r, bool_decide (Route_id r = routeId bus)) (ROUTES net)
                          = Some r ∧ freshOn net r bus) newBuses.
Proof.
  unfold spawner. intros H.
  destruct (dispatchSchedule !! simulationTime) as [[|rid rest]|] eqn:Hl.
  - simplify_eq. exists []. rewrite app_nil_r. split_and!; try done; try apply Forall_nil_2; apply sublist_nil_l.
  - destruct (spawnAll _ _ _ _ _ _) as [newBuses|] eqn:Hnew; [|done].
    apply spawnAll_fresh in Hnew as [Hsub Hall]. exists newBuses.
    destruct newBuses as [|bus newBuses]; simplify_eq; simpl.
    + rewrite app_nil_r. split_and!; try done; apply sublist_nil_l.
    + split_and!; done.
  - simplify_eq. exists []. rewrite app_nil_r. split_and!; try done; try apply Forall_nil_2; apply sublist_nil_l.
Qed.

Lemma spawner_appends_fresh_buses_witness :
  match spawner constants (world_schedule constantsWorld) 5 (λ _, 0%Q) (λ _, 0%Q)
          simulationStart with
  | Some st' =>
      ∃ newBuses,
        busesRef st' = busesRef simulationStart ++ newBuses
        ∧ completedCountsRef st' = completedCountsRef simulationStart
        ∧ sublist (routeId <$> newBuses)
            (default [] (world_schedule constantsWorld !! 5%Z))
        ∧ Forall (λ bus, ∃ r, List.find (λ r, bool_decide (Route_id r = routeId bus))
                                (ROUTES constants) = Some r ∧ freshOn constants r bus)
            newBuses
  | None => False
  end.
Proof.
  destruct (spawner constants (world_schedule constantsWorld) 5 (λ _, 0%Q) (λ _, 0%Q)
              simulationStart) as [st'|] eqn:Hsp.
  - exact (spawner_appends_fresh_buses constants (world_schedule constantsWorld) 5
             (λ _, 0%Q) (λ _, 0%Q) simulationStart st' Hsp).
  - vm_compute in Hsp. discriminate.
Defined.

(** ** The animation frame and the fleet *)

Lemma updateBus_identity M net w time bus bus' f :
  updateBus M net w time bus = Some (bus', f) → identity bus' = identity bus.
Proof.
  unfold updateBus. intros H. repeat case_match; simplify_eq/=; done.
Qed.

Lemma updateFleet_identity M net w time l u f :
  updateFleet M net w time l = Some (u, f) → identity <$> u = identity <$> l.
Proof.
  revert u f. induction l as [|bus l IH]; intros u f H; simpl in H.
  { by simplify_eq. }
  destruct (updateBus _ _ _ _ bus) as [[bus' f1]|] eqn:Hbus; [|done].
  destruct (updateFleet _ _ _ _ l) as [[u' f2]|] eqn:Hrest; [|done].
  simplify_eq. rewrite !fmap_cons. f_equal.
  - by eapply updateBus_identity.
  - by eapply IH.
Qed.

Lemma sublist_fmap_filter {A B} (g : A → B) (P : A → Prop) `{!∀ x, Decision (P x)}
    (l : list A) :
  sublist (g <$> filter P l) (g <$> l).
Proof. apply fmap_sublist. apply sublist_filter. Qed.

(** X17: an animation frame never creates, duplicates or reorders buses:
    the buses it leaves in [busesRef] are, by id, route, colour and path, a
    subsequence of the buses it found there. *)
Theorem frame_keeps_fleet_order (M : MathLib) (net : Network)
    (routesAnalytics : list RouteAnalytics) (time : Q) (st st' : SimState)
    (stats : gmap Z RouteStats) :
  handleMultiBusAnimation M net routesAnalytics time st = Some (st', stats) →
  sublist (identity <$> busesRef st') (identity <$> busesRef st).
Proof.
  unfold handleMultiBusAnimation, handleMultiBusAnimation_lane. intros H.
  destruct (updateFleet _ _ _ _ _) as [[u f]|] eqn:Hfleet; [|done].
  injection H as <- _. simpl.
  apply updateFleet_identity in Hfleet.
  etrans; [apply sublist_fmap_filter|]. rewrite Hfleet. apply sublist_fmap_filter.
Qed.

Lemma frame_keeps_fleet_order_witness :
  sublist (identity <$> []) (identity <$> [set_state WAITING_FINAL threeStopBus]).
Proof.
  apply (frame_keeps_fleet_order sampleMath threeStopNet [] 9000
           {| busesRef := [set_state WAITING_FINAL threeStopBus];
              completedCountsRef := ∅ |}
           {| busesRef := []; completedCountsRef := {[ routeId threeStopBus := 1 ]} |}
           ∅).
  vm_compute. reflexivity.
Defined.

(** ** Lanes *)

(** X18: the lane of a route. For route ids from [1] on the lane offset is
    one of [-21, -7, 7, 21], that is [14 * ((rid - 1) mod 4) - 21]; the routes
    [1] to [4] get four different lanes, and two routes share a lane exactly
    when their ids differ by a multiple of [4]. *)
Theorem lane_offset_by_route (rid rid' : Z) :
  (1 <= rid)%Z → (1 <= rid')%Z →
  (laneOffsetOf laneWidth rid == inject_Z (14 * ((rid - 1) mod 4) - 21))%Q
  ∧ ((laneOffsetOf laneWidth rid == laneOffsetOf laneWidth rid')%Q
     ↔ ((rid - rid') mod 4 = 0)%Z).
Proof.
  intros Hrid Hrid'.
  assert (Hoff : ∀ r, (1 <= r)%Z →
            (laneOffsetOf laneWidth r == inject_Z (14 * ((r - 1) mod 4) - 21))%Q).
  { intros r Hr. unfold laneOffsetOf, laneWidth.
    rewrite Z.rem_mod_nonneg by lia.
    pose proof (Z.mod_pos_bound (r - 1) 4 ltac:(lia)) as Hm.
    revert Hm. generalize ((r - 1) mod 4)%Z. intros m Hm.
    assert (m = 0 ∨ m = 1 ∨ m = 2 ∨ m = 3)%Z as Hcases by lia.
    destruct Hcases as [-> | [-> | [-> | ->]]]; reflexivity. }
  split; [by apply Hoff|].
  rewrite !Hoff by done. rewrite inject_Z_injective.
  replace (rid - rid')%Z with ((rid - 1) - (rid' - 1))%Z by lia.
  rewrite (Zminus_mod (rid - 1) (rid' - 1) 4).
  pose proof (Z.mod_pos_bound (rid - 1) 4 ltac:(lia)) as Ha.
  pose proof (Z.mod_pos_bound (rid' - 1) 4 ltac:(lia)) as Hb.
  revert Ha Hb. generalize ((rid - 1) mod 4)%Z, ((rid' - 1) mod 4)%Z.
  intros a b Ha Hb. split.
  - intros Heq. replace a with b by lia. by rewrite Z.sub_diag.
  - intros Heq. apply Z.mod_divide in Heq; [|lia]. destruct Heq as [k Hk]. lia.
Qed.

Lemma lane_offset_by_route_witness :
  (laneOffsetOf laneWidth 2 == laneOffsetOf laneWidth 6)%Q ↔ ((2 - 6) mod 4 = 0)%Z.
Proof.
  exact (proj2 (lane_offset_by_route 2 6 ltac:(lia) ltac:(lia))).
Defined.

(** ** The manual mode: one bus along the planner's route *)

Lemma orElse_self time : Manual.orElse (Some time) time = time.
Proof. unfold Manual.orElse. by destruct (Qeq_bool time 0). Qed.

(** A leg that starts in this frame is at [t = 0]. *)
Lemma travel_start time :
  Qgeb (Qmin ((time - time) / TRAVEL_DURATION) 1) 1 = false.
Proof.
  destruct (Qgeb _ 1) eqn:H; [|done]. apply Qgeb_spec in H.
  assert (Hz : ((time - time) / TRAVEL_DURATION == 0)%Q).
  { unfold TRAVEL_DURATION. field. }
  pose proof (Q.le_min_l ((time - time) / TRAVEL_DURATION) 1) as Hmin.
  revert H Hz Hmin. generalize (Qmin ((time - time) / TRAVEL_DURATION) 1).
  generalize ((time - time) / TRAVEL_DURATION)%Q. intros x m H Hz Hmin. lra.
Qed.

Lemma handleSingleBusAnimation_step M net route time r k r1 shown sigs :
  reported (length (Route_path route)) r k →
  Manual.handleSingleBusAnimation M net (Some route) time r = Some (r1, shown, sigs) →
  (sigs = [] ∧ reported (length (Route_path route)) r1 k)
  ∨ (∃ toId toNode,
       sigs = [Manual.StopReached (label toNode)]
       ∧ Route_path route !! S k = Some toId ∧ NODES net !! toId = Some toNode
       ∧ reported (length (Route_path route)) r1 (S k))
  ∨ (sigs = [Manual.AnimationComplete] ∧ k = length (Route_path route) - 1
     ∧ reported (length (Route_path route)) r1 k).
Proof.
  unfold reported, Manual.handleSingleBusAnimation.
  destruct r as [start pause seg st]. simpl.
  intros Hrep H.
  destruct st; simpl in *.
  - (* MOVING *)
    destruct Hrep as [-> Hk].
    destruct (Z.geb_spec (Z.of_nat k) (Z.of_nat (length (Route_path route)) - 1)).
    { simplify_eq. right; right. simpl. split_and!; try done; lia. }
    destruct (Route_path route !! k) as [fromId|] eqn:Hfrom; [|simplify_eq; by left].
    replace (k + 1) with (S k) in H by lia.
    destruct (Route_path route !! S k) as [toId|] eqn:Hto; [|simplify_eq; by left].
    destruct (findEdge _ _ _) as [edge|]; [|simplify_eq; by left].
    destruct (NODES net !! fromId) as [fromNode|]; [|done].
    destruct (NODES net !! toId) as [toNode|] eqn:HtoNode; [|done].
    destruct (Qgeb _ 1); [|simplify_eq; by left].
    simplify_eq. right; left. exists toId, toNode. split_and!; try done.
    simpl. case_bool_decide; simpl; lia.
  - (* WAITING *)
    destruct Hrep as [<- Hk].
    destruct (Qgeb _ _); [|simplify_eq; left; simpl; by split_and!].
    simpl in H.
    destruct (Z.geb_spec (Z.of_nat (seg + 1)) (Z.of_nat (length (Route_path route)) - 1));
      [lia|].
    destruct (Route_path route !! (seg + 1)) as [fromId|] eqn:Hfrom;
      [|simplify_eq; left; simpl; split_and!; try done; lia].
    destruct (Route_path route !! (seg + 1 + 1)) as [toId|] eqn:Hto;
      [|simplify_eq; left; simpl; split_and!; try done; lia].
    destruct (findEdge _ _ _) as [edge|];
      [|simplify_eq; left; simpl; split_and!; try done; lia].
    destruct (NODES net !! fromId) as [fromNode|]; [|done].
    destruct (NODES net !! toId) as [toNode|] eqn:HtoNode; [|done].
    destruct (Qeq_bool time 0); rewrite travel_start in H;
      simplify_eq; left; simpl; split_and!; try done; lia.
  - (* WAITING_FINAL *)
    destruct Hrep as [<- Hk].
    destruct (Qgeb _ _); simplify_eq.
    + right; right. simpl. split_and!; try done.
    + left. simpl. by split_and!.
Qed.

Lemma reported_start len r time k :
  reported len r k →
  reported len
    (if Manual.falsy (Manual.startTimeRef r)
     then {| Manual.startTimeRef := Some time;
             Manual.pauseTimeRef := Manual.pauseTimeRef r;
             Manual.currentSegmentRef := Manual.currentSegmentRef r;
             Manual.stateRef := Manual.stateRef r |}
     else r) k.
Proof. by destruct (Manual.falsy _). Qed.

Lemma reported_bound len r k : reported len r k → k ≤ len - 1.
Proof. unfold reported. destruct (Manual.stateRef r); lia. Qed.

Lemma animate_step M net route time r k r1 shown sigs :
  reported (length (Route_path route)) r k →
  Manual.animate M net false true (Some route) time r = Some (r1, shown, sigs) →
  (sigs = [] ∧ reported (length (Route_path route)) r1 k)
  ∨ (∃ toId toNode,
       sigs = [Manual.StopReached (label toNode)]
       ∧ Route_path route !! S k = Some toId ∧ NODES net !! toId = Some toNode
       ∧ reported (length (Route_path route)) r1 (S k))
  ∨ (sigs = [Manual.AnimationComplete] ∧ k = length (Route_path route) - 1
     ∧ reported (length (Route_path route)) r1 k).
Proof.
  intros Hrep. unfold Manual.animate. simpl.
  apply handleSingleBusAnimation_step. by apply reported_start.
Qed.

Lemma frames_cons M net route time times r :
  Manual.frames M net route (time :: times) r
  = match Manual.animate M net false true (Some route) time r with
    | None => None
    | Some (r1, shown, signals) =>
        match Manual.frames M net route times r1 with
        | None => None
        | Some (r2, shownLater, signalsLater) =>
            Some (r2, option_list shown ++ shownLater, signals ++ signalsLater)
        end
    end.
Proof. done. Qed.

Lemma frames_shape M net route times r k r' shows sigs :
  reported (length (Route_path route)) r k →
  Manual.frames M net route times r = Some (r', shows, sigs) →
  ∃ k' ls m,
    k ≤ k' ∧ reported (length (Route_path route)) r' k'
    ∧ sigs = (Manual.StopReached <$> ls) ++ replicate m Manual.AnimationComplete
    ∧ Some <$> ls = labelsOf net (take (k' - k) (drop (S k) (Route_path route)))
    ∧ (0 < m → k' = length (Route_path route) - 1).
Proof.
  revert r k r' shows sigs.
  induction times as [|time times IH]; intros r k r' shows sigs Hrep Hrun.
  { simpl in Hrun. simplify_eq. exists k, [], 0. rewrite Nat.sub_diag.
    split_and!; try done. lia. }
  rewrite frames_cons in Hrun.
  destruct (Manual.animate _ _ _ _ _ _ _) as [[[r1 shown] sig1]|] eqn:Hstep; [|done].
  destruct (Manual.frames _ _ _ _ r1) as [[[r2 shownLater] sigLater]|] eqn:Hrest; [|done].
  simplify_eq.
  destruct (animate_step _ _ _ _ _ _ _ _ _ Hrep Hstep)
    as [[-> Hrep1]|[(toId & toNode & -> & Hto & Hnode & Hrep1)|(-> & Hk & Hrep1)]].
  - destruct (IH _ _ _ _ _ Hrep1 Hrest) as (k' & ls & m & Hle & Hrep' & -> & Hls & Hm).
    exists k', ls, m. by split_and!.
  - destruct (IH _ _ _ _ _ Hrep1 Hrest) as (k' & ls & m & Hle & Hrep' & -> & Hls & Hm).
    exists k', (label toNode :: ls), m. split_and!; try done; [lia|].
    replace (k' - k) with (S (k' - S k)) by lia.
    rewrite (drop_S _ _ _ Hto), firstn_cons.
    unfold labelsOf in *. rewrite !fmap_cons, Hnode, Hls. done.
  - destruct (IH _ _ _ _ _ Hrep1 Hrest) as (k' & ls & m & Hle & Hrep' & -> & Hls & Hm).
    pose proof (reported_bound _ _ _ Hrep') as Hb.
    assert (k' = k) as -> by lia.
    rewrite Nat.sub_diag in Hls. simpl in Hls. unfold labelsOf in Hls.
    simpl in Hls. apply fmap_nil_inv in Hls as ->.
    exists k, [], (S m). rewrite Nat.sub_diag. split_and!; try done.
Qed.

(** X19: the manual trip reports the stops in path order. Whatever the
    frame times, the callbacks called from the first frame on are
    [onStopReached] with the labels of the stops after the origin, in the
    order of the path and each at most once, and then only
    [onAnimationComplete]; completion is never signalled before every stop
    of the path has been reported. *)
Theorem manual_stops_in_order (M : MathLib) (net : Network) (route : Route)
    (times : list Q) (r : Manual.Refs) (shows : list Manual.BusState)
    (sigs : list Manual.Signal) :
  Manual.frames M net route times Manual.initialRefs = Some (r, shows, sigs) →
  ∃ (ls : list string) (m : nat),
    sigs = (Manual.StopReached <$> ls) ++ replicate m Manual.AnimationComplete
    ∧ Some <$> ls = labelsOf net (take (length ls) (tail (Route_path route)))
    ∧ (0 < m → length ls = length (tail (Route_path route))).
Proof.
  intros Hrun.
  assert (Hrep : reported (length (Route_path route)) Manual.initialRefs 0).
  { unfold reported. simpl. lia. }
  destruct (frames_shape _ _ _ _ _ _ _ _ _ Hrep Hrun)
    as (k' & ls & m & _ & Hrep' & -> & Hls & Hm).
  apply reported_bound in Hrep' as Hb.
  rewrite Nat.sub_0_r in Hls.
  assert (Hlen : length ls = k').
  { apply (f_equal length) in Hls. unfold labelsOf in Hls.
    rewrite !length_fmap, length_take, length_drop in Hls. lia. }
  exists ls, m. split_and!; try done.
  - rewrite Hlen. by destruct (Route_path route).
  - intros Hpos. rewrite Hlen, (Hm Hpos). destruct (Route_path route); simpl; lia.
Qed.

Lemma manual_stops_in_order_witness :
  match Manual.frames sampleMath threeStopNet
          {| Route_id := 999; Route_name := "Express: A to C";
             Route_path := ["A"; "B"; "C"]; Route_color := "#3b82f6" |}
          [16; 2016; 2032; 3032; 5032; 5048; 7048]%Q Manual.initialRefs with
  | Some (_, _, sigs) =>
      ∃ (ls : list string) (m : nat),
        sigs = (Manual.StopReached <$> ls) ++ replicate m Manual.AnimationComplete
        ∧ Some <$> ls = labelsOf threeStopNet (take (length ls) (tail ["A"; "B"; "C"]))
        ∧ (0 < m → length ls = length (tail ["A"; "B"; "C"]))
  | None => False
  end.
Proof.
  destruct (Manual.frames sampleMath threeStopNet
              {| Route_id := 999; Route_name := "Express: A to C";
                 Route_path := ["A"; "B"; "C"]; Route_color := "#3b82f6" |}
              [16; 2016; 2032; 3032; 5032; 5048; 7048]%Q Manual.initialRefs)
    as [[[r shows] sigs]|] eqn:Hrun.
  - exact (manual_stops_in_order sampleMath threeStopNet _ _ r shows sigs Hrun).
  - vm_compute in Hrun. discriminate.
Defined.

(** The run of the example above: both stops are reported, then the trip
    completes in the frame [2000] ms after the last arrival. *)
Example manual_frames_example :
  snd <$> Manual.frames sampleMath threeStopNet
            {| Route_id := 999; Route_name := "Express: A to C";
               Route_path := ["A"; "B"; "C"]; Route_color := "#3b82f6" |}
            [16; 2016; 2032; 3032; 5032; 5048; 7048]%Q Manual.initialRefs
  = Some [Manual.StopReached "B"; Manual.StopReached "C"; Manual.AnimationComplete].
Proof. vm_compute. reflexivity. Qed.

(** ** The manual mode: trips that end at once, stall or repeat *)

Lemma frames_at_destination M net route times r :
  Manual.stateRef r = Manual.MOVING →
  length (Route_path route) - 1 ≤ Manual.currentSegmentRef r →
  ∃ r', Manual.frames M net route times r
        = Some (r', [], replicate (length times) Manual.AnimationComplete)
        ∧ Manual.stateRef r' = Manual.MOVING
        ∧ Manual.currentSegmentRef r' = Manual.currentSegmentRef r.
Proof.
  revert r. induction times as [|time times IH]; intros r Hst Hseg.
  { exists r. done. }
  rewrite frames_cons.
  assert (Hstep : ∃ r1, Manual.animate M net false true (Some route) time r
                        = Some (r1, None, [Manual.AnimationComplete])
                        ∧ Manual.stateRef r1 = Manual.MOVING
                        ∧ Manual.currentSegmentRef r1 = Manual.currentSegmentRef r).
  { unfold Manual.animate, Manual.handleSingleBusAnimation. simpl.
    destruct r as [start pause seg st]. simpl in *. subst st.
    destruct (Manual.falsy start); simpl;
      (destruct (Z.geb_spec (Z.of_nat seg) (Z.of_nat (length (Route_path route)) - 1));
       [|lia]); eexists; done. }
  destruct Hstep as (r1 & -> & Hst1 & Hseg1).
  destruct (IH r1 Hst1 ltac:(lia)) as (r' & -> & Hst' & Hseg').
  exists r'. split_and!; try done. congruence.
Qed.

(** X20: a trip from a stop to itself. The planner's route from a stop to
    the same stop is the one-stop path; every frame of its animation calls
    [onAnimationComplete] and nothing else: no bus is shown, no stop is
    reported and no node or edge is looked up, so it cannot throw. *)
Theorem manual_same_stop_trip (M : MathLib) (net : Network) (edges : list Edge)
    (sourceId : string) (times : list Q) :
  ∃ route r,
    activeRoute edges sourceId sourceId = Some route
    ∧ Route_path route = [sourceId]
    ∧ Manual.frames M net route times Manual.initialRefs
      = Some (r, [], replicate (length times) Manual.AnimationComplete).
Proof.
  unfold activeRoute, findPath, findPath_fuel. rewrite decide_True by done.
  eexists. 
  edestruct (frames_at_destination M net
               {| Route_id := 999;
                  Route_name := "Express: " +:+ sourceId +:+ " to " +:+ sourceId;
                  Route_path := [sourceId]; Route_color := "#3b82f6" |}
               times Manual.initialRefs) as (r & Hrun & _); [done|simpl; lia|].
  exists r. split_and!; done.
Qed.

(** X21: a leg without an edge stalls the manual bus for good. When the bus
    is [MOVING] on a segment whose two stops no edge of [EDGES] joins, no
    later frame shows or moves the bus, reports a stop or calls
    [onAnimationComplete]: the trip never ends. (In the simulation the same
    leg finishes the bus.) *)
Theorem manual_missing_edge_stalls (M : MathLib) (net : Network) (route : Route)
    (times : list Q) (r : Manual.Refs) (fromId toId : string) :
  Manual.stateRef r = Manual.MOVING →
  Route_path route !! Manual.currentSegmentRef r = Some fromId →
  Route_path route !! S (Manual.currentSegmentRef r) = Some toId →
  findEdge (EDGES net) fromId toId = None →
  ∃ r', Manual.frames M net route times r = Some (r', [], [])
        ∧ Manual.stateRef r' = Manual.MOVING
        ∧ Manual.currentSegmentRef r' = Manual.currentSegmentRef r.
Proof.
  revert r. induction times as [|time times IH]; intros r Hst Hfrom Hto Hedge.
  { exists r. done. }
  rewrite frames_cons.
  assert (Hstep : ∃ r1, Manual.animate M net false true (Some route) time r
                        = Some (r1, None, [])
                        ∧ Manual.stateRef r1 = Manual.MOVING
                        ∧ Manual.currentSegmentRef r1 = Manual.currentSegmentRef r).
  { unfold Manual.animate, Manual.handleSingleBusAnimation. simpl.
    destruct r as [start pause seg st]. simpl in *. subst st.
    apply lookup_lt_Some in Hto as Hlt.
    assert (Hto' : Route_path route !! (seg + 1) = Some toId).
    { by replace (seg + 1) with (S seg) by lia. }
    destruct (Manual.falsy start); simpl;
      (destruct (Z.geb_spec (Z.of_nat seg) (Z.of_nat (length (Route_path route)) - 1));
       [lia|]); rewrite Hfrom, Hto', Hedge; eexists; done. }
  destruct Hstep as (r1 & -> & Hst1 & Hseg1).
  rewrite <- Hseg1 in Hfrom, Hto.
  destruct (IH r1 Hst1 Hfrom Hto Hedge) as (r' & -> & Hst' & Hseg').
  exists r'. split_and!; try done. congruence.
Qed.

Lemma manual_missing_edge_stalls_witness :
  ∃ r', Manual.frames sampleMath threeStopNet
          {| Route_id := 999; Route_name := "Express: A to C";
             Route_path := ["A"; "C"]; Route_color := "#3b82f6" |}
          [16; 2016; 4016]%Q Manual.initialRefs = Some (r', [], [])
        ∧ Manual.stateRef r' = Manual.MOVING
        ∧ Manual.currentSegmentRef r' = Manual.currentSegmentRef Manual.initialRefs.
Proof.
  apply (manual_missing_edge_stalls sampleMath threeStopNet
           {| Route_id := 999; Route_name := "Express: A to C";
              Route_path := ["A"; "C"]; Route_color := "#3b82f6" |}
           [16; 2016; 4016]%Q Manual.initialRefs "A" "C");
    reflexivity.
Defined.

(** *** Routes of the planner *)

Lemma findPath_drivable net startId endId p :
  wellFormed net →
  findPath startId endId (EDGES net) = Some (Some p) → drivable net p.
Proof.
  intros [Hnodes _] Hfind.
  apply findPath_post in Hfind as [(rest & -> & Hpath) _].
  intros i fromId toId Hi HSi.
  pose proof (isPathFrom_lookup _ _ _ _ _ _ _ Hpath Hi HSi) as Hedge.
  apply hasEdge_findEdge in Hedge as (e & Hfind & Hin & <- & <-).
  exists e. split; [done|]. by apply Hnodes.
Qed.

Lemma handleSingleBusAnimation_total M net route time r :
  drivable net (Route_path route) →
  ∃ res, Manual.handleSingleBusAnimation M net (Some route) time r = Some res.
Proof.
  intros Hdrive. unfold Manual.handleSingleBusAnimation.
  assert (Hmove : ∀ r1,
    ∃ res,
      (if (Z.of_nat (Manual.currentSegmentRef r1)
           >=? Z.of_nat (length (Route_path route)) - 1)%Z
       then Some (r1, None, [Manual.AnimationComplete])
       else
         match Route_path route !! Manual.currentSegmentRef r1,
               Route_path route !! (Manual.currentSegmentRef r1 + 1) with
         | Some fromId, Some toId =>
             match findEdge (EDGES net) fromId toId with
             | None => Some (r1, None, [])
             | Some edge =>
                 match NODES net !! fromId, NODES net !! toId with
                 | Some fromNode, Some toNode =>
                     let controlPoint :=
                       calculateControlPoint (Node_point fromNode) (Node_point toNode)
                         (controlPointOffset edge) in
                     let elapsed := (time - Manual.orElse (Manual.startTimeRef r1) time)%Q in
                     let t := Qmin (elapsed / TRAVEL_DURATION) 1 in
                     let pos := getQuadraticBezierPoint t (Node_point fromNode)
                                  controlPoint (Node_point toNode) in
                     let rot := getQuadraticBezierAngle M t (Node_point fromNode)
                                  controlPoint (Node_point toNode) in
                     let shown :=
                       {| Manual.bs_x := Point_x pos; Manual.bs_y := Point_y pos;
                          Manual.bs_rotation := rot; Manual.isVisible := true;
                          Manual.currentStopLabel :=
                            if Qgeb t 1 then Some (label toNode) else None |} in
                     if Qgeb t 1 then
                       let isFinal :=
                         bool_decide (Z.of_nat (Manual.currentSegmentRef r1) + 1
                                      = Z.of_nat (length (Route_path route)) - 1)%Z in
                       Some ({| Manual.startTimeRef := Manual.startTimeRef r1;
                                Manual.pauseTimeRef := None;
                                Manual.currentSegmentRef := Manual.currentSegmentRef r1;
                                Manual.stateRef :=
                                  if isFinal then Manual.WAITING_FINAL else Manual.WAITING |},
                             Some shown, [Manual.StopReached (label toNode)])
                     else Some (r1, Some shown, [])
                 | _, _ => None
                 end
             end
         | _, _ => Some (r1, None, [])
         end) = Some res).
  { intros r1. destruct (_ >=? _)%Z; [eauto|].
    destruct (Route_path route !! Manual.currentSegmentRef r1) as [fromId|] eqn:Hfrom;
      [|eauto].
    replace (Manual.currentSegmentRef r1 + 1) with (S (Manual.currentSegmentRef r1)) by lia.
    destruct (Route_path route !! S (Manual.currentSegmentRef r1)) as [toId|] eqn:Hto;
      [|eauto].
    destruct (Hdrive _ _ _ Hfrom Hto) as (e & -> & [fromNode ->] & [toNode ->]).
    simpl. destruct (Qgeb _ 1); eauto. }
  destruct (Manual.stateRef r); simpl.
  - apply Hmove.
  - destruct (Qgeb _ _); [apply Hmove|eauto].
  - destruct (Qgeb _ _); eauto.
Qed.

Lemma frames_total M net route times r :
  drivable net (Route_path route) →
  ∃ res, Manual.frames M net route times r = Some res.
Proof.
  intros Hdrive. revert r. induction times as [|time times IH]; intros r; [by eexists|].
  rewrite frames_cons. unfold Manual.animate. simpl.
  destruct (handleSingleBusAnimation_total M net route time
              (if Manual.falsy (Manual.startTimeRef r)
               then {| Manual.startTimeRef := Some time;
                       Manual.pauseTimeRef := Manual.pauseTimeRef r;
                       Manual.currentSegmentRef := Manual.currentSegmentRef r;
                       Manual.stateRef := Manual.stateRef r |}
               else r) Hdrive) as [[[r1 shown] sigs] ->].
  destruct (IH r1) as [[[r2 shownLater] sigLater] ->]. by eexists.
Qed.

(** X22: a route of the planner can always be animated. On a network whose
    edges join nodes of [NODES], the route [activeRoute] computes with
    [findPath] never makes a frame throw, whatever the refs and the frame
    times; and it never stalls: for each of its legs the lookup of the edge
    succeeds. *)
Theorem manual_planner_route_animates (M : MathLib) (net : Network)
    (sourceId targetId : string) (route : Route) :
  wellFormed net →
  activeRoute (EDGES net) sourceId targetId = Some route →
  (∀ times r, ∃ res, Manual.frames M net route times r = Some res)
  ∧ (∀ i fromId toId,
       Route_path route !! i = Some fromId → Route_path route !! S i = Some toId →
       is_Some (findEdge (EDGES net) fromId toId)).
Proof.
  intros Hwf Hroute. unfold activeRoute in Hroute.
  destruct (findPath _ _ _) as [[p|]|] eqn:Hfind; try done.
  injection Hroute as <-. simpl.
  pose proof (findPath_drivable _ _ _ _ Hwf Hfind) as Hdrive. split.
  - intros times r. by apply frames_total.
  - intros i fromId toId Hi HSi. destruct (Hdrive _ _ _ Hi HSi) as (e & -> & _). eauto.
Qed.

Lemma manual_planner_route_animates_witness :
  ∃ res, Manual.frames sampleMath constants
           {| Route_id := 999; Route_name := "Express: B1 to B7";
              Route_path := ["B1"; "B2"; "B3"; "B6"; "B7"]; Route_color := "#3b82f6" |}
           [16; 2016]%Q Manual.initialRefs = Some res.
Proof.
  exact (proj1 (manual_planner_route_animates sampleMath constants "B1" "B7" _
                  constants_wellFormed
                  ltac:(vm_compute; reflexivity))
           [16; 2016]%Q Manual.initialRefs).
Defined.

(** *** The refs outlive the trip *)

Lemma frames_after_final_wait M net route times r q :
  Manual.stateRef r = Manual.WAITING_FINAL →
  Manual.pauseTimeRef r = Some q → Qeq_bool q 0 = false →
  Forall (λ time, q + DESTINATION_WAIT <= time)%Q times →
  ∃ r', Manual.frames M net route times r
        = Some (r', [], replicate (length times) Manual.AnimationComplete)
        ∧ Manual.stateRef r' = Manual.WAITING_FINAL
        ∧ Manual.pauseTimeRef r' = Some q
        ∧ Manual.currentSegmentRef r' = Manual.currentSegmentRef r.
Proof.
  revert r. induction times as [|time times IH]; intros r Hst Hpause Hq Hall.
  { exists r. done. }
  apply Forall_cons in Hall as [Htime Hall].
  rewrite frames_cons.
  assert (Hstep : ∃ r1, Manual.animate M net false true (Some route) time r
                        = Some (r1, None, [Manual.AnimationComplete])
                        ∧ Manual.stateRef r1 = Manual.WAITING_FINAL
                        ∧ Manual.pauseTimeRef r1 = Some q
                        ∧ Manual.currentSegmentRef r1 = Manual.currentSegmentRef r).
  { unfold Manual.animate, Manual.handleSingleBusAnimation. simpl.
    destruct r as [start pause seg st]. simpl in *. subst st pause.
    assert (Hge : Qgeb (time - q) DESTINATION_WAIT = true).
    { apply Qgeb_spec. lra. }
    destruct (Manual.falsy start); simpl; rewrite Hq, Hge; eexists; done. }
  destruct Hstep as (r1 & -> & Hst1 & Hpause1 & Hseg1).
  destruct (IH r1 Hst1 Hpause1 Hq Hall) as (r' & -> & Hst' & Hpause' & Hseg').
  exists r'. split_and!; try done. congruence.
Qed.

Lemma final_wait_completion M net route time r r' shown sigs :
  Manual.stateRef r = Manual.WAITING_FINAL →
  Manual.handleSingleBusAnimation M net route time r = Some (r', shown, sigs) →
  Manual.AnimationComplete ∈ sigs →
  ∃ q, Manual.pauseTimeRef r' = Some q ∧ Qeq_bool q 0 = false
       ∧ (q + DESTINATION_WAIT <= time)%Q
       ∧ Manual.stateRef r' = Manual.WAITING_FINAL
       ∧ Manual.currentSegmentRef r' = Manual.currentSegmentRef r.
Proof.
  unfold Manual.handleSingleBusAnimation.
  destruct r as [start pause seg st]. simpl. intros -> H Hin.
  destruct (Qgeb _ _) eqn:Hge; simplify_eq; [|by apply elem_of_nil in Hin].
  apply Qgeb_spec in Hge.
  destruct pause as [q|]; simpl in *.
  - destruct (Qeq_bool q 0) eqn:Hq.
    + exfalso. unfold DESTINATION_WAIT in Hge. lra.
    + exists q. rewrite Hq. split_and!; try done. lra.
  - exfalso. unfold DESTINATION_WAIT in Hge. lra.
Qed.

(** X23: the refs of the single bus are never reset, so the first completed
    trip is the last one that moves. Once a frame at [time] has called
    [onAnimationComplete] at the end of the final wait, every later frame
    (of that trip or of a new one, on any route) calls
    [onAnimationComplete] again at once: it shows no bus, reports no stop,
    and leaves [stateRef] at [WAITING_FINAL] and the segment index where it
    was. *)
Theorem manual_later_trips_end_at_once (M : MathLib) (net : Network)
    (route : option Route) (time : Q) (r r' : Manual.Refs)
    (shown : option Manual.BusState) (sigs : list Manual.Signal)
    (route' : Route) (times' : list Q) :
  Manual.stateRef r = Manual.WAITING_FINAL →
  Manual.handleSingleBusAnimation M net route time r = Some (r', shown, sigs) →
  Manual.AnimationComplete ∈ sigs →
  Forall (λ time', time <= time')%Q times' →
  ∃ r'', Manual.frames M net route' times' r'
         = Some (r'', [], replicate (length times') Manual.AnimationComplete)
         ∧ Manual.stateRef r'' = Manual.WAITING_FINAL
         ∧ Manual.currentSegmentRef r'' = Manual.currentSegmentRef r.
Proof.
  intros Hst Hstep Hin Hlater.
  destruct (final_wait_completion _ _ _ _ _ _ _ _ Hst Hstep Hin)
    as (q & Hpause & Hq & Hdone & Hst' & Hseg').
  destruct (frames_after_final_wait M net route' times' r' q Hst' Hpause Hq)
    as (r'' & Hrun & Hst'' & _ & Hseg'').
  { eapply Forall_impl; [exact Hlater|]. intros time' Hle. simpl in Hle. lra. }
  exists r''. split_and!; try done. congruence.
Qed.

Lemma manual_later_trips_end_at_once_witness :
  ∃ r'', Manual.frames sampleMath constants
           {| Route_id := 999; Route_name := "Express: B1 to B7";
              Route_path := ["B1"; "B2"; "B3"; "B6"; "B7"]; Route_color := "#3b82f6" |}
           [9000; 9016; 20000]%Q
           {| Manual.startTimeRef := Some 3032%Q; Manual.pauseTimeRef := Some 5048%Q;
              Manual.currentSegmentRef := 1; Manual.stateRef := Manual.WAITING_FINAL |}
         = Some (r'', [], replicate (length [9000; 9016; 20000]%Q) Manual.AnimationComplete)
         ∧ Manual.stateRef r'' = Manual.WAITING_FINAL
         ∧ Manual.currentSegmentRef r'' = 1.
Proof.
  assert (Hin : Manual.AnimationComplete ∈ [Manual.AnimationComplete]) by left.
  assert (Hlater : Forall (λ time', 7048 <= time')%Q [9000; 9016; 20000]%Q).
  { repeat (apply Forall_cons; split; [discriminate|]). apply Forall_nil_2. }
  exact (manual_later_trips_end_at_once sampleMath constants
           (Some {| Route_id := 999; Route_name := "Express: A to C";
                    Route_path := ["A"; "B"; "C"]; Route_color := "#3b82f6" |})
           7048
           {| Manual.startTimeRef := Some 3032%Q; Manual.pauseTimeRef := Some 5048%Q;
              Manual.currentSegmentRef := 1; Manual.stateRef := Manual.WAITING_FINAL |}
           _ None [Manual.AnimationComplete] _ [9000; 9016; 20000]%Q
           eq_refl eq_refl Hin Hlater).
Defined.

(** *** How long a trip takes at least *)










(** *** Every trip on a drivable route ends *)

Lemma frames_app M net route (l1 l2 : list Q) r :
  Manual.frames M net route (l1 ++ l2) r
  = match Manual.frames M net route l1 r with
    | None => None
    | Some (r1, shown1, sigs1) =>
        match Manual.frames M net route l2 r1 with
        | None => None
        | Some (r2, shown2, sigs2) => Some (r2, shown1 ++ shown2, sigs1 ++ sigs2)
        end
    end.
Proof.
  revert r. induction l1 as [|time l1 IH]; intros r.
  - simpl. by destruct (Manual.frames _ _ _ l2 r) as [[[??]?]|].
  - rewrite <- app_comm_cons, !frames_cons.
    destruct (Manual.animate _ _ _ _ _ _ _) as [[[r1 shown] sig1]|]; [|done].
    rewrite IH.
    destruct (Manual.frames _ _ _ l1 r1) as [[[r2 shown2] sig2]|]; [|done].
    destruct (Manual.frames _ _ _ l2 r2) as [[[r3 shown3] sig3]|]; [|done].
    by rewrite !app_assoc.
Qed.

Lemma orElse_pos (s time : Q) : (0 < s)%Q → Manual.orElse (Some s) time = s.
Proof.
  intros Hs. unfold Manual.orElse.
  destruct (Qeq_bool s 0) eqn:Hq; [|done].
  apply Qeq_bool_iff in Hq. lra.
Qed.

Lemma falsy_pos (s : Q) : (0 < s)%Q → Manual.falsy (Some s) = false.
Proof.
  intros Hs. unfold Manual.falsy.
  destruct (Qeq_bool s 0) eqn:Hq; [|done].
  apply Qeq_bool_iff in Hq. lra.
Qed.

Lemma Qgeb_false a b : Qgeb a b = false ↔ (a < b)%Q.
Proof.
  destruct (Qgeb a b) eqn:H.
  - apply Qgeb_spec in H. split; [done|]. lra.
  - split; [|done]. intros _. apply Qnot_le_lt. intros Hle.
    apply Qgeb_spec in Hle. congruence.
Qed.

Section Refreshing.
Context (M : MathLib) (net : Network) (route : Route) (times : nat → Q).
Context (Hdrive : drivable net (Route_path route)) (Hrefresh : refreshing times).
#[local] Set Default Proof Using "All".

Lemma times_mono i j : i ≤ j → (times i <= times j)%Q.
Proof.
  destruct Hrefresh as (_ & Hstep & _).
  induction 1 as [|j Hle IH]; [lra|]. specialize (Hstep j). lra.
Qed.

Lemma times_pos i : (0 < times i)%Q.
Proof.
  destruct Hrefresh as (H0 & _ & _).
  pose proof (times_mono 0 i ltac:(lia)). lra.
Qed.

(** The frames from number [i] on leave the bus as it is until one comes
    at [deadline] or later. *)
Lemma wait_until (P : Manual.Refs → Prop) (deadline : Q) :
  (∀ r time, P r → (0 < time)%Q → (time < deadline)%Q →
     ∃ r1 shown, Manual.animate M net false true (Some route) time r = Some (r1, shown, [])
                 ∧ P r1) →
  ∀ i r, P r →
    ∃ m r1 shows,
      Manual.frames M net route (times <$> seq i m) r = Some (r1, shows, [])
      ∧ P r1 ∧ (deadline <= times (i + m))%Q.
Proof.
  intros Hidle i r HP.
  destruct Hrefresh as (_ & _ & Hunbounded).
  destruct (Hunbounded deadline) as [j Hj].
  remember (j - i) as n eqn:Hn. revert i r HP Hn.
  induction n as [|n IH]; intros i r HP Hn.
  - exists 0, r, []. rewrite Nat.add_0_r. split_and!; try done.
    pose proof (times_mono j i ltac:(lia)). lra.
  - destruct (Qlt_le_dec (times i) deadline) as [Hlt|Hge].
    + destruct (Hidle r (times i) HP (times_pos i) Hlt) as (r0 & shown & Hstep & HP0).
      destruct (IH (S i) r0 HP0 ltac:(lia)) as (m & r1 & shows & Hrun & HP1 & Hle).
      exists (S m), r1, (option_list shown ++ shows).
      rewrite <- cons_seq, fmap_cons, frames_cons, Hstep, Hrun.
      split_and!; try done. by replace (i + S m) with (S i + m) by lia.
    + exists 0, r, []. rewrite Nat.add_0_r. by split_and!.
Qed.

Lemma leg_lookup k :
  k + 1 < length (Route_path route) →
  ∃ fromId toId e fromNode toNode,
    Route_path route !! k = Some fromId ∧ Route_path route !! (k + 1) = Some toId
    ∧ findEdge (EDGES net) fromId toId = Some e
    ∧ NODES net !! fromId = Some fromNode ∧ NODES net !! toId = Some toNode.
Proof.
  intros Hk.
  destruct (lookup_lt_is_Some_2 (Route_path route) k ltac:(lia)) as [fromId Hfrom].
  destruct (lookup_lt_is_Some_2 (Route_path route) (S k) ltac:(lia)) as [toId Hto].
  destruct (Hdrive _ _ _ Hfrom Hto) as (e & He & [fromNode Hf] & [toNode Ht]).
  exists fromId, toId, e, fromNode, toNode.
  replace (k + 1) with (S k) by lia. by split_and!.
Qed.

(** A frame of a bus that is [MOVING] since [s]: it arrives when the frame
    comes [TRAVEL_DURATION] after [s] or later. *)
Lemma moving_frame k s r time :
  movingSince k s r → k + 1 < length (Route_path route) →
  ∃ r1 bs toNode,
    Manual.animate M net false true (Some route) time r
    = Some (r1, Some bs,
            if Qgeb (time - s) TRAVEL_DURATION
            then [Manual.StopReached (label toNode)] else [])
    ∧ if Qgeb (time - s) TRAVEL_DURATION
      then arrivedAt (length (Route_path route)) k r1
      else movingSince k s r1.
Proof.
  intros (Hst & Hseg & Hstart & Hs) Hk.
  destruct (leg_lookup k Hk) as (fromId & toId & e & fromNode & toNode
                                   & Hfrom & Hto & He & Hf & Ht).
  destruct r as [start pause seg st]. simpl in *. subst.
  unfold Manual.animate. rewrite falsy_pos by done.
  unfold Manual.handleSingleBusAnimation.
  cbn [Manual.stateRef Manual.pauseTimeRef Manual.startTimeRef Manual.currentSegmentRef
       negb andb].
  destruct (Z.geb_spec (Z.of_nat k) (Z.of_nat (length (Route_path route)) - 1)); [lia|].
  rewrite Hfrom, Hto, He, Hf, Ht. cbv zeta.
  rewrite arrival_test, orElse_pos by done.
  destruct (Qgeb (time - s) TRAVEL_DURATION); eexists _, _, toNode; (split; [done|]).
  - unfold arrivedAt, waitingState. simpl. split_and!; try done.
    destruct (decide (k + 2 = length (Route_path route))).
    + rewrite bool_decide_eq_true_2 by lia. done.
    + rewrite bool_decide_eq_false_2 by lia. done.
  - done.
Qed.

(** The first frame after an arrival notes the time. *)
Lemma arrived_frame k r time :
  arrivedAt (length (Route_path route)) k r → (0 < time)%Q →
  ∃ r1, Manual.animate M net false true (Some route) time r = Some (r1, None, [])
        ∧ waitingSince (length (Route_path route)) k time r1.
Proof.
  intros (Hst & Hseg & Hpause) Htime.
  destruct r as [start pause seg st]. simpl in *. subst.
  assert (Hzero : ∀ d, (0 < d)%Q → Qgeb (time - time) d = false).
  { intros d Hd. apply Qgeb_false. lra. }
  unfold Manual.animate, Manual.handleSingleBusAnimation, waitingSince, waitingState.
  destruct (decide (k + 2 = length (Route_path route)));
    destruct (Manual.falsy start);
    cbn [Manual.stateRef Manual.pauseTimeRef Manual.startTimeRef Manual.currentSegmentRef
         negb andb Manual.orElse];
    rewrite Hzero by done; eexists; (split; [done|]); by split_and!.
Qed.

(** A frame of a bus that waits on the way since [p]. *)
Lemma waiting_frame k p r time :
  waitingSince (length (Route_path route)) k p r →
  k + 2 < length (Route_path route) → (0 < time)%Q →
  ∃ r1 shown,
    Manual.animate M net false true (Some route) time r = Some (r1, shown, [])
    ∧ if Qgeb (time - p) STOP_DURATION
      then movingSince (k + 1) time r1
      else waitingSince (length (Route_path route)) k p r1.
Proof.
  intros (Hst & Hseg & Hpause & Hp) Hk Htime.
  destruct (leg_lookup (k + 1) ltac:(lia)) as (fromId & toId & e & fromNode & toNode
                                                 & Hfrom & Hto & He & Hf & Ht).
  destruct r as [start pause seg st]. simpl in *. subst.
  unfold waitingState in *. rewrite decide_False in * by lia.
  unfold Manual.animate, Manual.handleSingleBusAnimation, waitingSince, waitingState.
  rewrite decide_False by lia.
  destruct (Manual.falsy start);
    cbn [Manual.stateRef Manual.pauseTimeRef Manual.startTimeRef Manual.currentSegmentRef
         negb andb];
    rewrite (orElse_pos p time Hp);
    (destruct (Qgeb (time - p) STOP_DURATION); [|eexists _, _; by split_and!]);
    cbn [Manual.currentSegmentRef Manual.startTimeRef];
    (destruct (Z.geb_spec (Z.of_nat (k + 1)) (Z.of_nat (length (Route_path route)) - 1));
     [lia|]);
    rewrite Hfrom, Hto, He, Hf, Ht; cbv zeta;
    rewrite orElse_self, travel_start; eexists _, _; (split; [done|]);
    by split_and!.
Qed.

(** A frame of a bus that waits at the destination since [p]. *)
Lemma final_frame k p r time :
  waitingSince (length (Route_path route)) k p r →
  k + 2 = length (Route_path route) →
  ∃ r1,
    Manual.animate M net false true (Some route) time r
    = Some (r1, None,
            if Qgeb (time - p) DESTINATION_WAIT then [Manual.AnimationComplete] else [])
    ∧ waitingSince (length (Route_path route)) k p r1.
Proof.
  intros (Hst & Hseg & Hpause & Hp) Hk.
  destruct r as [start pause seg st]. simpl in *. subst.
  unfold waitingState in *. rewrite decide_True in * by lia.
  unfold Manual.animate, Manual.handleSingleBusAnimation, waitingSince, waitingState.
  rewrite decide_True by lia.
  destruct (Manual.falsy start);
    cbn [Manual.stateRef Manual.pauseTimeRef Manual.startTimeRef Manual.currentSegmentRef
         negb andb];
    rewrite (orElse_pos p time Hp);
    destruct (Qgeb (time - p) DESTINATION_WAIT); eexists; by split_and!.
Qed.

Lemma frames_chain i m1 m2 r r1 r2 shown1 sigs1 shown2 sigs2 :
  Manual.frames M net route (times <$> seq i m1) r = Some (r1, shown1, sigs1) →
  Manual.frames M net route (times <$> seq (i + m1) m2) r1 = Some (r2, shown2, sigs2) →
  Manual.frames M net route (times <$> seq i (m1 + m2)) r
  = Some (r2, shown1 ++ shown2, sigs1 ++ sigs2).
Proof.
  intros H1 H2. by rewrite seq_app, fmap_app, frames_app, H1, H2.
Qed.

Lemma first_frame time :
  1 < length (Route_path route) → (0 < time)%Q →
  ∃ r1 shown,
    Manual.animate M net false true (Some route) time Manual.initialRefs
    = Some (r1, shown, [])
    ∧ movingSince 0 time r1.
Proof.
  intros Hlen Htime.
  destruct (leg_lookup 0 ltac:(lia)) as (fromId & toId & e & fromNode & toNode
                                           & Hfrom & Hto & He & Hf & Ht).
  unfold Manual.animate, Manual.handleSingleBusAnimation, Manual.initialRefs.
  cbn [Manual.stateRef Manual.pauseTimeRef Manual.startTimeRef Manual.currentSegmentRef
       negb andb Manual.falsy].
  destruct (Z.geb_spec (Z.of_nat 0) (Z.of_nat (length (Route_path route)) - 1)); [lia|].
  rewrite Hfrom, Hto, He, Hf, Ht. cbv zeta.
  rewrite orElse_self, travel_start. eexists _, _. split; [done|]. by split_and!.
Qed.

Lemma reach_stop k s r i :
  movingSince k s r → k + 1 < length (Route_path route) →
  ∃ m r1 shows sigs,
    Manual.frames M net route (times <$> seq i m) r = Some (r1, shows, sigs)
    ∧ arrivedAt (length (Route_path route)) k r1.
Proof.
  intros Hmov Hk.
  destruct (wait_until (movingSince k s) (s + TRAVEL_DURATION)) with (i := i) (r := r)
    as (m & r0 & shows & Hrun & Hmov0 & Hdue); [|done|].
  { intros r' time Hr' _ Hlt.
    destruct (moving_frame k s r' time Hr' Hk) as (r1 & bs & toNode & Hstep & Hnext).
    assert (Hge : Qgeb (time - s) TRAVEL_DURATION = false) by (apply Qgeb_false; lra).
    rewrite Hge in Hstep, Hnext. eauto. }
  destruct (moving_frame k s r0 (times (i + m)) Hmov0 Hk)
    as (r1 & bs & toNode & Hstep & Hnext).
  assert (Hge : Qgeb (times (i + m) - s) TRAVEL_DURATION = true) by (apply Qgeb_spec; lra).
  rewrite Hge in Hstep, Hnext.
  exists (m + 1), r1. eexists _, _. split; [|done].
  eapply frames_chain; [exact Hrun|].
  cbn [seq fmap list_fmap]. rewrite frames_cons, Hstep. done.
Qed.

Lemma note_arrival k r i :
  arrivedAt (length (Route_path route)) k r →
  ∃ r1, Manual.frames M net route (times <$> seq i 1) r = Some (r1, [], [])
        ∧ waitingSince (length (Route_path route)) k (times i) r1.
Proof.
  intros Harr.
  destruct (arrived_frame k r (times i) Harr (times_pos i)) as (r1 & Hstep & Hw).
  exists r1. split; [|done].
  cbn [seq fmap list_fmap]. rewrite frames_cons, Hstep. done.
Qed.

Lemma leave_stop k p r i :
  waitingSince (length (Route_path route)) k p r → k + 2 < length (Route_path route) →
  ∃ m r1 shows s,
    Manual.frames M net route (times <$> seq i m) r = Some (r1, shows, [])
    ∧ movingSince (k + 1) s r1.
Proof.
  intros Hw Hk.
  destruct (wait_until (waitingSince (length (Route_path route)) k p) (p + STOP_DURATION))
    with (i := i) (r := r) as (m & r0 & shows & Hrun & Hw0 & Hdue); [|done|].
  { intros r' time Hr' Hpos Hlt.
    destruct (waiting_frame k p r' time Hr' Hk Hpos) as (r1 & shown & Hstep & Hnext).
    assert (Hge : Qgeb (time - p) STOP_DURATION = false) by (apply Qgeb_false; lra).
    rewrite Hge in Hnext. eauto. }
  destruct (waiting_frame k p r0 (times (i + m)) Hw0 Hk (times_pos _))
    as (r1 & shown & Hstep & Hnext).
  assert (Hge : Qgeb (times (i + m) - p) STOP_DURATION = true) by (apply Qgeb_spec; lra).
  rewrite Hge in Hnext.
  assert (Hlast : Manual.frames M net route (times <$> seq (i + m) 1) r0
                  = Some (r1, option_list shown ++ [], [])).
  { cbn [seq fmap list_fmap]. rewrite frames_cons, Hstep. done. }
  pose proof (frames_chain _ _ _ _ _ _ _ _ _ _ Hrun Hlast) as Hc.
  exists (m + 1), r1. eexists _, _. split; [exact Hc|done].
Qed.

Lemma end_trip k p r i :
  waitingSince (length (Route_path route)) k p r → k + 2 = length (Route_path route) →
  ∃ m r1 shows sigs,
    Manual.frames M net route (times <$> seq i m) r = Some (r1, shows, sigs)
    ∧ Manual.AnimationComplete ∈ sigs.
Proof.
  intros Hw Hk.
  destruct (wait_until (waitingSince (length (Route_path route)) k p)
              (p + DESTINATION_WAIT))
    with (i := i) (r := r) as (m & r0 & shows & Hrun & Hw0 & Hdue); [|done|].
  { intros r' time Hr' Hpos Hlt.
    destruct (final_frame k p r' time Hr' Hk) as (r1 & Hstep & Hnext).
    assert (Hge : Qgeb (time - p) DESTINATION_WAIT = false) by (apply Qgeb_false; lra).
    rewrite Hge in Hstep. eauto. }
  destruct (final_frame k p r0 (times (i + m)) Hw0 Hk) as (r1 & Hstep & Hnext).
  assert (Hge : Qgeb (times (i + m) - p) DESTINATION_WAIT = true)
    by (apply Qgeb_spec; lra).
  rewrite Hge in Hstep.
  exists (m + 1), r1. eexists _, _. split.
  - eapply frames_chain; [exact Hrun|].
    cbn [seq fmap list_fmap]. rewrite frames_cons, Hstep. done.
  - simpl. left.
Qed.

Lemma finish_from k s r i :
  movingSince k s r → k + 1 < length (Route_path route) →
  ∃ m r1 shows sigs,
    Manual.frames M net route (times <$> seq i m) r = Some (r1, shows, sigs)
    ∧ Manual.AnimationComplete ∈ sigs.
Proof.
  remember (length (Route_path route) - k) as d eqn:Hd.
  revert k s r i Hd. induction d as [|d IH]; intros k s r i Hd Hmov Hk; [lia|].
  destruct (reach_stop k s r i Hmov Hk) as (m1 & r1 & sh1 & sg1 & Hrun1 & Harr).
  destruct (note_arrival k r1 (i + m1) Harr) as (r2 & Hrun2 & Hw).
  pose proof (frames_chain _ _ _ _ _ _ _ _ _ _ Hrun1 Hrun2) as Hrun12.
  destruct (decide (k + 2 = length (Route_path route))) as [Hlast|Hmore].
  - destruct (end_trip k _ r2 (i + (m1 + 1)) Hw Hlast) as (m3 & r3 & sh3 & sg3 & Hrun3 & Hin).
    exists (m1 + 1 + m3), r3. eexists _, _. split.
    + eapply frames_chain; [exact Hrun12|exact Hrun3].
    + apply elem_of_app. by right.
  - destruct (leave_stop k _ r2 (i + (m1 + 1)) Hw ltac:(lia))
      as (m3 & r3 & sh3 & s3 & Hrun3 & Hmov3).
    pose proof (frames_chain _ _ _ _ _ _ _ _ _ _ Hrun12 Hrun3) as Hrun123.
    destruct (IH (k + 1) s3 r3 (i + (m1 + 1 + m3)) ltac:(lia) Hmov3 ltac:(lia))
      as (m4 & r4 & sh4 & sg4 & Hrun4 & Hin).
    exists (m1 + 1 + m3 + m4), r4. eexists _, _. split.
    + eapply frames_chain; [exact Hrun123|exact Hrun4].
    + apply elem_of_app. by right.
Qed.

Lemma trip_completes :
  ∃ n r shows sigs,
    Manual.frames M net route (times <$> seq 0 n) Manual.initialRefs
    = Some (r, shows, sigs)
    ∧ Manual.AnimationComplete ∈ sigs.
Proof.
  destruct (decide (1 < length (Route_path route))) as [Hlen|Hshort].
  - destruct (first_frame (times 0) Hlen (times_pos 0)) as (r1 & shown & Hstep & Hmov).
    destruct (finish_from 0 _ r1 1 Hmov ltac:(lia)) as (m & r2 & sh & sg & Hrun & Hin).
    exists (1 + m), r2. eexists _, _. split.
    + eapply (frames_chain 0 1 m); [|exact Hrun].
      cbn [seq fmap list_fmap]. rewrite frames_cons, Hstep. done.
    + done.
  - destruct (frames_at_destination M net route [times 0] Manual.initialRefs)
      as (r & Hrun & _); [done|simpl; lia|].
    exists 1, r. eexists _, _. split; [exact Hrun|]. simpl. left.
Qed.

End Refreshing.

(** X25: every manual trip on a drivable route ends. When every leg of the
    path has an edge of [EDGES] between nodes of [NODES], and the frames
    keep coming (positive times that never go back and pass every bound),
    no frame throws and after finitely many of them [onAnimationComplete]
    is called. *)
Theorem manual_trip_completes (M : MathLib) (net : Network) (route : Route)
    (times : nat → Q) :
  drivable net (Route_path route) → refreshing times →
  ∃ n r shows sigs,
    Manual.frames M net route (times <$> seq 0 n) Manual.initialRefs
    = Some (r, shows, sigs)
    ∧ Manual.AnimationComplete ∈ sigs.
Proof. intros Hdrive Hrefresh. by apply trip_completes. Qed.

Lemma manual_trip_completes_witness :
  ∃ n r shows sigs,
    Manual.frames sampleMath constants
      {| Route_id := 999; Route_name := "Express: B1 to B7";
         Route_path := ["B1"; "B2"; "B3"; "B6"; "B7"]; Route_color := "#3b82f6" |}
      ((λ i, inject_Z (16 * (Z.of_nat i + 1))) <$> seq 0 n) Manual.initialRefs
    = Some (r, shows, sigs)
    ∧ Manual.AnimationComplete ∈ sigs.
Proof.
  apply manual_trip_completes.
  - apply (findPath_drivable constants "B1" "B7"); [apply constants_wellFormed|].
    vm_compute. reflexivity.
  - split_and!.
    + reflexivity.
    + intros i. rewrite <- Zle_Qle. lia.
    + intros bound. exists (Z.to_nat (Qceiling bound)).
      eapply Qle_trans; [apply Qle_ceiling|]. rewrite <- Zle_Qle. lia.
Defined.

(** ** The wait count of the manual planner *)

Lemma totalPassengers_delete (peopleCounts : gmap string Z) k v :
  peopleCounts !! k = Some v →
  totalPassengers peopleCounts = (v + totalPassengers (delete k peopleCounts))%Z.
Proof.
  intros Hk. rewrite <- (insert_delete_id peopleCounts k v Hk) at 1.
  unfold totalPassengers.
  rewrite map_fold_insert_L; [lia| |apply lookup_delete_eq]. intros. lia.
Qed.

Lemma totalPassengers_nonneg (peopleCounts : gmap string Z) :
  map_Forall (λ _ count, 0 <= count)%Z peopleCounts →
  (0 <= totalPassengers peopleCounts)%Z.
Proof.
  unfold totalPassengers.
  induction peopleCounts as [|k v m Hk Hfold IH] using map_first_key_ind.
  - intros _. by rewrite map_fold_empty.
  - intros Hall. rewrite map_fold_insert_L; [| |done].
    + apply map_Forall_insert in Hall as [Hv Hall]; [|done]. specialize (IH Hall). lia.
    + intros. lia.
Qed.

Lemma waitCount_bounds (path : list string) (peopleCounts : gmap string Z) (sum0 : Z) :
  NoDup path → map_Forall (λ _ count, 0 <= count)%Z peopleCounts →
  (sum0 <= foldl (λ sum nodeId, sum + default 0 (peopleCounts !! nodeId)) sum0 path
   <= sum0 + totalPassengers peopleCounts)%Z.
Proof.
  intros Hnd. revert peopleCounts sum0.
  induction Hnd as [|k path Hk Hnd IH]; intros peopleCounts sum0 Hall; simpl.
  { pose proof (totalPassengers_nonneg peopleCounts Hall). lia. }
  assert (Hsame : foldl (λ sum nodeId, sum + default 0 (peopleCounts !! nodeId))%Z
                    (sum0 + default 0 (peopleCounts !! k))%Z path
                  = foldl (λ sum nodeId, sum + default 0 (delete k peopleCounts !! nodeId))%Z
                      (sum0 + default 0 (peopleCounts !! k))%Z path).
  { generalize (sum0 + default 0 (peopleCounts !! k))%Z. clear IH Hnd.
    induction path as [|j path IHp]; intros a; [done|]. simpl.
    apply not_elem_of_cons in Hk as [Hne Hk].
    rewrite lookup_delete_ne by done. by apply IHp. }
  rewrite Hsame.
  assert (Hall' : map_Forall (λ _ count, 0 <= count)%Z (delete k peopleCounts)).
  { by apply map_Forall_delete. }
  specialize (IH (delete k peopleCounts) (sum0 + default 0 (peopleCounts !! k))%Z Hall').
  destruct (peopleCounts !! k) as [v|] eqn:Hv; simpl in *.
  - rewrite (totalPassengers_delete peopleCounts k v Hv).
    pose proof (Hall k v Hv) as Hpos. simpl in Hpos. lia.
  - rewrite delete_id in IH by done. rewrite delete_id by done. lia.
Qed.

(** X26: the wait count of the planner's route never exceeds the total.
    When no stop has a negative count, [manualRoutePeopleCount] lies between
    [0] and [totalPassengers]: the route of [findPath] visits no stop twice,
    so no count enters the sum twice. *)
Theorem wait_count_within_total (edges : list Edge) (sourceId targetId : string)
    (peopleCounts : gmap string Z) :
  map_Forall (λ _ count, 0 <= count)%Z peopleCounts →
  (0 <= manualRoutePeopleCount (activeRoute edges sourceId targetId) peopleCounts
   <= totalPassengers peopleCounts)%Z.
Proof.
  intros Hall. unfold manualRoutePeopleCount, activeRoute.
  pose proof (totalPassengers_nonneg peopleCounts Hall) as Hpos.
  destruct (findPath sourceId targetId edges) as [[p|]|] eqn:Hfind; simpl; try lia.
  apply findPath_NoDup in Hfind.
  pose proof (waitCount_bounds p peopleCounts 0 Hfind Hall). lia.
Qed.

Lemma wait_count_within_total_witness :
  (0 <= manualRoutePeopleCount (activeRoute constants_EDGES "B1" "B7")
          {[ "B1" := 3%Z; "B2" := 0%Z; "B5" := 4%Z; "B7" := 5%Z ]}
   <= totalPassengers {[ "B1" := 3%Z; "B2" := 0%Z; "B5" := 4%Z; "B7" := 5%Z ]})%Z.
Proof.
  apply wait_count_within_total.
  apply (bool_decide_unpack (map_Forall _ _)). vm_compute. exact I.
Defined.
